(** * BleWifiBridge: the string queue, the schedule entries and the bridge loop

    A shallow embedding of [StrQueue.h]/[StrQueue.cpp] (the ring buffer of
    null-terminated strings), [ValueToRead.h]/[ValueToRead.cpp] (one value
    to read and its configuration-line parser) and of the scheduling and
    forwarding part of the sketch's [setup]/[loop].

    Conventions.
    - A C [int], [long] or [unsigned long] is a [Z].  The only counter that
      the program lets wrap, [minuteCounter] (an [unsigned long], 32 bits on
      the ESP32), has its wrap-around written out; the queue's [int]s stay
      within range ([QueueFacts.int_range]).
    - A [char] is an [ascii]; ['\0'] is [null].
    - A [char*] is the list of the characters found at that address.  A C
      string ends at its first [null]; a list that holds no [null] stands
      for a block whose terminator follows its last character.
    - A [char] array that is written by index is a list updated with stdpp's
      insert.  A write past the end of the list changes nothing in the
      model (C leaves it undefined); the theorems that depend on it ask for
      a destination that is long enough. *)

From Stdlib Require Import ZArith Ascii String Lia.
From stdpp Require Import base tactics option list.

Open Scope Z_scope.

(** ** Characters, blocks of memory and C strings *)

Definition null : ascii := Ascii.zero.

Definition is_null (c : ascii) : bool := Ascii.eqb c null.

(** [m[i]] *)
Definition char_at (m : list ascii) (i : Z) : ascii :=
  default null (m !! Z.to_nat i).

(** [m[i] = c] *)
Definition store (m : list ascii) (i : Z) (c : ascii) : list ascii :=
  <[Z.to_nat i := c]> m.

(** The characters of the C string held in [m]: those before its first
    [null]. *)
Fixpoint cstr (m : list ascii) : list ascii :=
  match m with
  | [] => []
  | c :: m' => if is_null c then [] else c :: cstr m'
  end.

(** [strlen(m)] *)
Definition strlen (m : list ascii) : Z := Z.of_nat (length (cstr m)).

(** [new char[n]]: a block of [n] characters whose values are whatever the
    allocator left there ([junk]). *)
Definition new_char (junk : nat -> ascii) (n : Z) : list ascii :=
  junk <$> seq 0 (Z.to_nat n).

(** No [null] among the characters of [l]. *)
Definition null_free (l : list ascii) : Prop := Forall (fun c => c <> null) l.

(** ** StrQueue.h, StrQueue.cpp *)

Module StrQueue.

Record StrQueue : Type := mkStrQueue {
  buf : list ascii;
  wrptr : Z;
  rdptr : Z;
  maxsize : Z
}.

(** [StrQueue(int nsize) { buf = new char[nsize+1]; maxsize = nsize;
    rdptr = wrptr = 0; }] *)
Definition ctor (junk : nat -> ascii) (nsize : Z) : StrQueue :=
  {| buf := new_char junk (nsize + 1); wrptr := 0; rdptr := 0;
     maxsize := nsize |}.

Definition isEmpty (q : StrQueue) : bool := wrptr q =? rdptr q.

Definition used (q : StrQueue) : Z :=
  if wrptr q >=? rdptr q then wrptr q - rdptr q
  else maxsize q + wrptr q - rdptr q.

Definition makeEmpty (q : StrQueue) : StrQueue :=
  {| buf := buf q; wrptr := 0; rdptr := 0; maxsize := maxsize q |}.

Definition available (q : StrQueue) : Z := maxsize q - used q - 1.

Definition size (q : StrQueue) : Z := maxsize q.

(** The body of [push]'s loop:
    [buf[wrptr++] = c; if (wrptr >= maxsize) wrptr = 0;] *)
Definition put (q : StrQueue) (c : ascii) : StrQueue :=
  let b := store (buf q) (wrptr q) c in
  let w := wrptr q + 1 in
  {| buf := b; wrptr := (if w >=? maxsize q then 0 else w);
     rdptr := rdptr q; maxsize := maxsize q |}.

(** [for (int i = 0; i < n; i++) { buf[wrptr++] = s[i]; ... }], with [k]
    the number of iterations left. *)
Fixpoint push_loop (k : nat) (i : Z) (s : list ascii) (q : StrQueue)
  : StrQueue :=
  match k with
  | O => q
  | S k' => push_loop k' (i + 1) s (put q (char_at s i))
  end.

(** [int push(char* s)]: the status and the queue afterwards. *)
Definition push (q : StrQueue) (s : list ascii) : Z * StrQueue :=
  let n := strlen s + 1 in
  if n >? available q then (0, q)
  else (1, push_loop (Z.to_nat n) 0 s q).

(** The first two statements of [pop]'s loop body:
    [char c = buf[rdptr++]; if (rdptr >= maxsize) rdptr = 0;] *)
Definition get (q : StrQueue) : ascii * StrQueue :=
  let c := char_at (buf q) (rdptr q) in
  let r := rdptr q + 1 in
  (c, {| buf := buf q; wrptr := wrptr q;
         rdptr := (if r >=? maxsize q then 0 else r);
         maxsize := maxsize q |}).

(** [for (int i = 0; i < (maxlen-1); i++) { ... }], with [k] the number of
    iterations the loop condition still allows ([maxlen - 1 - i]); each of
    the three [break]s returns at once. *)
Fixpoint pop_loop (k : nat) (i maxlen : Z) (q : StrQueue) (s : list ascii)
  : StrQueue * list ascii :=
  match k with
  | O => (q, s)
  | S k' =>
      let '(c, q1) := get q in
      let s1 := store s i c in
      if is_null c then (q1, s1)
      else if rdptr q1 =? wrptr q1 then (q1, store s1 (i + 1) null)
      else if i =? maxlen - 2 then (q1, store s1 (i + 1) null)
      else pop_loop k' (i + 1) maxlen q1 s1
  end.

(** [int pop(char* s, int maxlen)]: the status, the queue and the
    destination afterwards. *)
Definition pop (q : StrQueue) (s : list ascii) (maxlen : Z)
  : Z * StrQueue * list ascii :=
  if maxlen <? 1 then (0, q, s)
  else
    let s0 := store s 0 null in
    if isEmpty q then (0, q, s0)
    else
      let '(q', s') := pop_loop (Z.to_nat (maxlen - 1)) 0 maxlen q s0 in
      (1, q', s').

(** *** The queue as a sequence of bytes *)

(** A queue as the constructor and the two cursors' wrapping keep it. *)
Record wf (q : StrQueue) : Prop := mkWf {
  wf_size : 0 < maxsize q;
  wf_rd : 0 <= rdptr q < maxsize q;
  wf_wr : 0 <= wrptr q < maxsize q;
  wf_buf : Z.of_nat (length (buf q)) = maxsize q + 1
}.

(** The index in [buf] of the [i]-th byte after the read cursor. *)
Definition slot (q : StrQueue) (i : Z) : Z :=
  if rdptr q + i <? maxsize q then rdptr q + i
  else rdptr q + i - maxsize q.

(** The bytes between the read cursor and the write cursor, oldest first. *)
Definition contents (q : StrQueue) : list ascii :=
  (fun i => char_at (buf q) (slot q (Z.of_nat i)))
    <$> seq 0 (Z.to_nat (used q)).

(** A use of the queue, and a sequence of uses. *)
Inductive Op : Type :=
  | OpPush (s : list ascii)
  | OpPop (s : list ascii) (maxlen : Z).

Definition apply_op (q : StrQueue) (o : Op) : StrQueue :=
  match o with
  | OpPush s => snd (push q s)
  | OpPop s maxlen => snd (fst (pop q s maxlen))
  end.

Definition run_ops (ops : list Op) (q : StrQueue) : StrQueue :=
  fold_left apply_op ops q.

End StrQueue.

(** ** The C library functions the sources call *)

(** [strncpy(dst, src, n)]: the first [n] characters of the string [src],
    padded with [null]s up to [n] characters when the string is shorter;
    no terminator is written when it is not. *)
Definition strncpy (dst src : list ascii) (n : Z) : list ascii :=
  let k := Z.to_nat n in
  take k (cstr src ++ replicate k null) ++ drop k dst.

Definition isspace (c : ascii) : bool :=
  let n := nat_of_ascii c in
  Nat.eqb n 32 || (Nat.leb 9 n && Nat.leb n 13).

Definition isdigit (c : ascii) : bool :=
  let n := nat_of_ascii c in Nat.leb 48 n && Nat.leb n 57.

Fixpoint skip_spaces (l : list ascii) : list ascii :=
  match l with
  | c :: l' => if isspace c then skip_spaces l' else l
  | [] => []
  end.

Fixpoint digits_value (acc : Z) (l : list ascii) : Z :=
  match l with
  | c :: l' =>
      if isdigit c
      then digits_value (10 * acc + (Z.of_nat (nat_of_ascii c) - 48)) l'
      else acc
  | [] => acc
  end.

Definition INT_MAX : Z := 2147483647.
Definition INT_MIN : Z := -2147483648.

(** [atoi(p)]: white space, an optional sign, then decimal digits; anything
    else ends the number, and no digit at all gives 0.  A value outside
    [int] is given as the ESP32's C library gives it, the nearest bound
    (the C standard leaves it undefined). *)
Definition atoi (p : list ascii) : Z :=
  let l := skip_spaces (cstr p) in
  let v :=
    match l with
    | c :: l' =>
        if Ascii.eqb c "-" then - digits_value 0 l'
        else if Ascii.eqb c "+" then digits_value 0 l'
        else digits_value 0 l
    | [] => 0
    end in
  Z.max INT_MIN (Z.min INT_MAX v).

(** ** ValueToRead.h, ValueToRead.cpp *)

Module ValueToRead.

Definition BLESVR_ERR_DEVNOTFOUND : Z := 1.
Definition BLESVR_ERR_CONNECTFAIL : Z := 2.

Record ValueToRead : Type := mkValueToRead {
  valueTag : list ascii;            (* char valueTag[64] *)
  deviceId : list ascii;            (* char deviceId[40] *)
  serviceUuid : list ascii;         (* char serviceUuid[40] *)
  characteristicUuid : list ascii;  (* char characteristicUuid[40] *)
  deviceAddr : list ascii;          (* char deviceAddr[20] *)
  minutesBetweenReads : Z;
  connects : Z;
  errors : Z
}.

(** The constructor; [junk] is what the allocator left in the object's
    arrays, of which only the first character is set. *)
Definition ctor (junk : nat -> ascii) : ValueToRead :=
  {| valueTag := store (new_char junk 64) 0 null;
     deviceId := store (new_char junk 40) 0 null;
     serviceUuid := store (new_char junk 40) 0 null;
     characteristicUuid := store (new_char junk 40) 0 null;
     minutesBetweenReads := 60;
     deviceAddr := store (new_char junk 20) 0 null;
     connects := 0;
     errors := 0 |}.

Definition comma : ascii := ","%char.

(** The [while (!foundEos)] loop of [set], entered with [foundEos] false
    and [rest] the characters from [s[chloc]] on: the comma's place (or
    -1), [chloc] and [foundEos] at its exit. *)
Fixpoint find_comma (rest : list ascii) (chloc : Z) : Z * (Z * bool) :=
  match rest with
  | [] => (-1, (chloc + 1, true))
  | c :: rest' =>
      if is_null c then (-1, (chloc + 1, true))
      else if Ascii.eqb c comma then (chloc, (chloc + 1, false))
      else find_comma rest' (chloc + 1)
  end.

(** One round of the [for] loop that fills [commaLocs]. *)
Definition next_comma (s : list ascii) (st : Z * bool) : Z * (Z * bool) :=
  let '(chloc, foundEos) := st in
  if foundEos then (-1, st)
  else find_comma (drop (Z.to_nat chloc) s) chloc.

(** [commaLocs[0..3]] after the scan. *)
Definition commaLocs (s : list ascii) : Z * Z * Z * Z :=
  let '(c0, st0) := next_comma s (0, false) in
  let '(c1, st1) := next_comma s st0 in
  let '(c2, st2) := next_comma s st1 in
  let '(c3, _) := next_comma s st2 in
  (c0, c1, c2, c3).

(** [&s[i]] *)
Definition from (s : list ascii) (i : Z) : list ascii := drop (Z.to_nat i) s.

(** What [set] hands to [atoi]: [p = &s[c0loc+1]] once [s[c0loc]] and
    [s[c1loc]] have been overwritten with ['\0']. *)
Definition interval_text (s : list ascii) : list ascii :=
  let '(c0, c1, _, _) := commaLocs s in
  from (store (store s c0 null) c1 null) (c0 + 1).

Definition msg_OK : string := "OK".
Definition msg_comma1 : string := "format error, 1st comma not found".
Definition msg_comma2 : string := "format error, 2nd comma not found".
Definition msg_comma3 : string := "format error, 3rd comma not found".
Definition msg_comma4 : string := "format error, 4th comma not found".

(** Assignments to one member of the object. *)
Definition with_valueTag (v : ValueToRead) (x : list ascii) : ValueToRead :=
  {| valueTag := x; deviceId := deviceId v; serviceUuid := serviceUuid v;
     characteristicUuid := characteristicUuid v; deviceAddr := deviceAddr v;
     minutesBetweenReads := minutesBetweenReads v; connects := connects v;
     errors := errors v |}.

Definition with_deviceId (v : ValueToRead) (x : list ascii) : ValueToRead :=
  {| valueTag := valueTag v; deviceId := x; serviceUuid := serviceUuid v;
     characteristicUuid := characteristicUuid v; deviceAddr := deviceAddr v;
     minutesBetweenReads := minutesBetweenReads v; connects := connects v;
     errors := errors v |}.

Definition with_serviceUuid (v : ValueToRead) (x : list ascii)
  : ValueToRead :=
  {| valueTag := valueTag v; deviceId := deviceId v; serviceUuid := x;
     characteristicUuid := characteristicUuid v; deviceAddr := deviceAddr v;
     minutesBetweenReads := minutesBetweenReads v; connects := connects v;
     errors := errors v |}.

Definition with_characteristicUuid (v : ValueToRead) (x : list ascii)
  : ValueToRead :=
  {| valueTag := valueTag v; deviceId := deviceId v;
     serviceUuid := serviceUuid v; characteristicUuid := x;
     deviceAddr := deviceAddr v;
     minutesBetweenReads := minutesBetweenReads v; connects := connects v;
     errors := errors v |}.

Definition with_deviceAddr (v : ValueToRead) (x : list ascii) : ValueToRead :=
  {| valueTag := valueTag v; deviceId := deviceId v;
     serviceUuid := serviceUuid v;
     characteristicUuid := characteristicUuid v; deviceAddr := x;
     minutesBetweenReads := minutesBetweenReads v; connects := connects v;
     errors := errors v |}.

Definition with_minutesBetweenReads (v : ValueToRead) (x : Z) : ValueToRead :=
  {| valueTag := valueTag v; deviceId := deviceId v;
     serviceUuid := serviceUuid v;
     characteristicUuid := characteristicUuid v; deviceAddr := deviceAddr v;
     minutesBetweenReads := x; connects := connects v; errors := errors v |}.

Definition with_connects (v : ValueToRead) (x : Z) : ValueToRead :=
  {| valueTag := valueTag v; deviceId := deviceId v;
     serviceUuid := serviceUuid v;
     characteristicUuid := characteristicUuid v; deviceAddr := deviceAddr v;
     minutesBetweenReads := minutesBetweenReads v; connects := x;
     errors := errors v |}.

Definition with_errors (v : ValueToRead) (x : Z) : ValueToRead :=
  {| valueTag := valueTag v; deviceId := deviceId v;
     serviceUuid := serviceUuid v;
     characteristicUuid := characteristicUuid v; deviceAddr := deviceAddr v;
     minutesBetweenReads := minutesBetweenReads v; connects := connects v;
     errors := x |}.

(** [char* set(char* s)]: the message returned and the object afterwards.
    [s] is the caller's scratch line; the commas found are overwritten in
    it as the fields are taken, and every [p] points into it. *)
Definition set (v : ValueToRead) (s : list ascii) : string * ValueToRead :=
  let '(c0loc, c1loc, c2loc, c3loc) := commaLocs s in
  if c0loc <? 0 then (msg_comma1, v)
  else
    let s := store s c0loc null in
    let v := with_valueTag v (strncpy (valueTag v) (from s 0) 63) in
    if c1loc <? 0 then (msg_comma2, v)
    else
      let s := store s c1loc null in
      let m := atoi (from s (c0loc + 1)) in
      let m := if m <? 1 then 1 else m in
      let m := if m >? 1440 then 1440 else m in
      let v := with_minutesBetweenReads v m in
      if c2loc <? 0 then (msg_comma3, v)
      else
        let s := store s c2loc null in
        let v := with_deviceId v (strncpy (deviceId v) (from s (c1loc + 1)) 37) in
        if c3loc <? 0 then (msg_comma4, v)
        else
          let s := store s c3loc null in
          let v :=
            with_serviceUuid v
              (strncpy (serviceUuid v) (from s (c2loc + 1)) 37) in
          let v :=
            with_characteristicUuid v
              (strncpy (characteristicUuid v) (from s (c3loc + 1)) 37) in
          (msg_OK, v).

(** The four bytes of a 32-bit [long] or [int], lowest first, as the
    ESP32 keeps them. *)
Definition le32 (x : Z) : list ascii :=
  (fun k => ascii_of_nat (Z.to_nat ((x mod 2 ^ 32) / 2 ^ (8 * k) mod 256)))
    <$> [0; 1; 2; 3].

(** The object's memory from [valueTag] on, which is where a string
    function given [valueTag] reads: the five arrays and the three
    integers lie one after the other (64 + 40 + 40 + 40 + 20 characters,
    so that the integers need no padding), and a [valueTag] that holds no
    ['\0'] does not end the string, which runs on into [deviceId] and
    what follows.  [tmpbuf], the last member, is written by [toString]
    alone and is left out: a string reaches it only when none of the
    twelve bytes of the integers is 0. *)
Definition from_valueTag (v : ValueToRead) : list ascii :=
  valueTag v ++ deviceId v ++ serviceUuid v ++ characteristicUuid v
    ++ deviceAddr v ++ le32 (minutesBetweenReads v) ++ le32 (connects v)
    ++ le32 (errors v).

End ValueToRead.

(** ** The sketch: [setup], the scan callback, [readValue] and [loop]

    The LED, the serial log and the watchdog are left out; the radio, the
    clock, the WiFi link and the hub are the outside world, whose answers
    during one pass of [loop]'s [for (;;)] are gathered in an [Env]. *)

Module Bridge.

Definition QUEUESIZE : Z := 4096.
Definition MAXVALUES2READ : Z := 100.

(** An [unsigned long] (32 bits on the ESP32). *)
Definition ulong (x : Z) : Z := x mod 2 ^ 32.

#[local] Instance ascii_eq_decision : EqDecision ascii := ascii_dec.

(** Equality of two strings, as [operator==] of a C string and a
    [std::string] decides it. *)
Definition str_eqb (a b : list ascii) : bool := bool_decide (a = b).

Record State : Type := mkState {
  measuredData : StrQueue.StrQueue;
  vals2read : list ValueToRead.ValueToRead;  (* vals2read[0..nValues-1] *)
  lastMin : Z;
  minuteCounter : Z;                          (* unsigned long *)
  timeForScan : bool;
  buf : list ascii;                           (* char buf[384] *)
  buf1 : list ascii                           (* char buf1[384] *)
}.

(** What the outside world answers during one pass of the loop. *)
Record Env : Type := mkEnv {
  currentMin : Z;                      (* rtc.getMinute() *)
  ble : nat -> option (list ascii);    (* entry i: the value read, or None
                                          when the connection fails *)
  ttag : nat -> list ascii;            (* rtc.getTime(...) at entry i *)
  advertised : list (list ascii * list ascii);
                                       (* name and address of each
                                          advertiser a scan reports *)
  wifiDown : option Z;                 (* Some m: the link was down, and m
                                          is rtc.getMinute() afterwards *)
  hub : list ascii -> bool             (* forwardValueToIotHub(msg) *)
}.

(** What one pass of the loop does to the outside world. *)
Inductive Event : Type :=
  | EvRead (i : nat) (connected : bool) (record : list ascii) (sts : Z)
  | EvSend (msg : list ascii) (ok : bool).

(** [MyAdvertisedDeviceCallbacks::onResult] *)
Definition onResult (devName devAddr : list ascii)
    (vals : list ValueToRead.ValueToRead) : list ValueToRead.ValueToRead :=
  (fun p =>
     if str_eqb (cstr (ValueToRead.deviceId p)) devName
        || str_eqb (cstr (ValueToRead.deviceId p)) devAddr
     then ValueToRead.with_deviceAddr p
            (strncpy (ValueToRead.deviceAddr p) devAddr 18)
     else p) <$> vals.

(** [pBLEScan->start(scanTime, false)]: the callback runs once for each
    advertiser. *)
Definition scan (found : list (list ascii * list ascii))
    (vals : list ValueToRead.ValueToRead) : list ValueToRead.ValueToRead :=
  fold_left (fun vs d => onResult (fst d) (snd d) vs) found vals.

Definition UNKNOWN : list ascii := list_ascii_of_string "*UNKNOWN*".

(** [readValue(pClient, v2rd, buf, maxlen)], given how the connection
    went. *)
Definition readValue (r : option (list ascii))
    (v2rd : ValueToRead.ValueToRead) (buf : list ascii) (maxlen : Z)
  : ValueToRead.ValueToRead * list ascii :=
  match r with
  | Some val =>
      (ValueToRead.with_connects v2rd (ValueToRead.connects v2rd + 1),
       strncpy buf val (maxlen - 1))
  | None =>
      (ValueToRead.with_errors v2rd
         (Z.lor (ValueToRead.errors v2rd) ValueToRead.BLESVR_ERR_CONNECTFAIL),
       strncpy buf UNKNOWN (maxlen - 1))
  end.

(** [sprintf(buf, "%s,%s,%s", a, b, buf)], as the minute loop calls it:
    [buf] is the destination and the third string too.  The output is
    written into [buf] from its first character on as the format is gone
    through, so that the time stamp, the tag and their commas stand in
    [buf] when the third [%s] is reached; the string that [buf] holds
    then (what has just been written, and what is left behind it of the
    text that [readValue] put there) is measured and moved behind them,
    and a ['\0'] ends the output.  When that string is longer than what
    has been written, the move is one between overlapping blocks, which
    the C standard leaves undefined; the model moves the characters as
    [memmove] does, and the theorems that give the text of the record
    ask for a value that is not longer. *)
Definition sprintf3 (buf a b : list ascii) : list ascii :=
  let head := cstr a ++ ValueToRead.comma :: cstr b ++ [ValueToRead.comma] in
  let third := cstr (head ++ drop (length head) buf) in
  let out := head ++ third ++ [null] in
  out ++ drop (length out) buf.

(** The test of the minute loop: [(mod == 0) && (p->deviceAddr[0] != '\0')]
    with [mod = minuteCounter % p->minutesBetweenReads]. *)
Definition due (mc : Z) (p : ValueToRead.ValueToRead) : bool :=
  let md := mc mod ulong (ValueToRead.minutesBetweenReads p) in
  (md =? 0) && negb (is_null (char_at (ValueToRead.deviceAddr p) 0)).

(** The body of the minute loop for entry [i]. *)
Definition read_if_due (e : Env) (mc : Z) (i : nat)
    (p : ValueToRead.ValueToRead) (q : StrQueue.StrQueue) (buf : list ascii)
  : ValueToRead.ValueToRead * StrQueue.StrQueue * list ascii * list Event :=
  if due mc p then
    let '(p1, buf) := readValue (ble e i) p buf 256 in
    let buf := sprintf3 buf (ttag e i) (ValueToRead.from_valueTag p1) in
    let '(sts, q1) := StrQueue.push q buf in
    (p1, q1, buf, [EvRead i (bool_decide (is_Some (ble e i))) (cstr buf) sts])
  else (p, q, buf, []).

(** [for (int i = 0; i < nValues; i++) ...], from entry [i] on. *)
Fixpoint read_all (e : Env) (mc : Z) (i : nat)
    (vals : list ValueToRead.ValueToRead) (q : StrQueue.StrQueue)
    (buf : list ascii)
  : list ValueToRead.ValueToRead * StrQueue.StrQueue * list ascii
    * list Event :=
  match vals with
  | [] => ([], q, buf, [])
  | p :: rest =>
      let '(p1, q1, buf1, ev1) := read_if_due e mc i p q buf in
      let '(rest1, q2, buf2, ev2) := read_all e mc (S i) rest q1 buf1 in
      (p1 :: rest1, q2, buf2, ev1 ++ ev2)
  end.

(** The one-minute tasks, run when [currentMin != lastMin]. *)
Definition minute_tasks (e : Env) (st : State) : State * list Event :=
  let mc := ulong (minuteCounter st + 1) in
  let tfs := if mc mod 60 =? 59 then true else timeForScan st in
  let '(vals, q, b, evs) :=
    read_all e mc 0 (vals2read st) (measuredData st) (buf st) in
  ({| measuredData := q; vals2read := vals; lastMin := currentMin e;
      minuteCounter := mc; timeForScan := tfs; buf := b;
      buf1 := buf1 st |}, evs).

(** The last task of the loop: push any queued data to the IoT hub. *)
Definition forwarder (hub : list ascii -> bool) (q : StrQueue.StrQueue)
    (buf1 : list ascii) : StrQueue.StrQueue * list ascii * list Event :=
  if negb (StrQueue.isEmpty q) then
    let buf1 := store buf1 0 null in
    let '(sts, q1, buf1) := StrQueue.pop q buf1 384 in
    if negb (sts =? 0) && (strlen buf1 >? 0) then
      if hub (cstr buf1) then (q1, buf1, [EvSend (cstr buf1) true])
      else
        let '(_, q2) := StrQueue.push q1 buf1 in
        (q2, buf1, [EvSend (cstr buf1) false])
    else (q1, buf1, [])
  else (q, buf1, []).

(** One pass of [loop]'s [for (;;)]. *)
Definition loop_pass (e : Env) (st : State) : State * list Event :=
  let '(st, evs) :=
    if negb (currentMin e =? lastMin st) then minute_tasks e st
    else (st, []) in
  let st :=
    if timeForScan st then
      {| measuredData := measuredData st;
         vals2read := scan (advertised e) (vals2read st);
         lastMin := lastMin st; minuteCounter := minuteCounter st;
         timeForScan := false; buf := buf st; buf1 := buf1 st |}
    else st in
  let st :=
    match wifiDown e with
    | Some m =>
        {| measuredData := measuredData st; vals2read := vals2read st;
           lastMin := m; minuteCounter := minuteCounter st;
           timeForScan := timeForScan st; buf := buf st; buf1 := buf1 st |}
    | None => st
    end in
  let '(q, b1, evs') := forwarder (hub e) (measuredData st) (buf1 st) in
  ({| measuredData := q; vals2read := vals2read st; lastMin := lastMin st;
      minuteCounter := minuteCounter st; timeForScan := timeForScan st;
      buf := buf st; buf1 := b1 |}, evs ++ evs').

(** The [for (int i = 1; i < MAXVALUES2READ; i++)] loop of [setup], from
    [i] on with [k] rounds left; [readKey i] is what [readKey] leaves in
    [tmpbuf] for the key [VALUEi=], and [junk i] what the allocator left
    in the entry made for it. *)
Fixpoint load_values (junk : Z -> nat -> ascii) (readKey : Z -> list ascii)
    (k : nat) (i : Z) (vals : list ValueToRead.ValueToRead)
  : list ValueToRead.ValueToRead :=
  match k with
  | O => vals
  | S k' =>
      let tmpbuf := readKey i in
      let vals :=
        if negb (is_null (char_at tmpbuf 0))
        then vals ++ [snd (ValueToRead.set (ValueToRead.ctor (junk i)) tmpbuf)]
        else vals in
      load_values junk readKey k' (i + 1) vals
  end.

(** The state in which [setup] leaves the program (the queue is built
    before it, as a global). *)
Definition setup (qjunk : nat -> ascii) (junk : Z -> nat -> ascii)
    (readKey : Z -> list ascii) (rtcMinute : Z) : State :=
  {| measuredData := StrQueue.ctor qjunk QUEUESIZE;
     vals2read :=
       load_values junk readKey (Z.to_nat (MAXVALUES2READ - 1)) 1 [];
     lastMin := rtcMinute;
     minuteCounter := ulong (-1);
     timeForScan := true;
     buf := replicate 384 null;
     buf1 := replicate 384 null |}.

(** The states the program passes through, one pass of the loop at a
    time. *)
Inductive reachable : State -> Prop :=
  | reach_setup qjunk junk readKey rtcMinute :
      reachable (setup qjunk junk readKey rtcMinute)
  | reach_pass e st : reachable st -> reachable (fst (loop_pass e st)).

(** The forwarder alone, run once for each answer of the hub in [hubs]:
    the queue, [buf1] and what was sent. *)
Fixpoint forward_all (hubs : list (list ascii -> bool))
    (q : StrQueue.StrQueue) (buf1 : list ascii)
  : StrQueue.StrQueue * list ascii * list Event :=
  match hubs with
  | [] => (q, buf1, [])
  | h :: hubs' =>
      let '(q1, b1, ev1) := forwarder h q buf1 in
      let '(q2, b2, ev2) := forward_all hubs' q1 b1 in
      (q2, b2, ev1 ++ ev2)
  end.

(** The messages the hub accepted, in order. *)
Definition delivered (evs : list Event) : list (list ascii) :=
  omap (fun ev => match ev with
                  | EvSend msg true => Some msg
                  | _ => None
                  end) evs.

(** The entries on which a read was attempted, in order. *)
Definition reads (evs : list Event) : list nat :=
  omap (fun ev => match ev with
                  | EvRead i _ _ _ => Some i
                  | _ => None
                  end) evs.

End Bridge.

(** ** More of the sketch: the configuration file, the WiFi link, the hub *)

(** [strncmp(a, b, n)]: the difference of the first characters that differ
    among the first [n], and 0 when the strings end, or [n] characters
    have been compared, before any does. *)
Fixpoint strncmp (a b : list ascii) (n : nat) : Z :=
  match n with
  | O => 0
  | S n' =>
      let ca := char_at a 0 in
      let cb := char_at b 0 in
      if negb (Ascii.eqb ca cb)
      then Z.of_nat (nat_of_ascii ca) - Z.of_nat (nat_of_ascii cb)
      else if is_null ca then 0
      else strncmp (tail a) (tail b) n'
  end.

Module Config.

Definition CR : ascii := ascii_of_nat 13.
Definition LF : ascii := ascii_of_nat 10.

(** [c < 0] for the [char c] that [readln] has read: never where [char]
    is unsigned, for the codes from 128 on where it is signed. *)
Definition negative (signed_char : bool) (c : ascii) : bool :=
  signed_char && Nat.leb 128 (nat_of_ascii c).

(** The [while (len<(maxlen-1))] loop of [readln]; [finp] is what is left
    to read of the file.  It gives [eof], the rest of the file, [buf] and
    [len]. *)
Fixpoint readln_loop (signed_char : bool) (finp buf : list ascii)
    (len maxlen : Z) : bool * list ascii * list ascii * Z :=
  match finp with
  | [] =>
      if len <? maxlen - 1 then (true, [], buf, len)
      else (false, [], buf, len)
  | c :: rest =>
      if len <? maxlen - 1 then
        if negative signed_char c then (true, rest, buf, len)
        else if Ascii.eqb c CR
        then readln_loop signed_char rest buf len maxlen
        else if Ascii.eqb c LF then (false, rest, buf, len)
        else readln_loop signed_char rest (store buf len c) (len + 1) maxlen
      else (false, finp, buf, len)
  end.

(** [int readln(File finp, uint8_t* buf, int maxlen)]: what it returns,
    the rest of the file and [buf].  (A [File] is a handle: the copy that
    [readln] receives reads on from where the caller's stands, and leaves
    the caller's where it stops.) *)
Definition readln (signed_char : bool) (finp buf : list ascii) (maxlen : Z)
  : bool * list ascii * list ascii :=
  let buf := store buf 0 null in
  let '(eof, finp, buf, len) := readln_loop signed_char finp buf 0 maxlen in
  let buf := store buf len null in
  (negb eof, finp, buf).

(** The [while (readln(finp, buf, 127))] loop of [readKey], with [fuel]
    rounds allowed; it gives [outbuf]. *)
Fixpoint readKey_loop (fuel : nat) (signed_char : bool)
    (finp buf key outbuf : list ascii) (n maxlen : Z) : list ascii :=
  match fuel with
  | O => outbuf
  | S fuel' =>
      let '(more, finp, buf) := readln signed_char finp buf 127 in
      if more then
        if strncmp buf key (Z.to_nat n) =? 0
        then strncpy outbuf (drop (Z.to_nat n) buf) maxlen
        else readKey_loop fuel' signed_char finp buf key outbuf n maxlen
      else outbuf
  end.

(** The same loop, with the runs that leave it told apart from those
    that the rounds allowed do not end: [Some outbuf] when the loop is
    left within [fuel] rounds, by its [break] or by [readln] returning
    false, and [None] when each of the [fuel] rounds has gone on to
    another. *)
Fixpoint readKey_ends (fuel : nat) (signed_char : bool)
    (finp buf key outbuf : list ascii) (n maxlen : Z)
  : option (list ascii) :=
  match fuel with
  | O => None
  | S fuel' =>
      let '(more, finp, buf) := readln signed_char finp buf 127 in
      if more then
        if strncmp buf key (Z.to_nat n) =? 0
        then Some (strncpy outbuf (drop (Z.to_nat n) buf) maxlen)
        else readKey_ends fuel' signed_char finp buf key outbuf n maxlen
      else Some outbuf
  end.

(** [void readKey(char* configFn, char* key, char* outbuf, int maxlen)]:
    [outbuf] afterwards.  [file] is what [SPIFFS.open] finds under
    [configFn], if anything, and [junk] what the stack holds where the
    line buffer is.  Each round that goes on to the next reads at least
    one character, so that one round more than the file has characters is
    never used up. *)
Definition readKey (signed_char : bool) (file : option (list ascii))
    (junk : nat -> ascii) (key outbuf : list ascii) (maxlen : Z)
  : list ascii :=
  let outbuf := store outbuf 0 null in
  match file with
  | None => outbuf
  | Some finp =>
      readKey_loop (S (length finp)) signed_char finp (new_char junk 128)
        key outbuf (strlen key) maxlen
  end.

End Config.

Module Wifi.

Definition maxWaitTimeToConnect : Z := 50.

(** The [while (WiFi.status() != WL_CONNECTED)] loop of [connectToWiFi]:
    [status k] tells whether the [k]-th call of [WiFi.status()] finds the
    link up, [poll] is the number of calls made so far.  It gives
    [wifiWaitCounter] and the number of calls made. *)
Fixpoint wait_loop (fuel : nat) (status : nat -> bool) (poll : nat)
    (wifiWaitCounter : Z) : Z * nat :=
  match fuel with
  | O => (wifiWaitCounter, poll)
  | S fuel' =>
      if status poll then (wifiWaitCounter, S poll)
      else
        let wifiWaitCounter := wifiWaitCounter + 1 in
        if wifiWaitCounter >=? maxWaitTimeToConnect
        then (wifiWaitCounter, S poll)
        else wait_loop fuel' status (S poll) wifiWaitCounter
  end.

(** [int connectToWiFi()]: [wifiIsConnected], [wifiWaitCounter] and the
    number of times the link was looked at.  The counter goes up by one
    in each round and ends the loop at 50, so that 50 rounds are never
    used up. *)
Definition connectToWiFi (status : nat -> bool) : bool * Z * nat :=
  let '(wifiWaitCounter, polls) :=
    wait_loop (Z.to_nat maxWaitTimeToConnect) status 0 0 in
  if wifiWaitCounter >=? maxWaitTimeToConnect
  then (false, wifiWaitCounter, polls)
  else (true, wifiWaitCounter, polls).

End Wifi.

Module Hub.








End Hub.

(** ** A small run, used to try the definitions on *)

Module Demo.

Definition L (s : string) : list ascii := list_ascii_of_string s.

(** A configuration with one value, read every minute. *)
Definition readKey (i : Z) : list ascii :=
  if i =? 1 then L "T,1,dev,svc,chr" else [].

Definition start : Bridge.State :=
  Bridge.setup (fun _ => "x"%char) (fun _ _ => "x"%char) readKey 0.

(** A first pass within the minute in which [setup] ended: the scan finds
    the device. *)
Definition pass_scan : Bridge.Env :=
  {| Bridge.currentMin := 0;
     Bridge.ble := fun _ => None;
     Bridge.ttag := fun _ => L "2024/01/01,00:00:30";
     Bridge.advertised := [(L "dev", L "aa:bb:cc:dd:ee:ff")];
     Bridge.wifiDown := None;
     Bridge.hub := fun _ => true |}.

Definition resolved : Bridge.State := fst (Bridge.loop_pass pass_scan start).

(** The entry of the table once resolved. *)
Definition entry : ValueToRead.ValueToRead :=
  ValueToRead.with_deviceAddr
    (snd (ValueToRead.set (ValueToRead.ctor (fun _ => "x"%char))
            (readKey 1)))
    (strncpy (store (new_char (fun _ => "x"%char) 20) 0 null)
       (L "aa:bb:cc:dd:ee:ff") 18).

(** The pass that sees the minute change, with the device out of reach. *)
Definition pass_tick : Bridge.Env :=
  {| Bridge.currentMin := 1;
     Bridge.ble := fun _ => None;
     Bridge.ttag := fun _ => L "2024/01/01,00:01:00";
     Bridge.advertised := [];
     Bridge.wifiDown := None;
     Bridge.hub := fun _ => false |}.

End Demo.

(** ** Notions used to state the facts *)

(** The block [s] once the characters [w] have been written into it from
    index [i] on. *)
Definition blit (s : list ascii) (i : nat) (w : list ascii) : list ascii :=
  take i s ++ w ++ drop (i + length w) s.

(** One field of a configuration line: neither a comma nor a [null] in
    it. *)
Definition field (x : list ascii) : Prop :=
  Forall (fun c => c <> null /\ c <> ValueToRead.comma) x.

(** What holds of every entry of the table throughout a run: its interval
    is within 1..1440, and its error word holds nothing but, at most, the
    connect-failed bit. *)
Definition entry_ok (p : ValueToRead.ValueToRead) : Prop :=
  1 <= ValueToRead.minutesBetweenReads p <= 1440
  /\ (ValueToRead.errors p = 0
      \/ ValueToRead.errors p = ValueToRead.BLESVR_ERR_CONNECTFAIL).

(** The bytes of a queue that holds the records [rs], oldest first. *)
Definition records (rs : list (list ascii)) : list ascii :=
  concat ((fun R => R ++ [null]) <$> rs).

(** The records [rs] pushed one after the other. *)
Definition push_all (rs : list (list ascii)) (q : StrQueue.StrQueue)
  : StrQueue.StrQueue :=
  fold_left (fun q R => snd (StrQueue.push q R)) rs q.

(** [n] pops in a row into the destination [s]: the strings they leave
    there, and the queue afterwards. *)
Fixpoint pop_n (n : nat) (q : StrQueue.StrQueue) (s : list ascii)
    (maxlen : Z) : list (list ascii) * StrQueue.StrQueue :=
  match n with
  | O => ([], q)
  | S n' =>
      let '(_, q1, s1) := StrQueue.pop q s maxlen in
      let '(out, q2) := pop_n n' q1 s1 maxlen in
      (cstr s1 :: out, q2)
  end.

(** The number of commas among the characters [l], and in the string that
    [s] holds. *)
Definition commas_in (l : list ascii) : nat :=
  length (filter (fun c => Ascii.eqb c ValueToRead.comma = true) l).

Definition count_commas (s : list ascii) : nat := commas_in (cstr s).

(** What a pass of the loop may do to an entry besides resolving its
    address: count one more connection, or set the connect-failed bit. *)
Definition entry_step (p p' : ValueToRead.ValueToRead) : Prop :=
  ValueToRead.valueTag p' = ValueToRead.valueTag p
  /\ ValueToRead.deviceId p' = ValueToRead.deviceId p
  /\ ValueToRead.serviceUuid p' = ValueToRead.serviceUuid p
  /\ ValueToRead.characteristicUuid p' = ValueToRead.characteristicUuid p
  /\ ValueToRead.minutesBetweenReads p' = ValueToRead.minutesBetweenReads p
  /\ ValueToRead.connects p <= ValueToRead.connects p'
     <= ValueToRead.connects p + 1
  /\ (ValueToRead.errors p' = ValueToRead.errors p
      \/ ValueToRead.errors p'
         = Z.lor (ValueToRead.errors p) ValueToRead.BLESVR_ERR_CONNECTFAIL).

(** What a scan may do to an entry: nothing but resolve its address. *)
Definition address_step (p p' : ValueToRead.ValueToRead) : Prop :=
  entry_step p p'
  /\ ValueToRead.connects p' = ValueToRead.connects p
  /\ ValueToRead.errors p' = ValueToRead.errors p.

(** The forwarder seen on the list of the queued records: one run for
    each answer of the hub in [hubs], each run offering the oldest record
    and moving it to the back when it is refused. *)
Fixpoint rotate (hubs : list (list ascii -> bool)) (rs : list (list ascii))
  : list (list ascii) * list Bridge.Event :=
  match hubs, rs with
  | h :: hubs', R :: rest =>
      let '(rs', evs) := rotate hubs' (if h R then rest else rest ++ [R]) in
      (rs', Bridge.EvSend R (h R) :: evs)
  | _, _ => (rs, [])
  end.

(** A character of a text file that [readln] takes for what it is: not a
    line feed, not ['\0'], and not one that a signed [char] makes
    negative. *)
Definition text_char (signed_char : bool) (c : ascii) : Prop :=
  c <> Config.LF /\ c <> null /\ Config.negative signed_char c = false.

(** A line without its carriage returns. *)
Definition text_of (line : list ascii) : list ascii :=
  List.filter (fun c => negb (Ascii.eqb c Config.CR)) line.

(** The file made of the lines [ls], each ended by a line feed. *)
Definition lines (ls : list (list ascii)) : list ascii :=
  concat ((fun l => l ++ [Config.LF]) <$> ls).

(** A line of ordinary characters that the 128 characters of [readKey]'s
    buffer hold whole: at most 125 characters beside its carriage
    returns. *)
Definition plain_line (signed_char : bool) (l : list ascii) : Prop :=
  Forall (text_char signed_char) l /\ Z.of_nat (length (text_of l)) < 126.

(** * Facts *)

(** ** Memory blocks and C strings *)

Lemma is_null_true (c : ascii) : is_null c = true <-> c = null.
Proof. unfold is_null. apply Ascii.eqb_eq. Qed.

Lemma is_null_false (c : ascii) : is_null c = false <-> c <> null.
Proof. unfold is_null. apply Ascii.eqb_neq. Qed.

Lemma char_at_store_eq (m : list ascii) (i : Z) (c : ascii) :
  0 <= i < Z.of_nat (length m) -> char_at (store m i c) i = c.
Proof.
  intros Hi. unfold char_at, store.
  rewrite list_lookup_insert_eq by lia. reflexivity.
Qed.

Lemma char_at_store_ne (m : list ascii) (i j : Z) (c : ascii) :
  0 <= i -> 0 <= j -> i <> j -> char_at (store m i c) j = char_at m j.
Proof.
  intros Hi Hj Hne. unfold char_at, store.
  rewrite list_lookup_insert_ne by lia. reflexivity.
Qed.

Lemma length_store (m : list ascii) (i : Z) (c : ascii) :
  length (store m i c) = length m.
Proof. unfold store. apply length_insert. Qed.

Lemma cstr_null_free (m : list ascii) : null_free (cstr m).
Proof.
  unfold null_free. induction m as [|c m IH]; simpl; [constructor|].
  destruct (is_null c) eqn:E; [constructor|].
  constructor; [now apply is_null_false|exact IH].
Qed.

Lemma cstr_id (l : list ascii) : null_free l -> cstr l = l.
Proof.
  unfold null_free. induction 1 as [|c l Hc _ IH]; simpl; [reflexivity|].
  apply is_null_false in Hc. rewrite Hc, IH. reflexivity.
Qed.

Lemma cstr_app_null (l rest : list ascii) :
  null_free l -> cstr (l ++ null :: rest) = l.
Proof.
  unfold null_free. induction 1 as [|c l Hc _ IH]; simpl; [reflexivity|].
  apply is_null_false in Hc. rewrite Hc, IH. reflexivity.
Qed.

Lemma strlen_nonneg (m : list ascii) : 0 <= strlen m.
Proof. unfold strlen. lia. Qed.

(** Reading a string character by character: its characters, then the
    terminator. *)
Lemma char_at_cstr (m : list ascii) (i : nat) :
  (i <= length (cstr m))%nat ->
  char_at m (Z.of_nat i) = default null (cstr m !! i).
Proof.
  unfold char_at. rewrite Nat2Z.id. revert i.
  induction m as [|c m IH]; intros i Hi; simpl in *.
  - now destruct i.
  - destruct (is_null c) eqn:E.
    + apply is_null_true in E. subst c. simpl in Hi.
      assert (i = 0%nat) as -> by lia. reflexivity.
    + destruct i as [|i]; [reflexivity|]. simpl in *. apply IH. lia.
Qed.

Lemma store_blit (s : list ascii) (i : nat) (c : ascii) :
  (i < length s)%nat -> store s (Z.of_nat i) c = blit s i [c].
Proof.
  intros Hi. unfold store, blit. rewrite Nat2Z.id. simpl.
  rewrite insert_take_drop by exact Hi.
  replace (i + 1)%nat with (S i) by lia. reflexivity.
Qed.

Lemma blit_store_cons (s : list ascii) (i : nat) (c : ascii)
    (w : list ascii) :
  (i < length s)%nat ->
  blit (store s (Z.of_nat i) c) (S i) w = blit s i (c :: w).
Proof.
  intros Hi. unfold store, blit. rewrite Nat2Z.id.
  rewrite drop_insert_lt by lia.
  erewrite take_S_r by (apply list_lookup_insert_eq; lia).
  rewrite take_insert_ge by lia.
  rewrite <- app_assoc. simpl.
  replace (i + S (length w))%nat with (S (i + length w)) by lia.
  reflexivity.
Qed.

Lemma length_blit (s : list ascii) (i : nat) (w : list ascii) :
  (i + length w <= length s)%nat -> length (blit s i w) = length s.
Proof.
  intros H. unfold blit. rewrite !length_app, length_take, length_drop. lia.
Qed.

Lemma cstr_idem (m : list ascii) : cstr (cstr m) = cstr m.
Proof. apply cstr_id, cstr_null_free. Qed.

Lemma char_at_cstr_cstr (m : list ascii) (i : nat) :
  (i <= length (cstr m))%nat ->
  char_at (cstr m) (Z.of_nat i) = char_at m (Z.of_nat i).
Proof.
  intros Hi. rewrite (char_at_cstr m i Hi).
  rewrite char_at_cstr by (rewrite cstr_idem; exact Hi).
  now rewrite cstr_idem.
Qed.

(** [strncpy] of a string shorter than [n] leaves that string. *)
Lemma cstr_strncpy (dst src : list ascii) (n : Z) :
  Z.of_nat (length (cstr src)) < n ->
  cstr (strncpy dst src n) = cstr src.
Proof.
  intros Hn. unfold strncpy.
  rewrite take_app_ge by lia. rewrite take_replicate.
  remember (Z.to_nat n - length (cstr src))%nat as d eqn:Hd.
  destruct d as [|d]; [lia|].
  replace (S d `min` Z.to_nat n)%nat with (S d) by lia.
  cbn [replicate]. rewrite <- app_assoc. cbn [app].
  apply cstr_app_null, cstr_null_free.
Qed.

(** ** The ring buffer *)

Module QueueFacts.
Import StrQueue.

(** Case analysis on every integer comparison of the goal, innermost
    first. *)
Ltac no_if t :=
  lazymatch t with
  | context [if _ then _ else _] => fail
  | _ => idtac
  end.

Ltac zcases :=
  repeat match goal with
  | |- context [?a >=? ?b] =>
      no_if a; no_if b; rewrite (Z.geb_leb a b); destruct (Z.leb_spec b a)
  | |- context [?a >? ?b] =>
      no_if a; no_if b; rewrite (Z.gtb_ltb a b); destruct (Z.ltb_spec b a)
  | |- context [?a <? ?b] => no_if a; no_if b; destruct (Z.ltb_spec a b)
  | |- context [?a <=? ?b] => no_if a; no_if b; destruct (Z.leb_spec a b)
  | |- context [?a =? ?b] => no_if a; no_if b; destruct (Z.eqb_spec a b)
  end.

Lemma used_range (q : StrQueue) : wf q -> 0 <= used q <= maxsize q - 1.
Proof. intros [? ? ? ?]. unfold used. zcases; lia. Qed.

(** With a capacity of at most 2^30 bytes, what [used], [available] and
    the cursors' increments compute stays within [int]: the integers of
    the model are those of the program. *)
Lemma int_range (q : StrQueue) :
  wf q -> maxsize q <= 2 ^ 30 ->
  INT_MIN <= maxsize q + wrptr q <= INT_MAX
  /\ INT_MIN <= used q <= INT_MAX
  /\ INT_MIN <= maxsize q - used q <= INT_MAX
  /\ INT_MIN <= available q <= INT_MAX
  /\ wrptr q + 1 <= INT_MAX
  /\ rdptr q + 1 <= INT_MAX.
Proof.
  intros Hwf Hm. pose proof (used_range q Hwf) as Hu.
  destruct Hwf as [? ? ? ?]. unfold available, INT_MIN, INT_MAX.
  change (2 ^ 30) with 1073741824 in Hm. lia.
Qed.

Lemma isEmpty_used (q : StrQueue) : wf q -> isEmpty q = (used q =? 0).
Proof. intros [? ? ? ?]. unfold isEmpty, used. zcases; lia. Qed.

Lemma length_contents (q : StrQueue) :
  length (contents q) = Z.to_nat (used q).
Proof. unfold contents. now rewrite length_fmap, length_seq. Qed.

Lemma lookup_contents (q : StrQueue) (i : nat) :
  (i < Z.to_nat (used q))%nat ->
  contents q !! i = Some (char_at (buf q) (slot q (Z.of_nat i))).
Proof.
  intros Hi. unfold contents.
  rewrite list_lookup_fmap, lookup_seq_lt by exact Hi. reflexivity.
Qed.

Lemma ctor_wf (junk : nat -> ascii) (nsize : Z) :
  0 < nsize -> wf (ctor junk nsize).
Proof.
  intros H. constructor; simpl; try lia.
  unfold new_char. rewrite length_fmap, length_seq. lia.
Qed.

Lemma ctor_contents (junk : nat -> ascii) (nsize : Z) :
  contents (ctor junk nsize) = [].
Proof. reflexivity. Qed.

Lemma put_wf (q : StrQueue) (c : ascii) : wf q -> wf (put q c).
Proof.
  intros [? ? ? ?]. constructor; simpl; try lia.
  - zcases; lia.
  - rewrite length_store. lia.
Qed.

Lemma put_used (q : StrQueue) (c : ascii) :
  wf q -> 1 <= available q -> used (put q c) = used q + 1.
Proof.
  intros [? ? ? ?]. unfold available, used, put. simpl. intros Hav.
  revert Hav. zcases; intros; lia.
Qed.

Lemma put_contents (q : StrQueue) (c : ascii) :
  wf q -> 1 <= available q -> contents (put q c) = contents q ++ [c].
Proof.
  intros Hwf Hav. pose proof (put_used q c Hwf Hav) as Hu.
  pose proof (used_range q Hwf) as Hr. destruct Hwf as [? ? ? ?].
  apply list_eq. intros i.
  destruct (decide (i < Z.to_nat (used q))%nat) as [Hlt|Hge].
  - rewrite lookup_app_l by (rewrite length_contents; lia).
    rewrite !lookup_contents by lia. f_equal.
    unfold put, slot. simpl. apply char_at_store_ne; try lia.
    + zcases; lia.
    + revert Hlt. unfold used. zcases; lia.
  - rewrite lookup_app_r by (rewrite length_contents; lia).
    rewrite length_contents.
    destruct (decide (i = Z.to_nat (used q))) as [->|Hne].
    + rewrite lookup_contents by lia. rewrite Nat.sub_diag. simpl. f_equal.
      unfold put, slot. simpl.
      replace (if rdptr q + Z.of_nat (Z.to_nat (used q)) <? maxsize q
               then rdptr q + Z.of_nat (Z.to_nat (used q))
               else rdptr q + Z.of_nat (Z.to_nat (used q)) - maxsize q)
        with (wrptr q).
      * apply char_at_store_eq. lia.
      * rewrite Z2Nat.id by lia. unfold used. zcases; lia.
    + rewrite lookup_ge_None_2 by (rewrite length_contents; lia).
      symmetry. apply lookup_ge_None_2. simpl. lia.
Qed.

Lemma get_wf (q : StrQueue) : wf q -> wf (snd (get q)).
Proof. intros [? ? ? ?]. constructor; simpl; try lia. zcases; lia. Qed.

Lemma get_used (q : StrQueue) :
  wf q -> 0 < used q -> used (snd (get q)) = used q - 1.
Proof. intros [? ? ? ?]. unfold used, get. simpl. zcases; lia. Qed.

Lemma get_contents (q : StrQueue) :
  wf q -> 0 < used q -> contents q = fst (get q) :: contents (snd (get q)).
Proof.
  intros Hwf Hpos. pose proof (get_used q Hwf Hpos) as Hu.
  pose proof (used_range q Hwf) as Hr. destruct Hwf as [? ? ? ?].
  apply list_eq. intros [|i].
  - rewrite lookup_contents by lia. simpl. f_equal. f_equal.
    unfold slot. zcases; lia.
  - change ((fst (get q) :: contents (snd (get q))) !! S i)
      with (contents (snd (get q)) !! i).
    destruct (decide (S i < Z.to_nat (used q))%nat) as [Hlt|Hge].
    + rewrite !lookup_contents by lia. f_equal.
      unfold slot, get. cbn [snd buf rdptr maxsize]. f_equal.
      zcases; lia.
    + rewrite !lookup_ge_None_2 by (rewrite length_contents; lia).
      reflexivity.
Qed.

Lemma put_available (q : StrQueue) (c : ascii) :
  wf q -> 1 <= available q -> available (put q c) = available q - 1.
Proof.
  intros Hwf Hav. unfold available at 1. rewrite put_used by assumption.
  unfold available. simpl. lia.
Qed.

Lemma push_loop_spec (k : nat) :
  forall (i : Z) (s : list ascii) (q : StrQueue),
    wf q -> Z.of_nat k <= available q ->
    wf (push_loop k i s q)
    /\ used (push_loop k i s q) = used q + Z.of_nat k
    /\ maxsize (push_loop k i s q) = maxsize q
    /\ contents (push_loop k i s q)
       = contents q ++ ((fun j => char_at s (i + Z.of_nat j)) <$> seq 0 k).
Proof.
  induction k as [|k IH]; intros i s q Hwf Hav.
  - simpl. rewrite app_nil_r. split; [assumption|]. split; [lia|]. split; reflexivity.
  - cbn [push_loop].
    destruct (IH (i + 1) s (put q (char_at s i))) as (W & U & M & C).
    + now apply put_wf.
    + rewrite put_available by (assumption || lia). lia.
    + split; [exact W|]. split; [|split].
      * rewrite U, put_used by (assumption || lia). lia.
      * rewrite M. reflexivity.
      * rewrite C, put_contents by (assumption || lia).
        rewrite <- app_assoc. f_equal. cbn [seq fmap list_fmap app].
        rewrite Z.add_0_r. f_equal.
        rewrite <- fmap_S_seq, <- list_fmap_compose.
        apply list_fmap_ext. intros _ j _. simpl. f_equal. lia.
Qed.

(** What [push]'s loop reads from [s]: the string, then its terminator. *)
Lemma chars_read (s : list ascii) :
  (fun j => char_at s (0 + Z.of_nat j)) <$> seq 0 (Z.to_nat (strlen s + 1))
  = cstr s ++ [null].
Proof.
  unfold strlen. apply list_eq. intros i.
  rewrite list_lookup_fmap.
  destruct (decide (i < length (cstr s) + 1)%nat) as [Hlt|Hge].
  - rewrite lookup_seq_lt by lia. cbn [fmap option_fmap option_map].
    change (0 + Z.of_nat (0 + i)) with (Z.of_nat i).
    rewrite char_at_cstr by lia.
    destruct (decide (i < length (cstr s))%nat) as [Hl|Hl].
    + rewrite lookup_app_l by lia.
      destruct (lookup_lt_is_Some_2 (cstr s) i Hl) as [c ->]. reflexivity.
    + rewrite lookup_app_r by lia.
      rewrite lookup_ge_None_2 by lia.
      replace (i - length (cstr s))%nat with 0%nat by lia. reflexivity.
  - rewrite lookup_seq_ge by lia.
    rewrite lookup_ge_None_2; [reflexivity|].
    rewrite length_app. simpl. lia.
Qed.

(** A push that fits appends the string and its terminator. *)
Lemma push_fits (q : StrQueue) (s : list ascii) :
  wf q -> strlen s + 1 <= available q ->
  fst (push q s) = 1
  /\ wf (snd (push q s))
  /\ used (snd (push q s)) = used q + strlen s + 1
  /\ maxsize (snd (push q s)) = maxsize q
  /\ contents (snd (push q s)) = contents q ++ cstr s ++ [null].
Proof.
  intros Hwf Hav. unfold push.
  destruct (strlen s + 1 >? available q) eqn:E.
  { rewrite Z.gtb_ltb in E. apply Z.ltb_lt in E. lia. }
  pose proof (strlen_nonneg s) as Hs.
  destruct (push_loop_spec (Z.to_nat (strlen s + 1)) 0 s q Hwf)
    as (W & U & M & C); [lia|].
  cbn [fst snd]. rewrite chars_read in C.
  split; [reflexivity|]. split; [assumption|]. split; [lia|].
  split; assumption.
Qed.

(** A push that does not fit changes nothing. *)
Lemma push_full (q : StrQueue) (s : list ascii) :
  strlen s + 1 > available q -> push q s = (0, q).
Proof.
  intros H. unfold push.
  destruct (strlen s + 1 >? available q) eqn:E; [reflexivity|].
  rewrite Z.gtb_ltb in E. apply Z.ltb_ge in E. lia.
Qed.

Lemma push_loop_ext (k : nat) :
  forall (i : nat) (s s' : list ascii) (q : StrQueue),
    (forall j : nat, (i <= j < i + k)%nat ->
                     char_at s (Z.of_nat j) = char_at s' (Z.of_nat j)) ->
    push_loop k (Z.of_nat i) s q = push_loop k (Z.of_nat i) s' q.
Proof.
  induction k as [|k IH]; intros i s s' q H; [reflexivity|].
  cbn [push_loop]. rewrite (H i) by lia.
  replace (Z.of_nat i + 1) with (Z.of_nat (S i)) by lia.
  apply IH. intros j Hj. apply H. lia.
Qed.

(** [push] looks at nothing but the string its argument holds. *)
Lemma push_cstr (q : StrQueue) (s : list ascii) : push q s = push q (cstr s).
Proof.
  unfold push, strlen. rewrite cstr_idem.
  destruct (_ >? _); [reflexivity|]. f_equal.
  apply (push_loop_ext _ 0%nat). intros j Hj.
  symmetry. apply char_at_cstr_cstr. lia.
Qed.

Lemma push_wf (q : StrQueue) (s : list ascii) : wf q -> wf (snd (push q s)).
Proof.
  intros Hwf.
  destruct (Z_le_gt_dec (strlen s + 1) (available q)) as [H|H].
  - now apply push_fits.
  - now rewrite push_full.
Qed.

Lemma used_contents (q : StrQueue) :
  wf q -> used q = Z.of_nat (length (contents q)).
Proof.
  intros Hwf. rewrite length_contents.
  pose proof (used_range q Hwf). lia.
Qed.

(** [pop]'s loop on a queue that starts with the record [R]: either the
    terminator is reached within the [k] rounds left, or [k] characters
    are taken and the rest of the record stays. *)
Lemma pop_loop_spec (k : nat) :
  forall (i : nat) (maxlen : Z) (q : StrQueue) (s R rest : list ascii),
    wf q -> contents q = R ++ null :: rest -> null_free R ->
    Z.of_nat k = maxlen - 1 - Z.of_nat i -> (1 <= k)%nat ->
    maxlen <= Z.of_nat (length s) ->
    wf (fst (pop_loop k (Z.of_nat i) maxlen q s))
    /\ maxsize (fst (pop_loop k (Z.of_nat i) maxlen q s)) = maxsize q
    /\ snd (pop_loop k (Z.of_nat i) maxlen q s)
       = blit s i (take k R ++ [null])
    /\ contents (fst (pop_loop k (Z.of_nat i) maxlen q s))
       = if decide (length R < k)%nat then rest
         else drop k R ++ null :: rest.
Proof.
  induction k as [|k IH]; intros i maxlen q s R rest Hwf Hc Hnf Hk Hk1 Hs;
    [lia|].
  assert (Hpos : 0 < used q).
  { rewrite used_contents, Hc, length_app by assumption. simpl. lia. }
  pose proof (get_contents q Hwf Hpos) as Hg.
  pose proof (get_wf q Hwf) as Hwf1.
  assert (Hm1 : maxsize (snd (get q)) = maxsize q) by reflexivity.
  cbn [pop_loop]. destruct (get q) as [c q1] eqn:G. cbn [fst snd] in *.
  rewrite Hc in Hg. destruct R as [|r R'].
  - simpl in Hg. injection Hg as <- Hq1.
    change (is_null null) with true. cbn [fst snd].
    split; [assumption|]. split; [assumption|]. split.
    + simpl. apply store_blit. lia.
    + rewrite decide_True by (simpl; lia). symmetry. exact Hq1.
  - simpl in Hg. injection Hg as <- Hq1.
    apply Forall_cons in Hnf as [Hr HR'].
    apply is_null_false in Hr. rewrite Hr.
    assert (Hne : (rdptr q1 =? wrptr q1) = false).
    { rewrite Z.eqb_sym. change (isEmpty q1 = false).
      rewrite isEmpty_used by assumption.
      apply Z.eqb_neq. rewrite used_contents, <- Hq1, length_app by assumption.
      simpl. lia. }
    rewrite Hne.
    destruct (Z.of_nat i =? maxlen - 2) eqn:E.
    + apply Z.eqb_eq in E. assert (k = 0%nat) as -> by lia.
      cbn [fst snd]. split; [assumption|]. split; [assumption|]. split.
      * simpl.
        replace (Z.of_nat i + 1) with (Z.of_nat (S i)) by lia.
        rewrite store_blit by (rewrite length_store; lia).
        rewrite blit_store_cons by lia. reflexivity.
      * rewrite decide_False by (simpl; lia). simpl. rewrite drop_0.
        symmetry. exact Hq1.
    + apply Z.eqb_neq in E.
      replace (Z.of_nat i + 1) with (Z.of_nat (S i)) by lia.
      destruct (IH (S i) maxlen q1 (store s (Z.of_nat i) r) R' rest)
        as (W & M & S' & C); try assumption; try lia.
      { now symmetry. }
      { rewrite length_store. lia. }
      split; [assumption|]. split; [congruence|]. split.
      * rewrite S'. rewrite blit_store_cons by lia. reflexivity.
      * rewrite C. simpl.
        destruct (decide (length R' < k)%nat);
          [rewrite decide_True by lia | rewrite decide_False by lia];
          reflexivity.
Qed.

Lemma blit_store_0 (s w : list ascii) (c : ascii) :
  w <> [] -> blit (store s 0 c) 0 w = blit s 0 w.
Proof.
  intros Hw. unfold blit, store. simpl. f_equal.
  destruct w as [|x w]; [congruence|]. simpl.
  apply drop_insert_lt. lia.
Qed.

(** [pop] on a queue that starts with the record [R]. *)
Lemma pop_spec (q : StrQueue) (s R rest : list ascii) (maxlen : Z) :
  wf q -> contents q = R ++ null :: rest -> null_free R ->
  1 <= maxlen <= Z.of_nat (length s) ->
  let k := Z.to_nat (maxlen - 1) in
  fst (fst (pop q s maxlen)) = 1
  /\ wf (snd (fst (pop q s maxlen)))
  /\ maxsize (snd (fst (pop q s maxlen))) = maxsize q
  /\ snd (pop q s maxlen) = blit s 0 (take k R ++ [null])
  /\ contents (snd (fst (pop q s maxlen)))
     = if decide (length R < k)%nat then rest else drop k R ++ null :: rest.
Proof.
  intros Hwf Hc Hnf Hm k. unfold pop.
  destruct (maxlen <? 1) eqn:E1; [apply Z.ltb_lt in E1; lia|].
  assert (Hne : isEmpty q = false).
  { rewrite isEmpty_used by assumption. apply Z.eqb_neq.
    rewrite used_contents, Hc, length_app by assumption. simpl. lia. }
  rewrite Hne. fold k.
  destruct (decide (k = 0%nat)) as [Hk0|Hk0].
  - rewrite Hk0. cbn [pop_loop fst snd].
    split; [reflexivity|]. split; [assumption|]. split; [reflexivity|].
    split.
    + rewrite take_0. simpl. apply (store_blit s 0). lia.
    + rewrite decide_False by lia. rewrite drop_0. exact Hc.
  - destruct (pop_loop_spec k 0%nat maxlen q (store s 0 null) R rest)
      as (W & M & S' & C); try assumption; try lia.
    { rewrite length_store. lia. }
    change (Z.of_nat 0) with 0 in *.
    destruct (pop_loop k 0 maxlen q (store s 0 null)) as [q' s'].
    cbn [fst snd] in *.
    split; [reflexivity|]. split; [assumption|]. split; [assumption|].
    split; [|assumption].
    rewrite S'. apply blit_store_0. now destruct (take k R).
Qed.

(** The destination after a [pop] that takes the whole record. *)
Lemma blit_record (s R : list ascii) :
  blit s 0 (R ++ [null]) = R ++ null :: drop (length R + 1) s.
Proof.
  unfold blit. simpl. rewrite <- app_assoc. simpl.
  now rewrite length_app.
Qed.

Lemma cstr_blit_record (s w : list ascii) :
  null_free w -> cstr (blit s 0 (w ++ [null])) = w.
Proof.
  intros Hw. unfold blit. simpl. rewrite <- app_assoc. simpl.
  now apply cstr_app_null.
Qed.

(** The cursors of the queue that [pop]'s loop returns do not depend on
    the destination, and stay in range. *)
Lemma pop_loop_wf (k : nat) :
  forall (i maxlen : Z) (q : StrQueue) (s : list ascii),
    wf q -> wf (fst (pop_loop k i maxlen q s)).
Proof.
  induction k as [|k IH]; intros i maxlen q s Hwf; [exact Hwf|].
  cbn [pop_loop]. pose proof (get_wf q Hwf) as Hwf1.
  destruct (get q) as [c q1]. cbn [snd] in Hwf1.
  destruct (is_null c); [exact Hwf1|].
  destruct (rdptr q1 =? wrptr q1); [exact Hwf1|].
  destruct (i =? maxlen - 2); [exact Hwf1|]. now apply IH.
Qed.

Lemma pop_wf (q : StrQueue) (s : list ascii) (maxlen : Z) :
  wf q -> wf (snd (fst (pop q s maxlen))).
Proof.
  intros Hwf. unfold pop.
  destruct (maxlen <? 1); [exact Hwf|].
  destruct (isEmpty q); [exact Hwf|].
  pose proof (pop_loop_wf (Z.to_nat (maxlen - 1)) 0 maxlen q
                (store s 0 null) Hwf) as H.
  destruct (pop_loop _ _ _ _ _) as [q' s']. exact H.
Qed.

Lemma run_ops_wf (ops : list Op) :
  forall q : StrQueue, wf q -> wf (run_ops ops q).
Proof.
  unfold run_ops. induction ops as [|o ops IH]; intros q Hwf; [exact Hwf|].
  simpl. apply IH. destruct o as [s|s maxlen]; simpl.
  - now apply push_wf.
  - now apply pop_wf.
Qed.

(** The destination keeps its size. *)
Lemma pop_loop_length (k : nat) :
  forall (i maxlen : Z) (q : StrQueue) (s : list ascii),
    length (snd (pop_loop k i maxlen q s)) = length s.
Proof.
  induction k as [|k IH]; intros i maxlen q s; [reflexivity|].
  cbn [pop_loop]. destruct (get q) as [c q1].
  destruct (is_null c); [apply length_store|].
  destruct (rdptr q1 =? wrptr q1);
    [cbn [snd]; now rewrite !length_store|].
  destruct (i =? maxlen - 2); [cbn [snd]; now rewrite !length_store|].
  rewrite IH. apply length_store.
Qed.

Lemma pop_length (q : StrQueue) (s : list ascii) (maxlen : Z) :
  length (snd (pop q s maxlen)) = length s.
Proof.
  unfold pop. destruct (maxlen <? 1); [reflexivity|].
  destruct (isEmpty q); [apply length_store|].
  pose proof (pop_loop_length (Z.to_nat (maxlen - 1)) 0 maxlen q
                (store s 0 null)) as H.
  destruct (pop_loop _ _ _ _ _) as [q' s']. cbn [snd] in *.
  rewrite H. apply length_store.
Qed.

(** Whenever [pop]'s loop runs at least once, it leaves a terminator at or
    after the place it started to write, within the destination. *)
Lemma pop_loop_null (k : nat) :
  forall (i maxlen : Z) (q : StrQueue) (s : list ascii),
    (1 <= k)%nat -> 0 <= i -> Z.of_nat k = maxlen - 1 - i ->
    maxlen <= Z.of_nat (length s) ->
    exists j, i <= j < maxlen
              /\ snd (pop_loop k i maxlen q s) !! Z.to_nat j = Some null.
Proof.
  induction k as [|k IH]; intros i maxlen q s Hk Hi Hik Hs; [lia|].
  cbn [pop_loop]. destruct (get q) as [c q1].
  destruct (is_null c) eqn:Ec.
  - apply is_null_true in Ec. subst c. exists i. split; [lia|].
    cbn [snd]. unfold store. apply list_lookup_insert_eq. lia.
  - assert (Hnext : store (store s i c) (i + 1) null !! Z.to_nat (i + 1)
                    = Some null).
    { unfold store. apply list_lookup_insert_eq.
      rewrite length_insert. lia. }
    destruct (rdptr q1 =? wrptr q1); [exists (i + 1); split; [lia|exact Hnext]|].
    destruct (i =? maxlen - 2) eqn:E;
      [exists (i + 1); split; [lia|exact Hnext]|].
    apply Z.eqb_neq in E.
    destruct (IH (i + 1) maxlen q1 (store s i c)) as (j & Hj & Hl);
      try lia.
    { rewrite length_store. lia. }
    exists j. split; [lia|exact Hl].
Qed.

Lemma cstr_length_null (s : list ascii) (j : nat) :
  s !! j = Some null -> (length (cstr s) <= j)%nat.
Proof.
  revert j. induction s as [|c s IH]; intros j Hj; [discriminate|].
  simpl. destruct (is_null c) eqn:E; [simpl; lia|].
  destruct j as [|j].
  - simpl in Hj. injection Hj as ->. discriminate.
  - simpl in *. specialize (IH j Hj). lia.
Qed.

Lemma push_loop_maxsize (k : nat) :
  forall (i : Z) (s : list ascii) (q : StrQueue),
    maxsize (push_loop k i s q) = maxsize q.
Proof.
  induction k as [|k IH]; intros i s q; [reflexivity|].
  cbn [push_loop]. now rewrite IH.
Qed.

Lemma push_maxsize (q : StrQueue) (s : list ascii) :
  maxsize (snd (push q s)) = maxsize q.
Proof.
  unfold push. destruct (strlen s + 1 >? available q); [reflexivity|].
  apply push_loop_maxsize.
Qed.

Lemma pop_loop_maxsize (k : nat) :
  forall (i maxlen : Z) (q : StrQueue) (s : list ascii),
    maxsize (fst (pop_loop k i maxlen q s)) = maxsize q.
Proof.
  induction k as [|k IH]; intros i maxlen q s; [reflexivity|].
  cbn [pop_loop].
  assert (Hm : maxsize (snd (get q)) = maxsize q) by reflexivity.
  destruct (get q) as [c q1]. cbn [snd] in Hm.
  destruct (is_null c); [exact Hm|].
  destruct (rdptr q1 =? wrptr q1); [exact Hm|].
  destruct (i =? maxlen - 2); [exact Hm|]. now rewrite IH.
Qed.

Lemma pop_maxsize (q : StrQueue) (s : list ascii) (maxlen : Z) :
  maxsize (snd (fst (pop q s maxlen))) = maxsize q.
Proof.
  unfold pop. destruct (maxlen <? 1); [reflexivity|].
  destruct (isEmpty q); [reflexivity|].
  pose proof (pop_loop_maxsize (Z.to_nat (maxlen - 1)) 0 maxlen q
                (store s 0 null)) as H.
  destruct (pop_loop _ _ _ _ _) as [q' s']. exact H.
Qed.

Lemma run_ops_maxsize (ops : list Op) :
  forall q : StrQueue, maxsize (run_ops ops q) = maxsize q.
Proof.
  unfold run_ops. induction ops as [|o ops IH]; intros q; [reflexivity|].
  simpl. rewrite IH. destruct o as [s|s maxlen]; simpl.
  - apply push_maxsize.
  - apply pop_maxsize.
Qed.

(** *** The claims about the queue *)

(** C1.  Whatever pushes and pops a queue of capacity [nsize] has gone
    through, [used()] is at most [nsize - 1]; and a push of a record whose
    length, terminator included, exceeds [available()] returns 0 and gives
    back the very same queue: the buffer, both cursors and so [used()] are
    unchanged. *)
Theorem C1_used_bounded_and_full_push_is_noop
    (junk : nat -> ascii) (nsize : Z) (ops : list Op) :
  0 < nsize ->
  let q := run_ops ops (ctor junk nsize) in
  used q <= nsize - 1
  /\ forall s : list ascii, strlen s + 1 > available q -> push q s = (0, q).
Proof.
  intros Hn q. split.
  - assert (Hwf : wf q) by (apply run_ops_wf, ctor_wf, Hn).
    assert (Hm : maxsize q = nsize) by apply run_ops_maxsize.
    pose proof (used_range q Hwf). lia.
  - intros s Hs. now apply push_full.
Qed.

Lemma C1_witness :
  0 < 8
  /\ let q :=
       run_ops [OpPush (list_ascii_of_string "abc");
                OpPop (replicate 4 null) 4;
                OpPush (list_ascii_of_string "defg")]
         (ctor (fun _ => "x"%char) 8) in
     used q <= 8 - 1
     /\ forall s : list ascii,
         strlen s + 1 > available q -> push q s = (0, q).
Proof.
  split; [lia|].
  apply (C1_used_bounded_and_full_push_is_noop (fun _ => "x"%char) 8). lia.
Defined.

(** C2, as stated, fails on a queue that already holds a record: the pop
    that follows the push of ["b"] returns the older ["a"], and ["b"] stays
    queued. *)
Lemma C2_counterexample :
  let q := snd (push (ctor (fun _ => "x"%char) 8) (list_ascii_of_string "a")) in
  let R := list_ascii_of_string "b" in
  let s := replicate 8 "z"%char in
  wf q /\ null_free R
  /\ Z.of_nat (length R) + 1 <= available q
  /\ 8 > Z.of_nat (length R) + 1
  /\ fst (push q R) = 1
  /\ fst (fst (pop (snd (push q R)) s 8)) = 1
  /\ cstr (snd (pop (snd (push q R)) s 8)) = list_ascii_of_string "a"
  /\ cstr (snd (pop (snd (push q R)) s 8)) <> R
  /\ contents (snd (fst (pop (snd (push q R)) s 8))) = R ++ [null].
Proof.
  cbv zeta. split; [apply push_wf, ctor_wf; lia|].
  split; [repeat constructor; discriminate|].
  vm_compute. repeat split; congruence.
Qed.

(** C2, amended.  On an empty queue, pushing a null-free record [R] that
    fits and popping at once into a destination of more than
    [length R + 1] characters succeeds, writes exactly [R] and its
    terminator, and leaves the queue empty again. *)
Theorem C2_roundtrip_on_empty_queue
    (q : StrQueue) (R s : list ascii) (maxlen : Z) :
  wf q -> isEmpty q = true -> null_free R ->
  Z.of_nat (length R) + 1 <= available q ->
  Z.of_nat (length R) + 1 < maxlen <= Z.of_nat (length s) ->
  let q1 := snd (push q R) in
  fst (push q R) = 1
  /\ fst (fst (pop q1 s maxlen)) = 1
  /\ snd (pop q1 s maxlen) = R ++ null :: drop (length R + 1) s
  /\ cstr (snd (pop q1 s maxlen)) = R
  /\ contents (snd (fst (pop q1 s maxlen))) = []
  /\ isEmpty (snd (fst (pop q1 s maxlen))) = true.
Proof.
  intros Hwf He Hnf Hav Hm q1.
  assert (Hs : strlen R = Z.of_nat (length R)).
  { unfold strlen. now rewrite cstr_id. }
  destruct (push_fits q R Hwf) as (P1 & W1 & U1 & M1 & C1); [lia|].
  fold q1 in W1, U1, M1, C1.
  assert (Hc0 : contents q = []).
  { apply length_zero_iff_nil. rewrite length_contents.
    rewrite isEmpty_used in He by assumption. apply Z.eqb_eq in He.
    now rewrite He. }
  rewrite Hc0, cstr_id in C1 by assumption. simpl in C1.
  destruct (pop_spec q1 s R [] maxlen W1 C1 Hnf) as (P & W & M & D & C);
    [lia|].
  rewrite take_ge in D by lia.
  rewrite decide_True in C by lia.
  split; [exact P1|]. split; [exact P|]. split.
  { rewrite D. apply blit_record. }
  split.
  { rewrite D. now apply cstr_blit_record. }
  split; [exact C|].
  rewrite isEmpty_used by assumption. apply Z.eqb_eq.
  rewrite used_contents, C by assumption. reflexivity.
Qed.

Lemma C2_witness :
  let q := ctor (fun _ => "x"%char) 8 in
  let R := list_ascii_of_string "hello" in
  let s := replicate 8 "z"%char in
  let q1 := snd (push q R) in
  (wf q /\ isEmpty q = true /\ null_free R
   /\ Z.of_nat (length R) + 1 <= available q
   /\ Z.of_nat (length R) + 1 < 8 <= Z.of_nat (length s))
  /\ fst (push q R) = 1
  /\ fst (fst (pop q1 s 8)) = 1
  /\ snd (pop q1 s 8) = R ++ null :: drop (length R + 1) s
  /\ cstr (snd (pop q1 s 8)) = R
  /\ contents (snd (fst (pop q1 s 8))) = []
  /\ isEmpty (snd (fst (pop q1 s 8))) = true.
Proof.
  cbv zeta.
  assert (H1 : wf (ctor (fun _ => "x"%char) 8)) by (apply ctor_wf; lia).
  assert (H2 : null_free (list_ascii_of_string "hello"))
    by (repeat constructor; discriminate).
  assert (H3 : Z.of_nat (length (list_ascii_of_string "hello")) + 1
               <= available (ctor (fun _ => "x"%char) 8))
    by (vm_compute; discriminate).
  assert (H4 : Z.of_nat (length (list_ascii_of_string "hello")) + 1 < 8
               <= Z.of_nat (length (replicate 8 "z"%char)))
    by (simpl; lia).
  split; [repeat split; try assumption; apply H4|].
  exact (C2_roundtrip_on_empty_queue (ctor (fun _ => "x"%char) 8)
           (list_ascii_of_string "hello") (replicate 8 "z"%char) 8
           H1 eq_refl H2 H3 H4).
Defined.

(** C4.  When the record at the head of the queue is longer than
    [maxlen - 1], [pop] copies its first [maxlen - 1] characters, writes a
    terminator after them, and leaves the rest of the record in the queue;
    the very next [pop] therefore returns a piece of that rest, and the
    records pushed after it are still queued behind. *)
Theorem C4_truncated_pop_leaves_remainder
    (q : StrQueue) (s s2 R rest : list ascii) (maxlen maxlen2 : Z) :
  wf q -> contents q = R ++ null :: rest -> null_free R ->
  1 <= maxlen <= Z.of_nat (length s) ->
  Z.of_nat (length R) > maxlen - 1 ->
  1 <= maxlen2 <= Z.of_nat (length s2) ->
  let n := Z.to_nat (maxlen - 1) in
  let remainder := drop n R in
  let q1 := snd (fst (pop q s maxlen)) in
  fst (fst (pop q s maxlen)) = 1
  /\ snd (pop q s maxlen) = take n R ++ null :: drop (n + 1) s
  /\ cstr (snd (pop q s maxlen)) = take n R
  /\ remainder <> []
  /\ contents q1 = remainder ++ null :: rest
  /\ fst (fst (pop q1 s2 maxlen2)) = 1
  /\ cstr (snd (pop q1 s2 maxlen2))
     = take (Z.to_nat (maxlen2 - 1)) remainder
  /\ (2 <= maxlen2 -> cstr (snd (pop q1 s2 maxlen2)) <> [])
  /\ exists tail : list ascii,
       contents (snd (fst (pop q1 s2 maxlen2))) = tail ++ rest.
Proof.
  intros Hwf Hc Hnf Hm Hlong Hm2 n remainder q1.
  destruct (pop_spec q s R rest maxlen Hwf Hc Hnf Hm) as (P & W & M & D & C).
  fold n in D, C. fold q1 in W, M, C.
  rewrite decide_False in C by lia. fold remainder in C.
  assert (Hrem : remainder <> []).
  { intros E. apply (f_equal length) in E. unfold remainder in E.
    rewrite length_drop in E. simpl in E. lia. }
  assert (Hnfr : null_free remainder).
  { unfold null_free, remainder. now apply Forall_drop. }
  assert (Hnft : null_free (take n R)).
  { unfold null_free. now apply Forall_take. }
  destruct (pop_spec q1 s2 remainder rest maxlen2 W C Hnfr Hm2)
    as (P2 & W2 & M2 & D2 & C2).
  split; [exact P|]. split.
  { rewrite D, blit_record. rewrite length_take.
    replace (length R `min` n)%nat with n by lia.
    replace (n `min` length R)%nat with n by lia. reflexivity. }
  split; [rewrite D; now apply cstr_blit_record|].
  split; [exact Hrem|]. split; [exact C|]. split; [exact P2|].
  assert (Hcs : cstr (snd (pop q1 s2 maxlen2))
                = take (Z.to_nat (maxlen2 - 1)) remainder).
  { rewrite D2. apply cstr_blit_record. unfold null_free.
    now apply Forall_take. }
  split; [exact Hcs|]. split.
  - intros H2 E. rewrite Hcs in E. apply (f_equal length) in E.
    rewrite length_take in E. simpl in E.
    destruct remainder; [congruence|]. simpl in E. lia.
  - rewrite C2. destruct (decide _).
    + now exists [].
    + exists (drop (Z.to_nat (maxlen2 - 1)) remainder ++ [null]).
      now rewrite <- app_assoc.
Qed.

Lemma C4_witness :
  let q :=
    run_ops [OpPush (list_ascii_of_string "abcdef");
             OpPush (list_ascii_of_string "XY")]
      (ctor (fun _ => "x"%char) 16) in
  let R := list_ascii_of_string "abcdef" in
  let rest := list_ascii_of_string "XY" ++ [null] in
  let s := replicate 4 "z"%char in
  let q1 := snd (fst (pop q s 4)) in
  (wf q /\ contents q = R ++ null :: rest /\ null_free R
   /\ 1 <= 4 <= Z.of_nat (length s)
   /\ Z.of_nat (length R) > 4 - 1)
  /\ fst (fst (pop q s 4)) = 1
  /\ snd (pop q s 4) = take 3 R ++ null :: drop (3 + 1) s
  /\ cstr (snd (pop q s 4)) = take 3 R
  /\ drop 3 R <> []
  /\ contents q1 = drop 3 R ++ null :: rest
  /\ fst (fst (pop q1 s 4)) = 1
  /\ cstr (snd (pop q1 s 4)) = take 3 (drop 3 R)
  /\ (2 <= 4 -> cstr (snd (pop q1 s 4)) <> [])
  /\ exists tail : list ascii,
       contents (snd (fst (pop q1 s 4))) = tail ++ rest.
Proof.
  cbv zeta.
  set (q := run_ops _ _). set (R := list_ascii_of_string "abcdef").
  set (rest := list_ascii_of_string "XY" ++ [null]).
  set (s := replicate 4 "z"%char).
  assert (H1 : wf q) by (apply run_ops_wf, ctor_wf; lia).
  assert (H2 : contents q = R ++ null :: rest) by reflexivity.
  assert (H3 : null_free R) by (repeat constructor; discriminate).
  assert (H4 : 1 <= 4 <= Z.of_nat (length s)) by (simpl; lia).
  assert (H5 : Z.of_nat (length R) > 4 - 1) by (simpl; lia).
  split; [repeat split; try assumption; apply H4|].
  exact (C4_truncated_pop_leaves_remainder q s s R rest 4 4
           H1 H2 H3 H4 H5 H4).
Defined.

(** C10.  Every [pop] called with [maxlen >= 1] leaves a terminator within
    the first [maxlen] characters of the destination, so the destination
    holds a string shorter than [maxlen]: the first character is set to
    ['\0'] before the queue is looked at, a [pop] on an empty queue
    returns 0 with the destination holding the empty string, and each exit
    of the copying loop writes a terminator. *)
Theorem C10_pop_leaves_terminated_string
    (q : StrQueue) (s : list ascii) (maxlen : Z) :
  1 <= maxlen <= Z.of_nat (length s) ->
  (exists j, 0 <= j < maxlen
             /\ snd (pop q s maxlen) !! Z.to_nat j = Some null)
  /\ strlen (snd (pop q s maxlen)) < maxlen
  /\ length (snd (pop q s maxlen)) = length s
  /\ (isEmpty q = true ->
      pop q s maxlen = (0, q, store s 0 null)
      /\ cstr (snd (pop q s maxlen)) = []).
Proof.
  intros Hm.
  assert (H0 : store s 0 null !! Z.to_nat 0 = Some null).
  { unfold store. apply list_lookup_insert_eq. simpl. lia. }
  assert (Hex : exists j, 0 <= j < maxlen
                  /\ snd (pop q s maxlen) !! Z.to_nat j = Some null).
  { unfold pop. destruct (maxlen <? 1) eqn:E; [apply Z.ltb_lt in E; lia|].
    destruct (isEmpty q); [exists 0; split; [lia|exact H0]|].
    destruct (decide (maxlen = 1)) as [->|Hne].
    - simpl. exists 0. split; [lia|exact H0].
    - destruct (pop_loop_null (Z.to_nat (maxlen - 1)) 0 maxlen q
                  (store s 0 null)) as (j & Hj & Hl); try lia.
      { rewrite length_store. lia. }
      destruct (pop_loop _ _ _ _ _) as [q' s']. exists j.
      split; [lia|exact Hl]. }
  split; [exact Hex|]. split.
  { destruct Hex as (j & Hj & Hl). apply cstr_length_null in Hl.
    unfold strlen. lia. }
  split; [apply pop_length|].
  intros He. unfold pop.
  destruct (maxlen <? 1) eqn:E; [apply Z.ltb_lt in E; lia|].
  rewrite He. split; [reflexivity|]. cbn [snd].
  destruct s as [|c s]; [simpl in Hm; lia|]. reflexivity.
Qed.

Lemma C10_witness :
  let q := ctor (fun _ => "x"%char) 8 in
  let s := replicate 4 "z"%char in
  1 <= 4 <= Z.of_nat (length s)
  /\ (exists j, 0 <= j < 4 /\ snd (pop q s 4) !! Z.to_nat j = Some null)
  /\ strlen (snd (pop q s 4)) < 4
  /\ length (snd (pop q s 4)) = length s
  /\ (isEmpty q = true ->
      pop q s 4 = (0, q, store s 0 null) /\ cstr (snd (pop q s 4)) = []).
Proof.
  cbv zeta.
  assert (H : 1 <= 4 <= Z.of_nat (length (replicate 4 "z"%char)))
    by (simpl; lia).
  split; [exact H|].
  exact (C10_pop_leaves_terminated_string (ctor (fun _ => "x"%char) 8)
           (replicate 4 "z"%char) 4 H).
Defined.

End QueueFacts.

(** ** The configuration-line parser *)

Module ValueFacts.
Import ValueToRead.

Lemma find_comma_field (x rest : list ascii) :
  field x ->
  forall chloc : Z,
    find_comma (x ++ comma :: rest) chloc
    = (chloc + Z.of_nat (length x),
       (chloc + Z.of_nat (length x) + 1, false)).
Proof.
  unfold field. induction 1 as [|c x [Hn Hc] _ IH]; intros chloc.
  - simpl. rewrite Z.add_0_r. reflexivity.
  - cbn [app find_comma]. apply is_null_false in Hn. rewrite Hn.
    apply Ascii.eqb_neq in Hc. rewrite Hc. rewrite IH.
    cbn [length]. rewrite Nat2Z.inj_succ.
    f_equal; [|f_equal]; lia.
Qed.

Lemma field_null_free (x : list ascii) : field x -> null_free x.
Proof.
  unfold field, null_free. intros H.
  apply (Forall_impl _ _ _ H). now intros c [Hc _].
Qed.

(** Where the four commas of a well-formed line are found. *)
Lemma commaLocs_line (tag num dev svc chr : list ascii) :
  field tag -> field num -> field dev -> field svc ->
  let n0 := Z.of_nat (length tag) in
  let n1 := n0 + 1 + Z.of_nat (length num) in
  let n2 := n1 + 1 + Z.of_nat (length dev) in
  let n3 := n2 + 1 + Z.of_nat (length svc) in
  commaLocs (tag ++ comma :: num ++ comma :: dev ++ comma :: svc
               ++ comma :: chr)
  = (n0, n1, n2, n3).
Proof.
  intros Ht Hn Hd Hs n0 n1 n2 n3. unfold commaLocs, next_comma.
  rewrite drop_0, find_comma_field by assumption.
  change (0 + Z.of_nat (length tag)) with n0.
  replace (drop (Z.to_nat (n0 + 1))
             (tag ++ comma :: num ++ comma :: dev ++ comma :: svc
                ++ comma :: chr))
    with (num ++ comma :: dev ++ comma :: svc ++ comma :: chr).
  2:{ rewrite drop_app_ge by (unfold n0; lia).
      replace (Z.to_nat (n0 + 1) - length tag)%nat with 1%nat
        by (unfold n0; lia).
      reflexivity. }
  rewrite find_comma_field by assumption.
  replace (n0 + 1 + Z.of_nat (length num)) with n1 by reflexivity.
  replace (drop (Z.to_nat (n1 + 1))
             (tag ++ comma :: num ++ comma :: dev ++ comma :: svc
                ++ comma :: chr))
    with (dev ++ comma :: svc ++ comma :: chr).
  2:{ rewrite drop_app_ge by (unfold n1, n0; lia).
      replace (Z.to_nat (n1 + 1) - length tag)%nat
        with (S (length num + 1)) by (unfold n1, n0; lia).
      cbn [drop]. rewrite drop_app_ge by lia.
      replace (length num + 1 - length num)%nat with 1%nat by lia.
      reflexivity. }
  rewrite find_comma_field by assumption.
  replace (n1 + 1 + Z.of_nat (length dev)) with n2 by reflexivity.
  replace (drop (Z.to_nat (n2 + 1))
             (tag ++ comma :: num ++ comma :: dev ++ comma :: svc
                ++ comma :: chr))
    with (svc ++ comma :: chr).
  2:{ rewrite drop_app_ge by (unfold n2, n1, n0; lia).
      replace (Z.to_nat (n2 + 1) - length tag)%nat
        with (S (length num + S (length dev + 1)))
        by (unfold n2, n1, n0; lia).
      cbn [drop]. rewrite drop_app_ge by lia.
      replace (length num + S (length dev + 1) - length num)%nat
        with (S (length dev + 1)) by lia.
      cbn [drop]. rewrite drop_app_ge by lia.
      replace (length dev + 1 - length dev)%nat with 1%nat by lia.
      reflexivity. }
  rewrite find_comma_field by assumption.
  reflexivity.
Qed.

(** The text that [set] hands to [atoi] on a well-formed line is its
    second field. *)
Lemma interval_text_line (tag num dev svc chr : list ascii) :
  field tag -> field num -> field dev -> field svc ->
  exists tail : list ascii,
    interval_text (tag ++ comma :: num ++ comma :: dev ++ comma :: svc
                     ++ comma :: chr)
    = num ++ null :: tail.
Proof.
  intros Ht Hn Hd Hs. unfold interval_text.
  rewrite commaLocs_line by assumption.
  exists (dev ++ comma :: svc ++ comma :: chr).
  unfold from, store.
  rewrite (insert_app_r_alt tag) by lia.
  replace (Z.to_nat (Z.of_nat (length tag)) - length tag)%nat with 0%nat
    by lia.
  cbn [insert list_insert].
  rewrite (insert_app_r_alt tag) by lia.
  replace (Z.to_nat (Z.of_nat (length tag) + 1 + Z.of_nat (length num))
           - length tag)%nat with (S (length num)) by lia.
  cbn [insert list_insert].
  rewrite (insert_app_r_alt num) by lia.
  rewrite Nat.sub_diag. cbn [insert list_insert].
  rewrite drop_app_ge by lia.
  replace (Z.to_nat (Z.of_nat (length tag) + 1) - length tag)%nat
    with 1%nat by lia.
  reflexivity.
Qed.

Lemma atoi_cstr (l tail : list ascii) :
  null_free l -> atoi (l ++ null :: tail) = atoi l.
Proof.
  intros Hl. unfold atoi. now rewrite cstr_app_null, cstr_id.
Qed.

(** A text that starts with neither white space, a sign nor a digit is
    read as 0. *)
Lemma atoi_not_a_number (c : ascii) (l : list ascii) :
  is_null c = false -> isspace c = false -> isdigit c = false ->
  Ascii.eqb c "-" = false -> Ascii.eqb c "+" = false ->
  atoi (c :: l) = 0.
Proof.
  intros Hn Hs Hd Hm Hp. unfold atoi. cbn [cstr]. rewrite Hn.
  cbn [skip_spaces]. rewrite Hs, Hm, Hp. cbn [digits_value].
  rewrite Hd. reflexivity.
Qed.

(** C7.  Whenever [set] accepts a line, the interval it leaves in the
    entry lies in 1..1440: it is what [atoi] read, raised to 1 when that
    is below 1 (as for a text that is not a number, read as 0) and
    lowered to 1440 when it is above.  And a line of five fields is
    accepted whatever its interval field holds. *)
Theorem C7_interval_clamped (v : ValueToRead) (s : list ascii) :
  (fst (set v s) = msg_OK ->
   let a := atoi (interval_text s) in
   let m := minutesBetweenReads (snd (set v s)) in
   1 <= m <= 1440
   /\ (a < 1 -> m = 1)
   /\ (a > 1440 -> m = 1440)
   /\ (1 <= a <= 1440 -> m = a))
  /\ (forall tag num dev svc chr : list ascii,
        field tag -> field num -> field dev -> field svc ->
        s = tag ++ comma :: num ++ comma :: dev ++ comma :: svc
              ++ comma :: chr ->
        fst (set v s) = msg_OK
        /\ atoi (interval_text s) = atoi num).
Proof.
  split.
  - unfold interval_text, set.
    destruct (commaLocs s) as [[[c0 c1] c2] c3].
    destruct (c0 <? 0); [discriminate|].
    destruct (c1 <? 0); [discriminate|].
    destruct (c2 <? 0); [discriminate|].
    destruct (c3 <? 0); [discriminate|].
    intros _. cbn [fst snd minutesBetweenReads with_characteristicUuid
                   with_serviceUuid with_deviceId with_minutesBetweenReads].
    set (a := atoi _).
    destruct (Z.ltb_spec a 1) as [H1|H1].
    + change (1 >? 1440) with false. cbv iota. lia.
    + destruct (a >? 1440) eqn:E.
      * rewrite Z.gtb_ltb in E. apply Z.ltb_lt in E. lia.
      * rewrite Z.gtb_ltb in E. apply Z.ltb_ge in E. lia.
  - intros tag num dev svc chr Ht Hn Hd Hs ->. split.
    + unfold set. rewrite commaLocs_line by assumption.
      repeat match goal with
      | |- context [?x <? 0] =>
          destruct (Z.ltb_spec x 0) as [Hneg|_]; [lia|]
      end.
      reflexivity.
    + destruct (interval_text_line tag num dev svc chr Ht Hn Hd Hs)
        as [tail ->].
      apply atoi_cstr. now apply field_null_free.
Qed.

Lemma C7_witness :
  let v := ctor (fun _ => "x"%char) in
  let s := list_ascii_of_string "T,5000,dev,svc,chr" in
  fst (set v s) = msg_OK
  /\ (field (list_ascii_of_string "T")
      /\ field (list_ascii_of_string "5000")
      /\ field (list_ascii_of_string "dev")
      /\ field (list_ascii_of_string "svc"))
  /\ (let a := atoi (interval_text s) in
      let m := minutesBetweenReads (snd (set v s)) in
      1 <= m <= 1440
      /\ (a < 1 -> m = 1)
      /\ (a > 1440 -> m = 1440)
      /\ (1 <= a <= 1440 -> m = a))
  /\ (fst (set v s) = msg_OK
      /\ atoi (interval_text s) = atoi (list_ascii_of_string "5000")).
Proof.
  cbv zeta.
  assert (F : forall x : string,
             forallb (fun c => negb (Ascii.eqb c null)
                               && negb (Ascii.eqb c comma))
               (list_ascii_of_string x) = true ->
             field (list_ascii_of_string x)).
  { intros x H. unfold field. apply Forall_forall. intros c Hc.
    apply list_elem_of_In in Hc.
    pose proof (proj1 (forallb_forall _ _) H c Hc) as Hb.
    apply andb_prop in Hb as [H1 H2].
    apply negb_true_iff in H1, H2.
    now apply Ascii.eqb_neq in H1, H2. }
  split; [reflexivity|].
  split; [repeat split; apply F; reflexivity|].
  split.
  - exact (proj1 (C7_interval_clamped (ctor (fun _ => "x"%char))
                    (list_ascii_of_string "T,5000,dev,svc,chr")) eq_refl).
  - apply (proj2 (C7_interval_clamped (ctor (fun _ => "x"%char))
                    (list_ascii_of_string "T,5000,dev,svc,chr"))
             (list_ascii_of_string "T") (list_ascii_of_string "5000")
             (list_ascii_of_string "dev") (list_ascii_of_string "svc")
             (list_ascii_of_string "chr"));
      try (apply F; reflexivity).
    reflexivity.
Defined.

(** [set] keeps the interval of an entry within 1..1440 and leaves its
    counters alone, whether it accepts the line or not. *)
Lemma set_keeps (v : ValueToRead) (s : list ascii) :
  1 <= minutesBetweenReads v <= 1440 ->
  1 <= minutesBetweenReads (snd (set v s)) <= 1440
  /\ errors (snd (set v s)) = errors v
  /\ connects (snd (set v s)) = connects v.
Proof.
  intros Hv. unfold set.
  destruct (commaLocs s) as [[[c0 c1] c2] c3].
  destruct (c0 <? 0); [now cbn|].
  destruct (c1 <? 0); [now cbn|].
  assert (Hc : forall a : Z,
             1 <= (if (if a <? 1 then 1 else a) >? 1440 then 1440
                   else (if a <? 1 then 1 else a)) <= 1440).
  { intros a. destruct (Z.ltb_spec a 1).
    - change (1 >? 1440) with false. cbv iota. lia.
    - destruct (a >? 1440) eqn:E; [lia|].
      rewrite Z.gtb_ltb in E. apply Z.ltb_ge in E. lia. }
  destruct (c2 <? 0); [cbn; split; [apply Hc|now split]|].
  destruct (c3 <? 0); cbn; (split; [apply Hc|now split]).
Qed.

End ValueFacts.

(** ** The sketch *)

Module BridgeFacts.
Import Bridge.

Lemma ctor_ok (junk : nat -> ascii) : entry_ok (ValueToRead.ctor junk).
Proof. unfold entry_ok. simpl. split; [lia|now left]. Qed.

Lemma set_ok (v : ValueToRead.ValueToRead) (s : list ascii) :
  entry_ok v -> entry_ok (snd (ValueToRead.set v s)).
Proof.
  intros [Hm He]. destruct (ValueFacts.set_keeps v s Hm) as (M & E & _).
  split; [exact M|]. now rewrite E.
Qed.

Lemma load_values_ok (junk : Z -> nat -> ascii) (readKey : Z -> list ascii)
    (k : nat) :
  forall (i : Z) (vals : list ValueToRead.ValueToRead),
    Forall entry_ok vals ->
    Forall entry_ok (load_values junk readKey k i vals).
Proof.
  induction k as [|k IH]; intros i vals Hv; [exact Hv|].
  cbn [load_values]. apply IH.
  destruct (negb (is_null (char_at (readKey i) 0))); [|exact Hv].
  apply Forall_app. split; [exact Hv|].
  constructor; [|constructor]. apply set_ok, ctor_ok.
Qed.

Lemma onResult_ok (devName devAddr : list ascii)
    (vals : list ValueToRead.ValueToRead) :
  Forall entry_ok vals -> Forall entry_ok (onResult devName devAddr vals).
Proof.
  intros Hv. unfold onResult. apply Forall_fmap.
  apply (Forall_impl _ _ _ Hv). intros p Hp. simpl.
  destruct (_ || _); [|exact Hp]. exact Hp.
Qed.

Lemma scan_ok (found : list (list ascii * list ascii)) :
  forall vals : list ValueToRead.ValueToRead,
    Forall entry_ok vals -> Forall entry_ok (scan found vals).
Proof.
  unfold scan. induction found as [|d found IH]; intros vals Hv;
    [exact Hv|].
  simpl. apply IH. now apply onResult_ok.
Qed.

Lemma readValue_ok (r : option (list ascii)) (p : ValueToRead.ValueToRead)
    (b : list ascii) (maxlen : Z) :
  entry_ok p -> entry_ok (fst (readValue r p b maxlen)).
Proof.
  intros [Hm He]. destruct r as [val|]; simpl; split; try assumption.
  right. destruct He as [-> | ->]; reflexivity.
Qed.

Lemma read_if_due_ok (e : Env) (mc : Z) (i : nat)
    (p : ValueToRead.ValueToRead) (q : StrQueue.StrQueue) (b : list ascii) :
  entry_ok p -> entry_ok (fst (fst (fst (read_if_due e mc i p q b)))).
Proof.
  intros Hp. unfold read_if_due. destruct (due mc p); [|exact Hp].
  pose proof (readValue_ok (ble e i) p b 256 Hp) as H.
  destruct (readValue (ble e i) p b 256) as [p1 b1].
  destruct (StrQueue.push q _) as [sts q1]. exact H.
Qed.

Lemma read_all_ok (e : Env) (mc : Z)
    (vals : list ValueToRead.ValueToRead) :
  forall (i : nat) (q : StrQueue.StrQueue) (b : list ascii),
    Forall entry_ok vals ->
    Forall entry_ok (fst (fst (fst (read_all e mc i vals q b)))).
Proof.
  induction vals as [|p vals IH]; intros i q b Hv; [constructor|].
  apply Forall_cons in Hv as [Hp Hv]. cbn [read_all].
  pose proof (read_if_due_ok e mc i p q b Hp) as H1.
  destruct (read_if_due e mc i p q b) as [[[p1 q1] b1] ev1].
  specialize (IH (S i) q1 b1 Hv).
  destruct (read_all e mc (S i) vals q1 b1) as [[[rest1 q2] b2] ev2].
  constructor; assumption.
Qed.

Lemma minute_tasks_ok (e : Env) (st : State) :
  Forall entry_ok (vals2read st) ->
  Forall entry_ok (vals2read (fst (minute_tasks e st))).
Proof.
  intros Hv. unfold minute_tasks.
  pose proof (read_all_ok e (ulong (minuteCounter st + 1)) (vals2read st)
                0%nat (measuredData st) (buf st) Hv) as H.
  destruct (read_all _ _ _ _ _ _) as [[[vals q] b] evs]. exact H.
Qed.

Lemma loop_pass_vals (e : Env) (st : State) :
  vals2read (fst (loop_pass e st))
  = let st1 := if negb (currentMin e =? lastMin st)
               then fst (minute_tasks e st) else st in
    if timeForScan st1 then scan (advertised e) (vals2read st1)
    else vals2read st1.
Proof.
  unfold loop_pass.
  destruct (negb (currentMin e =? lastMin st)).
  - destruct (minute_tasks e st) as [st1 evs]. cbn [fst].
    destruct (timeForScan st1); destruct (wifiDown e);
      cbn [measuredData buf1 vals2read];
      destruct (forwarder _ _ _) as [[q b1] evs']; reflexivity.
  - cbn [fst].
    destruct (timeForScan st); destruct (wifiDown e);
      cbn [measuredData buf1 vals2read];
      destruct (forwarder _ _ _) as [[q b1] evs']; reflexivity.
Qed.

Lemma reachable_ok (st : State) :
  reachable st -> Forall entry_ok (vals2read st).
Proof.
  induction 1 as [qjunk junk readKey rtcMinute | e st _ IH].
  - unfold setup. cbn [vals2read]. apply load_values_ok. constructor.
  - rewrite loop_pass_vals. cbv zeta.
    destruct (negb (currentMin e =? lastMin st)).
    + pose proof (minute_tasks_ok e st IH) as H.
      destruct (timeForScan _); [now apply scan_ok|exact H].
    + destruct (timeForScan st); [now apply scan_ok|exact IH].
Qed.

(** C8.  In every state the program reaches, the device-not-found bit
    (bit value 1) of every entry's error word is 0: the constructor
    clears the word and the only write to it sets the connect-failed
    bit. *)
Theorem C8_devnotfound_never_set (st : State) :
  reachable st ->
  Forall (fun p =>
            Z.land (ValueToRead.errors p) ValueToRead.BLESVR_ERR_DEVNOTFOUND
            = 0
            /\ Z.testbit (ValueToRead.errors p) 0 = false)
    (vals2read st).
Proof.
  intros Hr. apply (Forall_impl _ _ _ (reachable_ok st Hr)).
  intros p [_ [-> | ->]]; split; reflexivity.
Qed.

Lemma C8_witness :
  reachable Demo.resolved
  /\ Forall (fun p =>
               Z.land (ValueToRead.errors p)
                 ValueToRead.BLESVR_ERR_DEVNOTFOUND = 0
               /\ Z.testbit (ValueToRead.errors p) 0 = false)
       (vals2read Demo.resolved).
Proof.
  assert (H : reachable Demo.resolved) by apply reach_pass, reach_setup.
  split; [exact H|]. exact (C8_devnotfound_never_set Demo.resolved H).
Defined.

(** *** The minute loop *)

Lemma reads_app (a b : list Event) : reads (a ++ b) = reads a ++ reads b.
Proof. unfold reads. apply omap_app. Qed.

Lemma read_if_due_reads (e : Env) (mc : Z) (i : nat)
    (p : ValueToRead.ValueToRead) (q : StrQueue.StrQueue) (b : list ascii) :
  reads (snd (read_if_due e mc i p q b)) = if due mc p then [i] else [].
Proof.
  unfold read_if_due. destruct (due mc p); [|reflexivity].
  destruct (readValue (ble e i) p b 256) as [p1 b1].
  destruct (StrQueue.push q _) as [sts q1]. reflexivity.
Qed.

(** The minute loop attempts a read on exactly the entries that pass its
    test. *)
Lemma read_all_reads (e : Env) (mc : Z)
    (vals : list ValueToRead.ValueToRead) :
  forall (i0 : nat) (q : StrQueue.StrQueue) (b : list ascii) (i : nat),
    i ∈ reads (snd (read_all e mc i0 vals q b))
    <-> exists p, (i0 <= i)%nat /\ vals !! (i - i0)%nat = Some p
                  /\ due mc p = true.
Proof.
  induction vals as [|p vals IH]; intros i0 q b i.
  - simpl. split; [intros H; inversion H|now intros (p & _ & H & _)].
  - cbn [read_all].
    pose proof (read_if_due_reads e mc i0 p q b) as H1.
    destruct (read_if_due e mc i0 p q b) as [[[p1 q1] b1] ev1].
    specialize (IH (S i0) q1 b1 i).
    destruct (read_all e mc (S i0) vals q1 b1) as [[[rest1 q2] b2] ev2].
    cbn [snd] in *. rewrite reads_app, H1, elem_of_app, IH. split.
    + intros [Hi | (p' & Hle & Hl & Hd)].
      * destruct (due mc p) eqn:Hd; [|inversion Hi].
        apply list_elem_of_singleton in Hi. subst i. exists p.
        rewrite Nat.sub_diag. now split.
      * exists p'. split; [lia|]. split; [|exact Hd].
        replace (i - i0)%nat with (S (i - S i0)) by lia. exact Hl.
    + intros (p' & Hle & Hl & Hd).
      destruct (decide (i = i0)) as [->|Hne].
      * left. rewrite Nat.sub_diag in Hl. simpl in Hl.
        injection Hl as <-. rewrite Hd. now apply list_elem_of_singleton.
      * right. exists p'. split; [lia|]. split; [|exact Hd].
        replace (i - i0)%nat with (S (i - S i0)) in Hl by lia. exact Hl.
Qed.

Lemma forwarder_reads (h : list ascii -> bool) (q : StrQueue.StrQueue)
    (b1 : list ascii) : reads (snd (forwarder h q b1)) = [].
Proof.
  unfold forwarder. destruct (negb (StrQueue.isEmpty q)); [|reflexivity].
  destruct (StrQueue.pop q _ 384) as [[sts q1] b].
  destruct (negb (sts =? 0) && (strlen b >? 0)); [|reflexivity].
  destruct (h (cstr b)); [reflexivity|].
  destruct (StrQueue.push q1 b) as [s q2]. reflexivity.
Qed.

Lemma loop_pass_tick (e : Env) (st : State) :
  currentMin e <> lastMin st ->
  reads (snd (loop_pass e st)) = reads (snd (minute_tasks e st))
  /\ minuteCounter (fst (loop_pass e st)) = ulong (minuteCounter st + 1).
Proof.
  intros Hne. apply Z.eqb_neq in Hne. unfold loop_pass. rewrite Hne.
  cbn [negb].
  assert (Hmc : minuteCounter (fst (minute_tasks e st))
                = ulong (minuteCounter st + 1)).
  { unfold minute_tasks. destruct (read_all _ _ _ _ _ _) as [[[v q] b] ev].
    reflexivity. }
  destruct (minute_tasks e st) as [st1 evs]. cbn [fst snd] in *.
  destruct (timeForScan st1); destruct (wifiDown e);
    cbn [measuredData buf1 minuteCounter];
    match goal with
    | |- context [forwarder ?h ?q ?b] =>
        pose proof (forwarder_reads h q b) as Hf;
        destruct (forwarder h q b) as [[q' b'] evs']
    end; cbn [fst snd] in *;
    rewrite reads_app, Hf, app_nil_r; split; (reflexivity || exact Hmc).
Qed.

Lemma resolved_iff (a : list ascii) :
  negb (is_null (char_at a 0)) = true <-> cstr a <> [].
Proof.
  destruct a as [|c a]; [now split|].
  unfold char_at. simpl. destruct (is_null c); simpl; split; congruence.
Qed.

Lemma due_iff (mc : Z) (p : ValueToRead.ValueToRead) :
  1 <= ValueToRead.minutesBetweenReads p <= 1440 ->
  due mc p = true
  <-> mc mod ValueToRead.minutesBetweenReads p = 0
      /\ cstr (ValueToRead.deviceAddr p) <> [].
Proof.
  intros Hm. unfold due, ulong.
  rewrite (Z.mod_small (ValueToRead.minutesBetweenReads p)) by lia.
  rewrite andb_true_iff, Z.eqb_eq, resolved_iff. reflexivity.
Qed.

(** C5.  On a minute tick (a pass of the loop that sees the minute
    change) in any state the program reaches, a read is attempted on an
    entry exactly when the minute counter, as the tick has just advanced
    it, is a multiple of the entry's interval and the entry's resolved
    address is not empty.  On the first tick after [setup] the counter is
    0, so every resolved entry is read whatever its interval. *)
Theorem C5_due_iff_multiple_and_resolved
    (e : Env) (st : State) (i : nat) (p : ValueToRead.ValueToRead) :
  reachable st -> currentMin e <> lastMin st ->
  vals2read st !! i = Some p ->
  let mc := minuteCounter (fst (loop_pass e st)) in
  mc = ulong (minuteCounter st + 1)
  /\ (i ∈ reads (snd (loop_pass e st))
      <-> mc mod ValueToRead.minutesBetweenReads p = 0
          /\ cstr (ValueToRead.deviceAddr p) <> [])
  /\ (minuteCounter st = ulong (-1) ->
      mc = 0
      /\ (cstr (ValueToRead.deviceAddr p) <> [] ->
          i ∈ reads (snd (loop_pass e st)))).
Proof.
  intros Hr Hne Hi mc.
  destruct (loop_pass_tick e st Hne) as [Hreads Hmc].
  assert (Hok : entry_ok p).
  { pose proof (reachable_ok st Hr) as H.
    rewrite Forall_forall in H. apply H.
    apply list_elem_of_lookup. now exists i. }
  destruct Hok as [Hm _].
  assert (Hiff : i ∈ reads (snd (loop_pass e st))
                 <-> mc mod ValueToRead.minutesBetweenReads p = 0
                     /\ cstr (ValueToRead.deviceAddr p) <> []).
  { rewrite Hreads. unfold minute_tasks.
    pose proof (read_all_reads e (ulong (minuteCounter st + 1))
                  (vals2read st) 0%nat (measuredData st) (buf st) i) as H.
    destruct (read_all _ _ _ _ _ _) as [[[v q] b] evs]. cbn [snd] in *.
    rewrite H. unfold mc. rewrite Hmc. rewrite Nat.sub_0_r. split.
    - intros (p' & _ & Hl & Hd). rewrite Hi in Hl. injection Hl as <-.
      now apply due_iff.
    - intros Hd. exists p. split; [lia|]. split; [exact Hi|].
      now apply due_iff. }
  split; [exact Hmc|]. split; [exact Hiff|].
  intros H0. assert (Hz : mc = 0).
  { unfold mc. rewrite Hmc, H0. reflexivity. }
  split; [exact Hz|]. intros Ha. apply Hiff. rewrite Hz.
  split; [apply Z.mod_0_l; lia|exact Ha].
Qed.

Lemma C5_witness :
  (reachable Demo.resolved
   /\ currentMin Demo.pass_tick <> lastMin Demo.resolved
   /\ vals2read Demo.resolved !! 0%nat = Some Demo.entry)
  /\ let mc := minuteCounter (fst (loop_pass Demo.pass_tick Demo.resolved)) in
     mc = ulong (minuteCounter Demo.resolved + 1)
     /\ (0%nat ∈ reads (snd (loop_pass Demo.pass_tick Demo.resolved))
         <-> mc mod ValueToRead.minutesBetweenReads Demo.entry = 0
             /\ cstr (ValueToRead.deviceAddr Demo.entry) <> [])
     /\ (minuteCounter Demo.resolved = ulong (-1) ->
         mc = 0
         /\ (cstr (ValueToRead.deviceAddr Demo.entry) <> [] ->
             0%nat ∈ reads (snd (loop_pass Demo.pass_tick Demo.resolved)))).
Proof.
  assert (H1 : reachable Demo.resolved) by apply reach_pass, reach_setup.
  assert (H2 : currentMin Demo.pass_tick <> lastMin Demo.resolved).
  { vm_compute. discriminate. }
  assert (H3 : vals2read Demo.resolved !! 0%nat = Some Demo.entry).
  { vm_compute. reflexivity. }
  split; [now repeat split|].
  exact (C5_due_iff_multiple_and_resolved Demo.pass_tick Demo.resolved
           0%nat Demo.entry H1 H2 H3).
Defined.

(** *** A read that cannot connect *)

Lemma comma_not_null : ValueToRead.comma <> null.
Proof. discriminate. Qed.

Lemma head_null_free (a b : list ascii) :
  null_free (cstr a ++ ValueToRead.comma :: cstr b ++ [ValueToRead.comma]).
Proof.
  unfold null_free. apply Forall_app. split; [apply cstr_null_free|].
  constructor; [exact comma_not_null|].
  apply Forall_app. split; [apply cstr_null_free|].
  constructor; [exact comma_not_null|constructor].
Qed.

(** The string that [sprintf3] leaves in [buf]. *)
Lemma cstr_sprintf3 (buf a b : list ascii) :
  let head := cstr a ++ ValueToRead.comma :: cstr b ++ [ValueToRead.comma] in
  cstr (sprintf3 buf a b) = head ++ cstr (head ++ drop (length head) buf).
Proof.
  intros head. unfold sprintf3. fold head.
  set (third := cstr (head ++ drop (length head) buf)).
  rewrite <- (app_assoc head), <- (app_assoc third), (app_assoc head).
  apply cstr_app_null. unfold null_free. apply Forall_app.
  split; [apply head_null_free|apply cstr_null_free].
Qed.



(** C3, as stated, fails: on the tick below the only entry is due and its
    device cannot be reached; the error bit is set and the connect counter
    stays, yet a record is pushed into the queue, which was empty. *)
Lemma C3_counterexample :
  vals2read Demo.resolved !! 0%nat = Some Demo.entry
  /\ due (ulong (minuteCounter Demo.resolved + 1)) Demo.entry = true
  /\ ble Demo.pass_tick 0%nat = None
  /\ StrQueue.contents (measuredData Demo.resolved) = []
  /\ (ValueToRead.errors
        <$> vals2read (fst (minute_tasks Demo.pass_tick Demo.resolved)))
     = [ValueToRead.BLESVR_ERR_CONNECTFAIL]
  /\ (ValueToRead.connects
        <$> vals2read (fst (minute_tasks Demo.pass_tick Demo.resolved)))
     = [ValueToRead.connects Demo.entry]
  /\ snd (minute_tasks Demo.pass_tick Demo.resolved)
     = [EvRead 0 false
          (Demo.L "2024/01/01,00:01:00,T,2024/01/01,00:01:00,T,") 1]
  /\ StrQueue.contents
       (measuredData (fst (minute_tasks Demo.pass_tick Demo.resolved)))
     = Demo.L "2024/01/01,00:01:00,T,2024/01/01,00:01:00,T," ++ [null]
  /\ StrQueue.contents
       (measuredData (fst (minute_tasks Demo.pass_tick Demo.resolved)))
     <> StrQueue.contents (measuredData Demo.resolved).
Proof. vm_compute. repeat split; congruence. Qed.

(** C3, amended.  When an entry is due and the connection to its device
    fails, the connect-failed bit is set in the entry's error word, its
    connect counter and every other member stay as they were, and a
    record is pushed for that cycle all the same: [readValue] returns as
    it does after a read, and the loop formats [buf] and pushes it.  The
    record starts with the time stamp, a comma, the entry's tag and a
    comma, and it is stored in the queue whenever it fits. *)
Theorem C3_failed_connect_marks_entry_and_still_pushes_a_record
    (e : Env) (mc : Z) (i : nat) (p : ValueToRead.ValueToRead)
    (q : StrQueue.StrQueue) (b : list ascii) :
  due mc p = true -> ble e i = None ->
  let r := read_if_due e mc i p q b in
  let p1 := fst (fst (fst r)) in
  let q1 := snd (fst (fst r)) in
  p1 = ValueToRead.with_errors p
         (Z.lor (ValueToRead.errors p) ValueToRead.BLESVR_ERR_CONNECTFAIL)
  /\ Z.testbit (ValueToRead.errors p1) 1 = true
  /\ ValueToRead.connects p1 = ValueToRead.connects p
  /\ exists record : list ascii,
       (cstr (ttag e i) ++ ValueToRead.comma
          :: cstr (ValueToRead.from_valueTag p1) ++ [ValueToRead.comma])
         `prefix_of` record
       /\ null_free record
       /\ snd r = [EvRead i false record (fst (StrQueue.push q record))]
       /\ q1 = snd (StrQueue.push q record)
       /\ (StrQueue.wf q ->
           Z.of_nat (length record) + 1 <= StrQueue.available q ->
           fst (StrQueue.push q record) = 1
           /\ StrQueue.contents q1
              = StrQueue.contents q ++ record ++ [null]).
Proof.
  intros Hd Hb r p1 q1.
  set (pf := ValueToRead.with_errors p
               (Z.lor (ValueToRead.errors p)
                  ValueToRead.BLESVR_ERR_CONNECTFAIL)).
  set (b1 := sprintf3 (strncpy b UNKNOWN (256 - 1)) (ttag e i)
               (ValueToRead.from_valueTag pf)).
  assert (Hr : r = (pf, snd (StrQueue.push q (cstr b1)), b1,
                    [EvRead i false (cstr b1)
                       (fst (StrQueue.push q (cstr b1)))])).
  { unfold r, read_if_due. rewrite Hd, Hb. cbn [readValue]. fold pf b1.
    rewrite QueueFacts.push_cstr.
    destruct (StrQueue.push q (cstr b1)) as [sts q']. reflexivity. }
  unfold p1, q1. rewrite Hr. cbn [fst snd].
  split; [reflexivity|]. split.
  { unfold pf. cbn [ValueToRead.errors ValueToRead.with_errors].
    rewrite Z.lor_spec. apply orb_true_r. }
  split; [reflexivity|]. exists (cstr b1).
  split; [unfold b1; rewrite cstr_sprintf3; now eexists|].
  split; [apply cstr_null_free|].
  split; [reflexivity|]. split; [reflexivity|].
  intros Hwf Hav.
  assert (Hs : strlen (cstr b1) = Z.of_nat (length (cstr b1))).
  { unfold strlen. now rewrite cstr_idem. }
  destruct (QueueFacts.push_fits q (cstr b1) Hwf) as (P & _ & _ & _ & C);
    [lia|].
  split; [exact P|]. rewrite C. now rewrite cstr_idem.
Qed.

Lemma C3_witness :
  (due 0 Demo.entry = true /\ ble Demo.pass_tick 0%nat = None)
  /\ let q := measuredData Demo.resolved in
     let r := read_if_due Demo.pass_tick 0 0%nat Demo.entry q
                (buf Demo.resolved) in
     let p1 := fst (fst (fst r)) in
     let q1 := snd (fst (fst r)) in
     p1 = ValueToRead.with_errors Demo.entry
            (Z.lor (ValueToRead.errors Demo.entry)
               ValueToRead.BLESVR_ERR_CONNECTFAIL)
     /\ Z.testbit (ValueToRead.errors p1) 1 = true
     /\ ValueToRead.connects p1 = ValueToRead.connects Demo.entry
     /\ exists record : list ascii,
          (cstr (ttag Demo.pass_tick 0%nat) ++ ValueToRead.comma
             :: cstr (ValueToRead.from_valueTag p1) ++ [ValueToRead.comma])
            `prefix_of` record
          /\ null_free record
          /\ snd r = [EvRead 0 false record (fst (StrQueue.push q record))]
          /\ q1 = snd (StrQueue.push q record)
          /\ (StrQueue.wf q ->
              Z.of_nat (length record) + 1 <= StrQueue.available q ->
              fst (StrQueue.push q record) = 1
              /\ StrQueue.contents q1
                 = StrQueue.contents q ++ record ++ [null]).
Proof.
  assert (H1 : due 0 Demo.entry = true) by (vm_compute; reflexivity).
  assert (H2 : ble Demo.pass_tick 0%nat = None) by reflexivity.
  split; [now split|].
  exact (C3_failed_connect_marks_entry_and_still_pushes_a_record
           Demo.pass_tick 0 0%nat Demo.entry (measuredData Demo.resolved)
           (buf Demo.resolved) H1 H2).
Defined.

(** *** The forwarder *)

(** A [pop] into a destination of more than [length R + 1] characters
    takes the whole record [R] from the head of the queue. *)
Lemma pop_record (q : StrQueue.StrQueue) (s R rest : list ascii)
    (maxlen : Z) :
  StrQueue.wf q -> StrQueue.contents q = R ++ null :: rest ->
  null_free R ->
  Z.of_nat (length R) + 2 <= maxlen <= Z.of_nat (length s) ->
  fst (fst (StrQueue.pop q s maxlen)) = 1
  /\ StrQueue.wf (snd (fst (StrQueue.pop q s maxlen)))
  /\ StrQueue.maxsize (snd (fst (StrQueue.pop q s maxlen)))
     = StrQueue.maxsize q
  /\ snd (StrQueue.pop q s maxlen) = R ++ null :: drop (length R + 1) s
  /\ cstr (snd (StrQueue.pop q s maxlen)) = R
  /\ StrQueue.contents (snd (fst (StrQueue.pop q s maxlen))) = rest.
Proof.
  intros Hwf Hc Hnf Hm.
  destruct (QueueFacts.pop_spec q s R rest maxlen Hwf Hc Hnf)
    as (P & W & M & D & C); [lia|].
  rewrite take_ge in D by lia. rewrite decide_True in C by lia.
  split; [exact P|]. split; [exact W|]. split; [exact M|].
  split; [rewrite D; apply QueueFacts.blit_record|].
  split; [rewrite D; now apply QueueFacts.cstr_blit_record|exact C].
Qed.

(** The room left once the record at the head has been taken. *)
Lemma available_after_pop (q q1 : StrQueue.StrQueue) (R rest : list ascii) :
  StrQueue.wf q -> StrQueue.wf q1 ->
  StrQueue.maxsize q1 = StrQueue.maxsize q ->
  StrQueue.contents q = R ++ null :: rest ->
  StrQueue.contents q1 = rest ->
  StrQueue.available q1
  = StrQueue.available q + Z.of_nat (length R) + 1
  /\ 0 <= StrQueue.available q.
Proof.
  intros Hwf Hwf1 Hm Hc Hc1. unfold StrQueue.available.
  pose proof (QueueFacts.used_range q Hwf) as Hr.
  rewrite (QueueFacts.used_contents q Hwf), Hc in *.
  rewrite (QueueFacts.used_contents q1 Hwf1), Hc1, Hm.
  rewrite length_app in *. cbn [length] in *. lia.
Qed.

(** One run of the forwarder on a queue that starts with the record [R],
    short enough for [buf1]. *)
Lemma forwarder_record (h : list ascii -> bool) (q : StrQueue.StrQueue)
    (b1 R rest : list ascii) :
  StrQueue.wf q -> StrQueue.contents q = R ++ null :: rest ->
  null_free R -> R <> [] ->
  Z.of_nat (length R) + 2 <= 384 <= Z.of_nat (length b1) ->
  StrQueue.wf (fst (fst (forwarder h q b1)))
  /\ length (snd (fst (forwarder h q b1))) = length b1
  /\ snd (forwarder h q b1) = [EvSend R (h R)]
  /\ StrQueue.contents (fst (fst (forwarder h q b1)))
     = if h R then rest else rest ++ R ++ [null].
Proof.
  intros Hwf Hc Hnf Hne Hlen. unfold forwarder.
  assert (He : StrQueue.isEmpty q = false).
  { rewrite QueueFacts.isEmpty_used by assumption. apply Z.eqb_neq.
    rewrite QueueFacts.used_contents, Hc, length_app by assumption.
    simpl. lia. }
  rewrite He. cbn [negb].
  destruct (pop_record q (store b1 0 null) R rest 384 Hwf Hc Hnf)
    as (P & W & M & _ & S & C).
  { rewrite length_store. lia. }
  pose proof (QueueFacts.pop_length q (store b1 0 null) 384) as Hl.
  rewrite length_store in Hl.
  destruct (StrQueue.pop q (store b1 0 null) 384) as [[sts q1] b].
  cbn [fst snd] in *. subst sts. cbn [Z.eqb negb andb].
  assert (Hs : strlen b = Z.of_nat (length R)) by (unfold strlen; now rewrite S).
  assert (Hpos : (strlen b >? 0) = true).
  { rewrite Hs. destruct R; [congruence|]. reflexivity. }
  rewrite Hpos, S.
  destruct (h R).
  - cbn [fst snd]. split; [exact W|]. split; [exact Hl|].
    split; [reflexivity|exact C].
  - destruct (available_after_pop q q1 R rest Hwf W M Hc C) as [Hav Hav0].
    destruct (QueueFacts.push_fits q1 b W) as (_ & W2 & _ & _ & C2);
      [lia|].
    destruct (StrQueue.push q1 b) as [s2 q2]. cbn [fst snd] in *.
    split; [exact W2|]. split; [exact Hl|]. split; [reflexivity|].
    now rewrite C2, C, S.
Qed.

Lemma forward_all_cons (h : list ascii -> bool)
    (hs : list (list ascii -> bool)) (q : StrQueue.StrQueue)
    (b1 : list ascii) :
  forward_all (h :: hs) q b1
  = (fst (fst (forward_all hs (fst (fst (forwarder h q b1)))
                 (snd (fst (forwarder h q b1))))),
     snd (fst (forward_all hs (fst (fst (forwarder h q b1)))
                 (snd (fst (forwarder h q b1))))),
     snd (forwarder h q b1)
       ++ snd (forward_all hs (fst (fst (forwarder h q b1)))
                 (snd (fst (forwarder h q b1))))).
Proof.
  cbn [forward_all]. destruct (forwarder h q b1) as [[q1 b] ev1].
  cbn [fst snd]. destruct (forward_all hs q1 b) as [[q2 b2] ev2].
  reflexivity.
Qed.

(** C6.  With the records [A], [B], [C] queued in that order, a hub that
    takes [A], refuses [B] the first time and takes [C] and then [B] is
    handed them in the order [A], [C], [B]: after the refusal [B] is put
    back behind [C], it is the only record left after three runs of the
    forwarder, and the fourth run delivers it and leaves the queue
    empty. *)
Theorem C6_failed_record_goes_to_the_back
    (hA hB1 hC hB2 : list ascii -> bool) (q : StrQueue.StrQueue)
    (b1 A B C : list ascii) :
  StrQueue.wf q ->
  StrQueue.contents q = A ++ null :: B ++ null :: C ++ [null] ->
  null_free A -> null_free B -> null_free C ->
  A <> [] -> B <> [] -> C <> [] ->
  Z.of_nat (length A) + 2 <= 384 -> Z.of_nat (length B) + 2 <= 384 ->
  Z.of_nat (length C) + 2 <= 384 -> 384 <= Z.of_nat (length b1) ->
  hA A = true -> hB1 B = false -> hC C = true -> hB2 B = true ->
  let r3 := forward_all [hA; hB1; hC] q b1 in
  let r4 := forward_all [hA; hB1; hC; hB2] q b1 in
  snd r3 = [EvSend A true; EvSend B false; EvSend C true]
  /\ StrQueue.contents (fst (fst r3)) = B ++ [null]
  /\ snd r4 = [EvSend A true; EvSend B false; EvSend C true; EvSend B true]
  /\ delivered (snd r4) = [A; C; B]
  /\ StrQueue.contents (fst (fst r4)) = [].
Proof.
  intros Hwf Hc HA HB HC HAn HBn HCn HAl HBl HCl Hb HhA HhB1 HhC HhB2.
  destruct (forwarder_record hA q b1 A (B ++ null :: C ++ [null]))
    as (W1 & L1 & E1 & C1); try assumption; try lia.
  rewrite HhA in E1, C1.
  set (r1 := forwarder hA q b1) in *.
  destruct (forwarder_record hB1 (fst (fst r1)) (snd (fst r1)) B
              (C ++ [null]))
    as (W2 & L2 & E2 & C2); try assumption; try lia.
  rewrite HhB1 in E2, C2. rewrite <- app_assoc in C2. cbn [app] in C2.
  set (r2 := forwarder hB1 (fst (fst r1)) (snd (fst r1))) in *.
  destruct (forwarder_record hC (fst (fst r2)) (snd (fst r2)) C
              (B ++ [null]))
    as (W3 & L3 & E3 & C3); try assumption; try lia.
  rewrite HhC in E3, C3.
  set (r3' := forwarder hC (fst (fst r2)) (snd (fst r2))) in *.
  destruct (forwarder_record hB2 (fst (fst r3')) (snd (fst r3')) B [])
    as (W4 & L4 & E4 & C4); try assumption; try lia.
  rewrite HhB2 in E4, C4.
  intros r3 r4. unfold r3, r4. rewrite !forward_all_cons.
  cbn [forward_all fst snd].
  fold r1. fold r2. fold r3'. rewrite E1, E2, E3, E4.
  split; [reflexivity|]. split; [exact C3|]. split; [reflexivity|].
  split; [reflexivity|exact C4].
Qed.

Lemma C6_witness :
  let q :=
    StrQueue.run_ops
      [StrQueue.OpPush (Demo.L "rec-A"); StrQueue.OpPush (Demo.L "rec-B");
       StrQueue.OpPush (Demo.L "rec-C")]
      (StrQueue.ctor (fun _ => "x"%char) 64) in
  let b1 := replicate 384 null in
  let A := Demo.L "rec-A" in
  let B := Demo.L "rec-B" in
  let C := Demo.L "rec-C" in
  let yes := fun _ : list ascii => true in
  let no := fun _ : list ascii => false in
  (StrQueue.wf q
   /\ StrQueue.contents q = A ++ null :: B ++ null :: C ++ [null]
   /\ null_free A /\ null_free B /\ null_free C
   /\ A <> [] /\ B <> [] /\ C <> []
   /\ Z.of_nat (length A) + 2 <= 384 /\ Z.of_nat (length B) + 2 <= 384
   /\ Z.of_nat (length C) + 2 <= 384 /\ 384 <= Z.of_nat (length b1)
   /\ yes A = true /\ no B = false /\ yes C = true /\ yes B = true)
  /\ let r3 := forward_all [yes; no; yes] q b1 in
     let r4 := forward_all [yes; no; yes; yes] q b1 in
     snd r3 = [EvSend A true; EvSend B false; EvSend C true]
     /\ StrQueue.contents (fst (fst r3)) = B ++ [null]
     /\ snd r4
        = [EvSend A true; EvSend B false; EvSend C true; EvSend B true]
     /\ delivered (snd r4) = [A; C; B]
     /\ StrQueue.contents (fst (fst r4)) = [].
Proof.
  cbv zeta.
  set (q := StrQueue.run_ops _ _).
  assert (H1 : StrQueue.wf q)
    by (apply QueueFacts.run_ops_wf, QueueFacts.ctor_wf; lia).
  assert (H2 : StrQueue.contents q
               = Demo.L "rec-A" ++ null :: Demo.L "rec-B" ++ null
                   :: Demo.L "rec-C" ++ [null]) by reflexivity.
  assert (N : forall x : list ascii,
             forallb (fun c => negb (is_null c)) x = true -> null_free x).
  { intros x H. unfold null_free. apply Forall_forall. intros c Hc.
    apply list_elem_of_In in Hc.
    pose proof (proj1 (forallb_forall _ _) H c Hc) as Hb.
    apply negb_true_iff in Hb. now apply is_null_false. }
  assert (HA : null_free (Demo.L "rec-A")) by (apply N; reflexivity).
  assert (HB : null_free (Demo.L "rec-B")) by (apply N; reflexivity).
  assert (HC : null_free (Demo.L "rec-C")) by (apply N; reflexivity).
  assert (HAn : Demo.L "rec-A" <> []) by discriminate.
  assert (HBn : Demo.L "rec-B" <> []) by discriminate.
  assert (HCn : Demo.L "rec-C" <> []) by discriminate.
  assert (HAl : Z.of_nat (length (Demo.L "rec-A")) + 2 <= 384)
    by (simpl; lia).
  assert (HBl : Z.of_nat (length (Demo.L "rec-B")) + 2 <= 384)
    by (simpl; lia).
  assert (HCl : Z.of_nat (length (Demo.L "rec-C")) + 2 <= 384)
    by (simpl; lia).
  assert (Hb : 384 <= Z.of_nat (length (replicate 384 null)))
    by (rewrite length_replicate; lia).
  split.
  - repeat (split; [assumption || reflexivity|]). reflexivity.
  - exact (C6_failed_record_goes_to_the_back
             (fun _ => true) (fun _ => false) (fun _ => true)
             (fun _ => true) q (replicate 384 null) (Demo.L "rec-A")
             (Demo.L "rec-B") (Demo.L "rec-C")
             H1 H2 HA HB HC HAn HBn HCn HAl HBl HCl Hb
             eq_refl eq_refl eq_refl eq_refl).
Defined.

(** C9.  A [pop] that takes a whole record of [length R] characters and
    its terminator raises [available()] by [length R + 1], so that any
    record no longer than [R] can be pushed at once; in particular, when
    the hub refuses the record the forwarder has just popped, pushing it
    back succeeds and the record is queued again behind the others. *)
Theorem C9_pop_makes_room_for_push_back
    (q : StrQueue.StrQueue) (s R rest : list ascii) (maxlen : Z) :
  StrQueue.wf q -> StrQueue.contents q = R ++ null :: rest ->
  null_free R ->
  Z.of_nat (length R) + 2 <= maxlen <= Z.of_nat (length s) ->
  let q1 := snd (fst (StrQueue.pop q s maxlen)) in
  fst (fst (StrQueue.pop q s maxlen)) = 1
  /\ cstr (snd (StrQueue.pop q s maxlen)) = R
  /\ StrQueue.contents q1 = rest
  /\ StrQueue.available q1
     = StrQueue.available q + Z.of_nat (length R) + 1
  /\ (forall s' : list ascii,
        strlen s' <= Z.of_nat (length R) ->
        fst (StrQueue.push q1 s') = 1
        /\ StrQueue.contents (snd (StrQueue.push q1 s'))
           = rest ++ cstr s' ++ [null])
  /\ (forall (h : list ascii -> bool) (b1 : list ascii),
        maxlen = 384 -> 384 <= Z.of_nat (length b1) -> R <> [] ->
        h R = false ->
        snd (forwarder h q b1) = [EvSend R false]
        /\ StrQueue.contents (fst (fst (forwarder h q b1)))
           = rest ++ R ++ [null]).
Proof.
  intros Hwf Hc Hnf Hm q1.
  destruct (pop_record q s R rest maxlen Hwf Hc Hnf Hm)
    as (P & W & M & _ & S & C).
  fold q1 in W, M, C.
  destruct (available_after_pop q q1 R rest Hwf W M Hc C) as [Hav Hav0].
  split; [exact P|]. split; [exact S|]. split; [exact C|].
  split; [exact Hav|]. split.
  - intros s' Hs'.
    destruct (QueueFacts.push_fits q1 s' W) as (P1 & _ & _ & _ & C1);
      [lia|].
    split; [exact P1|]. now rewrite C1, C.
  - intros h b1 -> Hb1 Hne Hh.
    destruct (forwarder_record h q b1 R rest Hwf Hc Hnf Hne)
      as (_ & _ & E & C'); [lia|].
    rewrite Hh in E, C'. now split.
Qed.

Lemma C9_witness :
  let q :=
    StrQueue.run_ops
      [StrQueue.OpPush (Demo.L "rec-A"); StrQueue.OpPush (Demo.L "rec-B")]
      (StrQueue.ctor (fun _ => "x"%char) 64) in
  let s := replicate 384 null in
  let R := Demo.L "rec-A" in
  let rest := Demo.L "rec-B" ++ [null] in
  let q1 := snd (fst (StrQueue.pop q s 384)) in
  (StrQueue.wf q /\ StrQueue.contents q = R ++ null :: rest
   /\ null_free R
   /\ Z.of_nat (length R) + 2 <= 384 <= Z.of_nat (length s))
  /\ fst (fst (StrQueue.pop q s 384)) = 1
  /\ cstr (snd (StrQueue.pop q s 384)) = R
  /\ StrQueue.contents q1 = rest
  /\ StrQueue.available q1
     = StrQueue.available q + Z.of_nat (length R) + 1
  /\ (forall s' : list ascii,
        strlen s' <= Z.of_nat (length R) ->
        fst (StrQueue.push q1 s') = 1
        /\ StrQueue.contents (snd (StrQueue.push q1 s'))
           = rest ++ cstr s' ++ [null])
  /\ (forall (h : list ascii -> bool) (b1 : list ascii),
        384 = 384 -> 384 <= Z.of_nat (length b1) -> R <> [] ->
        h R = false ->
        snd (forwarder h q b1) = [EvSend R false]
        /\ StrQueue.contents (fst (fst (forwarder h q b1)))
           = rest ++ R ++ [null]).
Proof.
  cbv zeta.
  set (q := StrQueue.run_ops _ _).
  assert (H1 : StrQueue.wf q)
    by (apply QueueFacts.run_ops_wf, QueueFacts.ctor_wf; lia).
  assert (H2 : StrQueue.contents q
               = Demo.L "rec-A" ++ null :: Demo.L "rec-B" ++ [null])
    by reflexivity.
  assert (H3 : null_free (Demo.L "rec-A"))
    by (repeat constructor; discriminate).
  assert (H4 : Z.of_nat (length (Demo.L "rec-A")) + 2 <= 384
               <= Z.of_nat (length (replicate 384 null)))
    by (rewrite length_replicate; simpl; lia).
  split; [now repeat split|].
  exact (C9_pop_makes_room_for_push_back q (replicate 384 null)
           (Demo.L "rec-A") (Demo.L "rec-B" ++ [null]) 384 H1 H2 H3 H4).
Defined.

End BridgeFacts.

(** ** More about the ring buffer *)

Module QueueMore.
Import StrQueue.

Lemma records_cons (R : list ascii) (rs : list (list ascii)) :
  records (R :: rs) = R ++ null :: records rs.
Proof. unfold records. simpl. now rewrite <- app_assoc. Qed.

Lemma records_app (a b : list (list ascii)) :
  records (a ++ b) = records a ++ records b.
Proof. unfold records. now rewrite fmap_app, concat_app. Qed.

Lemma push_all_spec (new : list (list ascii)) :
  forall q : StrQueue,
    wf q -> Forall null_free new ->
    Z.of_nat (length (records new)) <= available q ->
    wf (push_all new q)
    /\ maxsize (push_all new q) = maxsize q
    /\ used (push_all new q) = used q + Z.of_nat (length (records new))
    /\ contents (push_all new q) = contents q ++ records new.
Proof.
  unfold push_all.
  induction new as [|R new IH]; intros q Hwf Hnf Hav.
  - simpl. rewrite app_nil_r. split; [exact Hwf|]. split; [reflexivity|].
    split; [lia|reflexivity].
  - apply Forall_cons in Hnf as [HR Hnf].
    rewrite records_cons, length_app in Hav. cbn [length] in Hav.
    assert (Hs : strlen R = Z.of_nat (length R)).
    { unfold strlen. now rewrite cstr_id. }
    destruct (QueueFacts.push_fits q R Hwf) as (_ & W & U & M & C); [lia|].
    cbn [fold_left].
    destruct (IH (snd (push q R)) W Hnf) as (W' & M' & U' & C').
    { unfold available in *. rewrite U, M. lia. }
    split; [exact W'|]. split; [congruence|]. split.
    + rewrite U', U, records_cons, length_app. cbn [length]. lia.
    + rewrite C', C, records_cons, cstr_id by assumption.
      rewrite <- !app_assoc. reflexivity.
Qed.

Lemma pop_n_records (rs : list (list ascii)) :
  forall (q : StrQueue) (s : list ascii) (maxlen : Z),
    wf q -> contents q = records rs -> Forall null_free rs ->
    Forall (fun R => Z.of_nat (length R) + 2 <= maxlen) rs ->
    maxlen <= Z.of_nat (length s) ->
    fst (pop_n (length rs) q s maxlen) = rs
    /\ wf (snd (pop_n (length rs) q s maxlen))
    /\ contents (snd (pop_n (length rs) q s maxlen)) = [].
Proof.
  induction rs as [|R rs IH]; intros q s maxlen Hwf Hc Hnf Hlen Hs.
  - simpl. split; [reflexivity|]. split; [exact Hwf|exact Hc].
  - apply Forall_cons in Hnf as [HR Hnf].
    apply Forall_cons in Hlen as [HRl Hlen].
    rewrite records_cons in Hc.
    destruct (BridgeFacts.pop_record q s R (records rs) maxlen Hwf Hc HR)
      as (_ & W & _ & _ & S & C); [lia|].
    pose proof (QueueFacts.pop_length q s maxlen) as Hl.
    cbn [length pop_n].
    destruct (pop q s maxlen) as [[sts q1] s1]. cbn [fst snd] in *.
    destruct (IH q1 s1 maxlen W C Hnf Hlen) as (O & W' & C'); [lia|].
    destruct (pop_n (length rs) q1 s1 maxlen) as [out q2].
    cbn [fst snd] in *. split; [congruence|]. split; assumption.
Qed.

(** X1.  The queue is first in, first out, wherever its cursors stand:
    when it holds the records [rs] and the records [new] are pushed and
    all fit, it holds [rs] followed by [new], [used()] is the number of
    their characters, terminators included, and as many pops as there are
    records, into a destination larger than each, return them in that
    order and leave the queue empty. *)
Theorem X1_first_in_first_out
    (q : StrQueue) (rs new : list (list ascii)) (s : list ascii)
    (maxlen : Z) :
  wf q -> contents q = records rs ->
  Forall null_free rs -> Forall null_free new ->
  Z.of_nat (length (records new)) <= available q ->
  Forall (fun R => Z.of_nat (length R) + 2 <= maxlen) (rs ++ new) ->
  maxlen <= Z.of_nat (length s) ->
  let q1 := push_all new q in
  contents q1 = records (rs ++ new)
  /\ used q1 = Z.of_nat (length (records (rs ++ new)))
  /\ fst (pop_n (length (rs ++ new)) q1 s maxlen) = rs ++ new
  /\ isEmpty (snd (pop_n (length (rs ++ new)) q1 s maxlen)) = true.
Proof.
  intros Hwf Hc Hrs Hnew Hav Hlen Hs q1.
  destruct (push_all_spec new q Hwf Hnew Hav) as (W & _ & _ & C).
  fold q1 in W, C. rewrite Hc, <- records_app in C.
  split; [exact C|]. split.
  { rewrite QueueFacts.used_contents, C by assumption. reflexivity. }
  destruct (pop_n_records (rs ++ new) q1 s maxlen W C) as (O & W' & C');
    try assumption.
  { now apply Forall_app. }
  split; [exact O|].
  rewrite QueueFacts.isEmpty_used by assumption. apply Z.eqb_eq.
  rewrite QueueFacts.used_contents, C' by assumption. reflexivity.
Qed.

Lemma X1_witness :
  let q :=
    run_ops [OpPush (Demo.L "0123456789"); OpPop (replicate 16 null) 16;
             OpPush (Demo.L "ab")]
      (ctor (fun _ => "x"%char) 16) in
  let rs := [Demo.L "ab"] in
  let new := [Demo.L "cdefgh"; Demo.L "ij"] in
  let s := replicate 8 null in
  (wf q /\ contents q = records rs
   /\ Forall null_free rs /\ Forall null_free new
   /\ Z.of_nat (length (records new)) <= available q
   /\ Forall (fun R => Z.of_nat (length R) + 2 <= 8) (rs ++ new)
   /\ 8 <= Z.of_nat (length s))
  /\ let q1 := push_all new q in
     contents q1 = records (rs ++ new)
     /\ used q1 = Z.of_nat (length (records (rs ++ new)))
     /\ fst (pop_n (length (rs ++ new)) q1 s 8) = rs ++ new
     /\ isEmpty (snd (pop_n (length (rs ++ new)) q1 s 8)) = true.
Proof.
  cbv zeta. set (q := run_ops _ _).
  assert (H1 : wf q)
    by (apply QueueFacts.run_ops_wf, QueueFacts.ctor_wf; lia).
  assert (H2 : contents q = records [Demo.L "ab"]) by reflexivity.
  assert (H3 : Forall null_free [Demo.L "ab"])
    by (repeat constructor; discriminate).
  assert (H4 : Forall null_free [Demo.L "cdefgh"; Demo.L "ij"])
    by (repeat constructor; discriminate).
  assert (H5 : Z.of_nat (length (records [Demo.L "cdefgh"; Demo.L "ij"]))
               <= available q) by (vm_compute; discriminate).
  assert (H6 : Forall (fun R => Z.of_nat (length R) + 2 <= 8)
                 ([Demo.L "ab"] ++ [Demo.L "cdefgh"; Demo.L "ij"]))
    by (repeat constructor; simpl; lia).
  assert (H7 : 8 <= Z.of_nat (length (replicate 8 null)))
    by (simpl; lia).
  split; [repeat (split; [assumption|]); assumption|].
  exact (X1_first_in_first_out q [Demo.L "ab"]
           [Demo.L "cdefgh"; Demo.L "ij"] (replicate 8 null) 8
           H1 H2 H3 H4 H5 H6 H7).
Defined.

(** Each write of [pop]'s loop is below [maxlen]. *)
Lemma pop_loop_frame (k : nat) :
  forall (i maxlen : Z) (q : StrQueue) (s : list ascii),
    0 <= i -> i + Z.of_nat k <= maxlen - 1 ->
    drop (Z.to_nat maxlen) (snd (pop_loop k i maxlen q s))
    = drop (Z.to_nat maxlen) s.
Proof.
  induction k as [|k IH]; intros i maxlen q s Hi Hk; [reflexivity|].
  cbn [pop_loop]. destruct (get q) as [c q1].
  assert (H1 : forall (x : ascii) (m : list ascii),
             drop (Z.to_nat maxlen) (store m i x)
             = drop (Z.to_nat maxlen) m).
  { intros x m. unfold store. apply drop_insert_lt. lia. }
  assert (H2 : forall (x : ascii) (m : list ascii),
             drop (Z.to_nat maxlen) (store m (i + 1) x)
             = drop (Z.to_nat maxlen) m).
  { intros x m. unfold store. apply drop_insert_lt. lia. }
  destruct (is_null c); [apply H1|].
  destruct (rdptr q1 =? wrptr q1); [cbn [snd]; now rewrite H2, H1|].
  destruct (i =? maxlen - 2) eqn:E; [cbn [snd]; now rewrite H2, H1|].
  apply Z.eqb_neq in E. rewrite IH by lia. apply H1.
Qed.

(** X2.  [pop] writes nowhere but into the first [maxlen] characters of
    its destination: what lies from index [maxlen] on is as it was (all
    of it when [maxlen] is below 1), and the destination keeps its
    size. *)
Theorem X2_pop_writes_within_destination
    (q : StrQueue) (s : list ascii) (maxlen : Z) :
  drop (Z.to_nat maxlen) (snd (pop q s maxlen)) = drop (Z.to_nat maxlen) s
  /\ length (snd (pop q s maxlen)) = length s.
Proof.
  split; [|apply QueueFacts.pop_length].
  unfold pop. destruct (Z.ltb_spec maxlen 1) as [H|H]; [reflexivity|].
  assert (H0 : drop (Z.to_nat maxlen) (store s 0 null)
               = drop (Z.to_nat maxlen) s).
  { unfold store. apply drop_insert_lt. lia. }
  destruct (isEmpty q); [exact H0|].
  pose proof (pop_loop_frame (Z.to_nat (maxlen - 1)) 0 maxlen q
                (store s 0 null)) as Hf.
  destruct (pop_loop _ _ _ _ _) as [q' s']. cbn [snd] in *.
  rewrite Hf by lia. exact H0.
Qed.

(** The queue that [pop] returns does not depend on the destination. *)
Lemma pop_loop_queue (k : nat) :
  forall (i maxlen : Z) (q : StrQueue) (s s' : list ascii),
    fst (pop_loop k i maxlen q s) = fst (pop_loop k i maxlen q s').
Proof.
  induction k as [|k IH]; intros i maxlen q s s'; [reflexivity|].
  cbn [pop_loop]. destruct (get q) as [c q1].
  destruct (is_null c); [reflexivity|].
  destruct (rdptr q1 =? wrptr q1); [reflexivity|].
  destruct (i =? maxlen - 2); [reflexivity|]. apply IH.
Qed.

Lemma pop_queue (q : StrQueue) (s s' : list ascii) (maxlen : Z) :
  fst (pop q s maxlen) = fst (pop q s' maxlen).
Proof.
  unfold pop. destruct (maxlen <? 1); [reflexivity|].
  destruct (isEmpty q); [reflexivity|].
  pose proof (pop_loop_queue (Z.to_nat (maxlen - 1)) 0 maxlen q
                (store s 0 null) (store s' 0 null)) as H.
  destruct (pop_loop _ _ _ _ (store s 0 null)) as [q1 s1].
  destruct (pop_loop _ _ _ _ (store s' 0 null)) as [q2 s2].
  cbn [fst] in *. now subst.
Qed.

Lemma contents_nil_empty (q : StrQueue) :
  wf q -> contents q = [] -> isEmpty q = true.
Proof.
  intros Hwf Hc. rewrite QueueFacts.isEmpty_used by assumption.
  apply Z.eqb_eq. rewrite QueueFacts.used_contents, Hc by assumption.
  reflexivity.
Qed.

(** A pop, of whatever size, leaves whole records in the queue. *)
Lemma pop_keeps_records (q : StrQueue) (s : list ascii) (maxlen : Z)
    (rs : list (list ascii)) :
  wf q -> contents q = records rs -> Forall null_free rs ->
  exists rs' : list (list ascii),
    Forall null_free rs'
    /\ contents (snd (fst (pop q s maxlen))) = records rs'.
Proof.
  intros Hwf Hc Hnf.
  destruct (Z.ltb_spec maxlen 1) as [Hm|Hm].
  { exists rs. split; [exact Hnf|]. unfold pop.
    apply Z.ltb_lt in Hm. now rewrite Hm. }
  destruct rs as [|R rs].
  { exists []. split; [constructor|]. unfold pop.
    destruct (maxlen <? 1); [exact Hc|].
    now rewrite (contents_nil_empty q Hwf Hc). }
  apply Forall_cons in Hnf as [HR Hnf]. rewrite records_cons in Hc.
  rewrite (pop_queue q s (replicate (Z.to_nat maxlen) null) maxlen).
  destruct (QueueFacts.pop_spec q (replicate (Z.to_nat maxlen) null) R
              (records rs) maxlen Hwf Hc HR) as (_ & _ & _ & _ & C).
  { rewrite length_replicate. lia. }
  rewrite C. destruct (decide _).
  - exists rs. now split.
  - exists (drop (Z.to_nat (maxlen - 1)) R :: rs). split.
    + constructor; [|exact Hnf]. unfold null_free. now apply Forall_drop.
    + now rewrite records_cons.
Qed.

(** X3.  Whatever pushes and pops a queue has gone through, it holds
    whole records, each a run of characters other than ['\0'] followed by
    one ['\0'] (the first may be what an earlier, too small pop left of
    a record): a queue that is not empty ends with a terminator, so that
    [pop] never meets the write cursor in the middle of a record. *)
Theorem X3_queue_holds_terminated_records
    (junk : nat -> ascii) (nsize : Z) (ops : list Op) :
  0 < nsize ->
  exists rs : list (list ascii),
    Forall null_free rs
    /\ contents (run_ops ops (ctor junk nsize)) = records rs
    /\ (rs <> [] -> last (contents (run_ops ops (ctor junk nsize)))
                    = Some null).
Proof.
  intros Hn.
  assert (H : forall q : StrQueue,
             wf q ->
             (exists rs, Forall null_free rs /\ contents q = records rs) ->
             exists rs, Forall null_free rs
                        /\ contents (run_ops ops q) = records rs).
  { unfold run_ops. induction ops as [|o ops IH]; intros q Hwf Hq;
      [exact Hq|].
    cbn [fold_left]. destruct Hq as (rs & Hnf & Hc).
    destruct o as [s|s maxlen]; cbn [apply_op].
    - apply IH; [now apply QueueFacts.push_wf|].
      destruct (Z_le_gt_dec (strlen s + 1) (available q)) as [Hf|Hf].
      + destruct (QueueFacts.push_fits q s Hwf Hf) as (_ & _ & _ & _ & C).
        exists (rs ++ [cstr s]). split.
        * apply Forall_app. split; [exact Hnf|].
          constructor; [apply cstr_null_free|constructor].
        * rewrite C, Hc, records_app. f_equal.
          unfold records. simpl. now rewrite app_nil_r.
      + rewrite QueueFacts.push_full by exact Hf. now exists rs.
    - apply IH; [now apply QueueFacts.pop_wf|].
      now apply (pop_keeps_records q s maxlen rs). }
  destruct (H (ctor junk nsize)) as (rs & Hnf & Hc).
  { now apply QueueFacts.ctor_wf. }
  { exists []. split; [constructor|reflexivity]. }
  exists rs. split; [exact Hnf|]. split; [exact Hc|].
  intros Hne. rewrite Hc.
  destruct (exists_last Hne) as (rs' & R & ->).
  rewrite records_app. unfold records at 2. simpl. rewrite app_nil_r.
  rewrite !app_assoc. apply last_snoc.
Qed.

Lemma X3_witness :
  0 < 16
  /\ exists rs : list (list ascii),
       Forall null_free rs
       /\ contents
            (run_ops [OpPush (Demo.L "abcdef"); OpPop (replicate 4 null) 4;
                      OpPush (Demo.L "gh")]
               (ctor (fun _ => "x"%char) 16))
          = records rs
       /\ (rs <> [] ->
           last (contents
                   (run_ops [OpPush (Demo.L "abcdef");
                             OpPop (replicate 4 null) 4;
                             OpPush (Demo.L "gh")]
                      (ctor (fun _ => "x"%char) 16)))
           = Some null).
Proof.
  split; [lia|].
  apply (X3_queue_holds_terminated_records (fun _ => "x"%char) 16). lia.
Defined.

(** X4.  A record of exactly [maxlen - 1] characters is returned whole,
    but its terminator stays in the queue: the pop after it succeeds too
    and returns the empty string, which takes the terminator away. *)
Theorem X4_record_that_just_fits_leaves_its_terminator
    (q : StrQueue) (s s2 R rest : list ascii) (maxlen maxlen2 : Z) :
  wf q -> contents q = R ++ null :: rest -> null_free R ->
  Z.of_nat (length R) = maxlen - 1 -> maxlen <= Z.of_nat (length s) ->
  2 <= maxlen2 <= Z.of_nat (length s2) ->
  let q1 := snd (fst (pop q s maxlen)) in
  fst (fst (pop q s maxlen)) = 1
  /\ cstr (snd (pop q s maxlen)) = R
  /\ contents q1 = null :: rest
  /\ used q1 = used q - Z.of_nat (length R)
  /\ fst (fst (pop q1 s2 maxlen2)) = 1
  /\ cstr (snd (pop q1 s2 maxlen2)) = []
  /\ contents (snd (fst (pop q1 s2 maxlen2))) = rest.
Proof.
  intros Hwf Hc Hnf Hlen Hs Hm2 q1.
  destruct (QueueFacts.pop_spec q s R rest maxlen Hwf Hc Hnf)
    as (P & W & M & D & C); [lia|].
  fold q1 in W, M, C.
  rewrite take_ge in D by lia. rewrite decide_False in C by lia.
  rewrite drop_ge in C by lia. cbn [app] in C.
  destruct (QueueFacts.pop_spec q1 s2 [] rest maxlen2 W C)
    as (P2 & W2 & M2 & D2 & C2); [constructor|lia|].
  rewrite decide_True in C2 by (simpl; lia).
  split; [exact P|]. split.
  { rewrite D. now apply QueueFacts.cstr_blit_record. }
  split; [exact C|]. split.
  { rewrite (QueueFacts.used_contents q1 W), C.
    rewrite (QueueFacts.used_contents q Hwf), Hc, length_app.
    cbn [length]. lia. }
  split; [exact P2|]. split; [|exact C2].
  rewrite D2, take_nil. apply (QueueFacts.cstr_blit_record s2 []).
  constructor.
Qed.

Lemma X4_witness :
  let q :=
    push_all [Demo.L "abc"; Demo.L "de"] (ctor (fun _ => "x"%char) 16) in
  let s := replicate 4 "z"%char in
  let R := Demo.L "abc" in
  let rest := Demo.L "de" ++ [null] in
  let q1 := snd (fst (pop q s 4)) in
  (wf q /\ contents q = R ++ null :: rest /\ null_free R
   /\ Z.of_nat (length R) = 4 - 1 /\ 4 <= Z.of_nat (length s)
   /\ 2 <= 4 <= Z.of_nat (length s))
  /\ fst (fst (pop q s 4)) = 1
  /\ cstr (snd (pop q s 4)) = R
  /\ contents q1 = null :: rest
  /\ used q1 = used q - Z.of_nat (length R)
  /\ fst (fst (pop q1 s 4)) = 1
  /\ cstr (snd (pop q1 s 4)) = []
  /\ contents (snd (fst (pop q1 s 4))) = rest.
Proof.
  cbv zeta. set (q := push_all _ _).
  assert (H1 : wf q).
  { apply push_all_spec; [apply QueueFacts.ctor_wf; lia| |].
    - repeat constructor; discriminate.
    - vm_compute. discriminate. }
  assert (H2 : contents q = Demo.L "abc" ++ null :: Demo.L "de" ++ [null])
    by reflexivity.
  assert (H3 : null_free (Demo.L "abc"))
    by (repeat constructor; discriminate).
  assert (H4 : Z.of_nat (length (Demo.L "abc")) = 4 - 1) by reflexivity.
  assert (H5 : 4 <= Z.of_nat (length (replicate 4 "z"%char)))
    by (simpl; lia).
  assert (H6 : 2 <= 4 <= Z.of_nat (length (replicate 4 "z"%char)))
    by (simpl; lia).
  split; [repeat (split; [assumption|]); assumption|].
  exact (X4_record_that_just_fits_leaves_its_terminator q
           (replicate 4 "z"%char) (replicate 4 "z"%char) (Demo.L "abc")
           (Demo.L "de" ++ [null]) 4 4 H1 H2 H3 H4 H5 H6).
Defined.

(** X5.  A queue of capacity [maxsize] never takes a record of
    [maxsize - 1] characters or more, whatever it holds; and once
    [makeEmpty] has run it holds nothing, [pop] fails on it, and [push]
    takes a record exactly when it has at most [maxsize - 2]
    characters. *)
Theorem X5_largest_record_and_make_empty
    (q : StrQueue) (s dst : list ascii) (maxlen : Z) :
  wf q ->
  (strlen s >= maxsize q - 1 -> push q s = (0, q))
  /\ wf (makeEmpty q)
  /\ contents (makeEmpty q) = []
  /\ available (makeEmpty q) = size q - 1
  /\ fst (fst (pop (makeEmpty q) dst maxlen)) = 0
  /\ (fst (push (makeEmpty q) s) = 1 <-> strlen s <= maxsize q - 2).
Proof.
  intros Hwf. pose proof (QueueFacts.used_range q Hwf) as Hu.
  assert (We : wf (makeEmpty q)).
  { destruct Hwf as [? ? ? ?]. constructor; simpl; lia. }
  assert (Ae : available (makeEmpty q) = maxsize q - 1).
  { unfold available, used, makeEmpty. simpl. lia. }
  split.
  { intros Hs. apply QueueFacts.push_full. unfold available. lia. }
  split; [exact We|]. split; [reflexivity|]. split; [exact Ae|]. split.
  { unfold pop. destruct (maxlen <? 1); reflexivity. }
  split.
  - intros H1. destruct (Z_le_gt_dec (strlen s + 1) (maxsize q - 1)) as [H|H];
      [lia|].
    rewrite QueueFacts.push_full in H1 by (rewrite Ae; lia). discriminate.
  - intros Hs. apply QueueFacts.push_fits; [exact We|rewrite Ae; lia].
Qed.

Lemma X5_witness :
  let q := push_all [Demo.L "abc"] (ctor (fun _ => "x"%char) 8) in
  let s := Demo.L "1234567" in
  let dst := replicate 4 null in
  wf q
  /\ (strlen s >= maxsize q - 1 -> push q s = (0, q))
  /\ wf (makeEmpty q)
  /\ contents (makeEmpty q) = []
  /\ available (makeEmpty q) = size q - 1
  /\ fst (fst (pop (makeEmpty q) dst 4)) = 0
  /\ (fst (push (makeEmpty q) s) = 1 <-> strlen s <= maxsize q - 2).
Proof.
  cbv zeta. set (q := push_all _ _).
  assert (H1 : wf q).
  { apply push_all_spec; [apply QueueFacts.ctor_wf; lia| |].
    - repeat constructor; discriminate.
    - vm_compute. discriminate. }
  split; [exact H1|].
  exact (X5_largest_record_and_make_empty q (Demo.L "1234567")
           (replicate 4 null) 4 H1).
Defined.

(** [push]'s loop leaves the character after the ring as it is, and
    [pop] leaves the whole buffer as it is. *)
Lemma push_loop_spare (k : nat) :
  forall (i : Z) (s : list ascii) (q : StrQueue),
    wf q ->
    buf (push_loop k i s q) !! Z.to_nat (maxsize q)
    = buf q !! Z.to_nat (maxsize q).
Proof.
  induction k as [|k IH]; intros i s q Hwf; [reflexivity|].
  cbn [push_loop].
  pose proof (IH (i + 1) s (put q (char_at s i))
                (QueueFacts.put_wf q (char_at s i) Hwf)) as H.
  change (maxsize (put q (char_at s i))) with (maxsize q) in H.
  rewrite H. destruct Hwf as [? ? ? ?]. unfold put, store. cbn [buf].
  apply list_lookup_insert_ne. lia.
Qed.

Lemma pop_loop_buf (k : nat) :
  forall (i maxlen : Z) (q : StrQueue) (s : list ascii),
    buf (fst (pop_loop k i maxlen q s)) = buf q
    /\ wrptr (fst (pop_loop k i maxlen q s)) = wrptr q.
Proof.
  induction k as [|k IH]; intros i maxlen q s; [now split|].
  cbn [pop_loop].
  assert (Hg : buf (snd (get q)) = buf q /\ wrptr (snd (get q)) = wrptr q)
    by now split.
  destruct (get q) as [c q1]. cbn [snd] in Hg.
  destruct (is_null c); [exact Hg|].
  destruct (rdptr q1 =? wrptr q1); [exact Hg|].
  destruct (i =? maxlen - 2); [exact Hg|].
  destruct (IH (i + 1) maxlen q1 (store s i c)) as [B W].
  destruct Hg as [B1 W1]. split; congruence.
Qed.

Lemma pop_buf (q : StrQueue) (s : list ascii) (maxlen : Z) :
  buf (snd (fst (pop q s maxlen))) = buf q
  /\ wrptr (snd (fst (pop q s maxlen))) = wrptr q.
Proof.
  unfold pop. destruct (maxlen <? 1); [now split|].
  destruct (isEmpty q); [now split|].
  pose proof (pop_loop_buf (Z.to_nat (maxlen - 1)) 0 maxlen q
                (store s 0 null)) as H.
  destruct (pop_loop _ _ _ _ _) as [q' s']. exact H.
Qed.

(** X6.  Whatever pushes and pops a queue built with capacity [nsize]
    has gone through, both cursors are within 0..[nsize - 1] and the
    buffer has its [nsize + 1] characters, so that every [buf[wrptr]]
    and [buf[rdptr]] is inside the buffer; the last character of the
    buffer, [buf[nsize]], is never written: it is still what the
    allocator left there. *)
Theorem X6_cursors_in_bounds_and_spare_byte_unused
    (junk : nat -> ascii) (nsize : Z) (ops : list Op) :
  0 < nsize ->
  let q := run_ops ops (ctor junk nsize) in
  0 <= rdptr q < nsize
  /\ 0 <= wrptr q < nsize
  /\ Z.of_nat (length (buf q)) = nsize + 1
  /\ buf q !! Z.to_nat nsize = Some (junk (Z.to_nat nsize)).
Proof.
  intros Hn q.
  assert (Hwf : wf q) by (apply QueueFacts.run_ops_wf, QueueFacts.ctor_wf, Hn).
  assert (Hm : maxsize q = nsize) by apply QueueFacts.run_ops_maxsize.
  destruct Hwf as [? Hr Hw Hb]. rewrite Hm in Hr, Hw, Hb.
  split; [exact Hr|]. split; [exact Hw|]. split; [exact Hb|].
  assert (H : forall q0 : StrQueue,
             wf q0 ->
             buf (run_ops ops q0) !! Z.to_nat (maxsize q0)
             = buf q0 !! Z.to_nat (maxsize q0)).
  { unfold run_ops. clear. induction ops as [|o ops IH]; intros q0 Hwf;
      [reflexivity|].
    cbn [fold_left]. destruct o as [s|s maxlen]; cbn [apply_op].
    - rewrite <- (QueueFacts.push_maxsize q0 s).
      rewrite IH by now apply QueueFacts.push_wf.
      rewrite QueueFacts.push_maxsize. unfold push.
      destruct (_ >? _); [reflexivity|]. now apply push_loop_spare.
    - rewrite <- (QueueFacts.pop_maxsize q0 s maxlen).
      rewrite IH by now apply QueueFacts.pop_wf.
      rewrite QueueFacts.pop_maxsize.
      now rewrite (proj1 (pop_buf q0 s maxlen)). }
  unfold q. rewrite <- Hm at 1. unfold q.
  rewrite QueueFacts.run_ops_maxsize.
  rewrite (H (ctor junk nsize)) by now apply QueueFacts.ctor_wf.
  cbn [ctor buf maxsize]. unfold new_char.
  rewrite list_lookup_fmap, lookup_seq_lt by lia. reflexivity.
Qed.

Lemma X6_witness :
  0 < 8
  /\ let q :=
       run_ops [OpPush (Demo.L "abcde"); OpPop (replicate 8 null) 8;
                OpPush (Demo.L "fghij")]
         (ctor (fun _ => "x"%char) 8) in
     0 <= rdptr q < 8
     /\ 0 <= wrptr q < 8
     /\ Z.of_nat (length (buf q)) = 8 + 1
     /\ buf q !! Z.to_nat 8 = Some "x"%char.
Proof.
  split; [lia|].
  apply (X6_cursors_in_bounds_and_spare_byte_unused (fun _ => "x"%char) 8).
  lia.
Defined.

End QueueMore.

(** ** More about the configuration-line parser *)

Module ValueMore.
Import ValueToRead.

Lemma commas_in_cons (c : ascii) (l : list ascii) :
  commas_in (c :: l)
  = if Ascii.eqb c comma then S (commas_in l) else commas_in l.
Proof.
  unfold commas_in. rewrite filter_cons.
  destruct (Ascii.eqb c comma).
  - now rewrite decide_True.
  - now rewrite decide_False.
Qed.

Lemma find_comma_cstr (rest : list ascii) :
  forall chloc : Z, find_comma rest chloc = find_comma (cstr rest) chloc.
Proof.
  induction rest as [|c rest IH]; intros chloc; [reflexivity|].
  cbn [find_comma cstr]. destruct (is_null c) eqn:E; [reflexivity|].
  cbn [find_comma]. rewrite E. destruct (Ascii.eqb c comma); [reflexivity|].
  apply IH.
Qed.

Lemma cstr_drop (s : list ascii) :
  forall n : nat,
    (n <= length (cstr s))%nat -> cstr (drop n s) = drop n (cstr s).
Proof.
  induction s as [|c s IH]; intros n Hn; [now destruct n|].
  destruct n as [|n]; [reflexivity|].
  cbn [cstr] in *. destruct (is_null c); [simpl in Hn; lia|].
  cbn [drop length] in *. apply IH. lia.
Qed.

Lemma find_comma_none (l : list ascii) :
  null_free l -> commas_in l = 0%nat ->
  forall chloc : Z,
    find_comma l chloc = (-1, (chloc + Z.of_nat (length l) + 1, true)).
Proof.
  unfold null_free. induction 1 as [|c l Hc _ IH]; intros H0 chloc.
  - simpl. now rewrite Z.add_0_r.
  - cbn [find_comma]. apply is_null_false in Hc. rewrite Hc.
    rewrite commas_in_cons in H0.
    destruct (Ascii.eqb c comma); [discriminate|].
    rewrite IH by exact H0. cbn [length]. rewrite Nat2Z.inj_succ.
    f_equal. f_equal. lia.
Qed.

(** A string either has no comma, or starts with a field followed by a
    comma. *)
Lemma split_comma (l : list ascii) :
  null_free l ->
  commas_in l = 0%nat
  \/ exists x y : list ascii,
       l = x ++ comma :: y /\ field x /\ null_free y
       /\ commas_in l = S (commas_in y).
Proof.
  unfold null_free. induction 1 as [|c l Hc Hl IH]; [now left|].
  rewrite commas_in_cons. destruct (Ascii.eqb c comma) eqn:Hd.
  - right. apply Ascii.eqb_eq in Hd. subst c. exists [], l.
    split; [reflexivity|]. split; [constructor|]. now split.
  - apply Ascii.eqb_neq in Hd.
    destruct IH as [H0 | (x & y & -> & Hx & Hy & Hn)]; [now left|].
    right. exists (c :: x), y. split; [reflexivity|].
    split; [now constructor|]. now split.
Qed.

(** One round of the comma scan, started where the string [y] begins. *)
Lemma next_comma_none (s pre y : list ascii) (chloc : Z) :
  chloc = Z.of_nat (length pre) ->
  cstr s = pre ++ y -> commas_in y = 0%nat ->
  exists chloc' : Z, next_comma s (chloc, false) = (-1, (chloc', true)).
Proof.
  intros -> Hs H0. unfold next_comma. rewrite Nat2Z.id.
  rewrite find_comma_cstr, cstr_drop by (rewrite Hs, length_app; lia).
  rewrite Hs, drop_app_length. eexists. apply find_comma_none; [|exact H0].
  pose proof (cstr_null_free s) as H. rewrite Hs in H.
  unfold null_free in *. now apply Forall_app in H.
Qed.

Lemma next_comma_some (s pre x y : list ascii) (chloc : Z) :
  chloc = Z.of_nat (length pre) ->
  cstr s = pre ++ x ++ comma :: y -> field x ->
  next_comma s (chloc, false)
  = (chloc + Z.of_nat (length x), (chloc + Z.of_nat (length x) + 1, false)).
Proof.
  intros -> Hs Hx. unfold next_comma. rewrite Nat2Z.id.
  rewrite find_comma_cstr, cstr_drop by (rewrite Hs, length_app; lia).
  now rewrite Hs, drop_app_length, ValueFacts.find_comma_field.
Qed.

(** Which of the four commas the scan finds, by the number of commas in
    the line. *)
Lemma commaLocs_count (s : list ascii) :
  let '(c0, c1, c2, c3) := commaLocs s in
  (c0 <? 0) = (count_commas s <? 1)%nat
  /\ (c1 <? 0) = (count_commas s <? 2)%nat
  /\ (c2 <? 0) = (count_commas s <? 3)%nat
  /\ (c3 <? 0) = (count_commas s <? 4)%nat.
Proof.
  unfold commaLocs, count_commas.
  pose proof (cstr_null_free s) as Hnf.
  assert (P : forall (a : Z) (z : nat),
             0 <= a -> (a + Z.of_nat z <? 0) = false).
  { intros a z Ha. apply Z.ltb_ge. lia. }
  destruct (split_comma (cstr s) Hnf) as [H0 | (x0 & y0 & E0 & F0 & N0 & C0)].
  { destruct (next_comma_none s [] (cstr s) 0 eq_refl eq_refl H0) as [ch ->].
    cbn [next_comma]. rewrite H0. now repeat split. }
  rewrite (next_comma_some s [] x0 y0 0 eq_refl E0 F0), C0.
  cbv beta iota.
  set (n1 := 0 + Z.of_nat (length x0) + 1).
  assert (L1 : n1 = Z.of_nat (length (x0 ++ [comma]))).
  { unfold n1. rewrite length_app. cbn [length]. lia. }
  assert (S1 : cstr s = (x0 ++ [comma]) ++ y0).
  { rewrite E0, <- app_assoc. reflexivity. }
  destruct (split_comma y0 N0) as [H1 | (x1 & y1 & E1 & F1 & N1 & C1)].
  { destruct (next_comma_none s _ y0 n1 L1 S1 H1) as [ch ->].
    cbn [next_comma]. rewrite H1, P by lia. now repeat split. }
  rewrite E1 in S1.
  rewrite (next_comma_some s _ x1 y1 n1 L1 S1 F1), C1.
  cbv beta iota.
  set (n2 := n1 + Z.of_nat (length x1) + 1).
  assert (L2 : n2 = Z.of_nat (length ((x0 ++ [comma]) ++ x1 ++ [comma]))).
  { unfold n2. rewrite L1, !length_app. cbn [length]. lia. }
  assert (S2 : cstr s = ((x0 ++ [comma]) ++ x1 ++ [comma]) ++ y1).
  { rewrite S1, <- !app_assoc. reflexivity. }
  destruct (split_comma y1 N1) as [H2 | (x2 & y2 & E2 & F2 & N2 & C2)].
  { destruct (next_comma_none s _ y1 n2 L2 S2 H2) as [ch ->].
    cbn [next_comma]. rewrite H2, !P by lia. now repeat split. }
  rewrite E2 in S2.
  rewrite (next_comma_some s _ x2 y2 n2 L2 S2 F2), C2.
  cbv beta iota.
  set (n3 := n2 + Z.of_nat (length x2) + 1).
  assert (L3 : n3 = Z.of_nat (length (((x0 ++ [comma]) ++ x1 ++ [comma])
                                        ++ x2 ++ [comma]))).
  { unfold n3. rewrite L2, !length_app. cbn [length]. lia. }
  assert (S3 : cstr s = (((x0 ++ [comma]) ++ x1 ++ [comma])
                           ++ x2 ++ [comma]) ++ y2).
  { rewrite S2, <- !app_assoc. reflexivity. }
  destruct (split_comma y2 N2) as [H3 | (x3 & y3 & E3 & F3 & N3 & C3)].
  { destruct (next_comma_none s _ y2 n3 L3 S3 H3) as [ch ->].
    rewrite H3, !P by lia. now repeat split. }
  rewrite E3 in S3.
  rewrite (next_comma_some s _ x3 y3 n3 L3 S3 F3), C3.
  cbv beta iota. rewrite !P by lia. now repeat split.
Qed.

(** X7.  The message of [set] tells which comma is missing: a line whose
    string has no comma gives the first-comma error and leaves the entry
    as it was, one, two or three commas give the second-, third- and
    fourth-comma error, and four commas or more give [OK]. *)
Theorem X7_set_reports_the_first_missing_comma
    (v : ValueToRead) (s : list ascii) :
  fst (set v s)
  = match count_commas s with
    | 0%nat => msg_comma1
    | 1%nat => msg_comma2
    | 2%nat => msg_comma3
    | 3%nat => msg_comma4
    | _ => msg_OK
    end
  /\ (count_commas s = 0%nat -> snd (set v s) = v).
Proof.
  pose proof (commaLocs_count s) as H. unfold set.
  destruct (commaLocs s) as [[[c0 c1] c2] c3].
  destruct H as (H0 & H1 & H2 & H3). rewrite H0, H1, H2, H3.
  destruct (count_commas s) as [|[|[|[|n]]]]; cbn; split;
    try reflexivity; discriminate.
Qed.

Lemma X7_witness :
  let v := ctor (fun _ => "x"%char) in
  let s := Demo.L "no commas here" in
  count_commas s = 0%nat
  /\ fst (set v s) = msg_comma1
  /\ snd (set v s) = v.
Proof.
  cbv zeta. split; [reflexivity|]. split.
  - exact (proj1 (X7_set_reports_the_first_missing_comma
                    (ctor (fun _ => "x"%char)) (Demo.L "no commas here"))).
  - exact (proj2 (X7_set_reports_the_first_missing_comma
                    (ctor (fun _ => "x"%char)) (Demo.L "no commas here"))
             eq_refl).
Defined.

(** Writing into the middle of a line, and pointing into it. *)
Lemma store_mid (a b : list ascii) (c x : ascii) (i : Z) :
  i = Z.of_nat (length a) -> store (a ++ c :: b) i x = a ++ x :: b.
Proof.
  intros ->. unfold store. rewrite Nat2Z.id.
  rewrite insert_app_r_alt by lia. now rewrite Nat.sub_diag.
Qed.

Lemma from_mid (a b : list ascii) (i : Z) :
  i = Z.of_nat (length a) -> from (a ++ b) i = b.
Proof. intros ->. unfold from. rewrite Nat2Z.id. apply drop_app_length. Qed.

(** The length of a line made of pieces. *)
Ltac lens :=
  repeat first [rewrite length_app | progress cbn [length]]; lia.

(** The line as [set] leaves it, and the places its fields start at. *)
Lemma line_after_set (tag num dev svc chr : list ascii) :
  let s := tag ++ comma :: num ++ comma :: dev ++ comma :: svc
             ++ comma :: chr in
  let n0 := Z.of_nat (length tag) in
  let n1 := n0 + 1 + Z.of_nat (length num) in
  let n2 := n1 + 1 + Z.of_nat (length dev) in
  let n3 := n2 + 1 + Z.of_nat (length svc) in
  let s1 := store s n0 null in
  let s2 := store s1 n1 null in
  let s3 := store s2 n2 null in
  let s4 := store s3 n3 null in
  from s1 0 = tag ++ null :: num ++ comma :: dev ++ comma :: svc
                ++ comma :: chr
  /\ from s3 (n1 + 1) = dev ++ null :: svc ++ comma :: chr
  /\ from s4 (n2 + 1) = svc ++ null :: chr
  /\ from s4 (n3 + 1) = chr.
Proof.
  intros s n0 n1 n2 n3 s1 s2 s3 s4.
  assert (E1 : s1 = tag ++ null :: num ++ comma :: dev ++ comma :: svc
                      ++ comma :: chr).
  { unfold s1, s. now apply store_mid. }
  assert (E2 : s2 = (tag ++ null :: num) ++ null :: dev ++ comma :: svc
                      ++ comma :: chr).
  { unfold s2. rewrite E1.
    replace (tag ++ null :: num ++ comma :: dev ++ comma :: svc
               ++ comma :: chr)
      with ((tag ++ null :: num) ++ comma :: dev ++ comma :: svc
              ++ comma :: chr) by now rewrite <- app_assoc.
    apply store_mid. unfold n1, n0. lens. }
  assert (E3 : s3 = ((tag ++ null :: num) ++ null :: dev) ++ null :: svc
                      ++ comma :: chr).
  { unfold s3. rewrite E2.
    replace ((tag ++ null :: num) ++ null :: dev ++ comma :: svc
               ++ comma :: chr)
      with (((tag ++ null :: num) ++ null :: dev) ++ comma :: svc
              ++ comma :: chr) by now rewrite <- (app_assoc _ _ (_ :: _)).
    apply store_mid. unfold n2, n1, n0. lens. }
  assert (E4 : s4 = (((tag ++ null :: num) ++ null :: dev) ++ null :: svc)
                      ++ null :: chr).
  { unfold s4. rewrite E3.
    replace (((tag ++ null :: num) ++ null :: dev) ++ null :: svc
               ++ comma :: chr)
      with ((((tag ++ null :: num) ++ null :: dev) ++ null :: svc)
              ++ comma :: chr) by now rewrite <- (app_assoc _ _ (_ :: _)).
    apply store_mid. unfold n3, n2, n1, n0. lens. }
  split; [rewrite E1; reflexivity|]. split; [|split].
  - rewrite E3.
    replace (((tag ++ null :: num) ++ null :: dev) ++ null :: svc
               ++ comma :: chr)
      with ((tag ++ null :: num ++ [null])
              ++ dev ++ null :: svc ++ comma :: chr).
    + apply from_mid. unfold n1, n0. lens.
    + rewrite <- !app_assoc. cbn [app]. rewrite <- app_assoc. reflexivity.
  - rewrite E4.
    replace ((((tag ++ null :: num) ++ null :: dev) ++ null :: svc)
               ++ null :: chr)
      with ((tag ++ null :: num ++ null :: dev ++ [null])
              ++ svc ++ null :: chr).
    + apply from_mid. unfold n2, n1, n0. lens.
    + rewrite <- !app_assoc. cbn [app]. rewrite <- !app_assoc. cbn [app].
      rewrite <- !app_assoc. reflexivity.
  - rewrite E4.
    replace ((((tag ++ null :: num) ++ null :: dev) ++ null :: svc)
               ++ null :: chr)
      with (((((tag ++ null :: num) ++ null :: dev) ++ null :: svc)
               ++ [null]) ++ chr) by now rewrite <- (app_assoc _ [null]).
    apply from_mid. unfold n3, n2, n1, n0. lens.
Qed.

(** X8.  On a line of five fields whose tag has fewer than 63
    characters and whose three identifiers have fewer than 37, [set]
    leaves in the entry the tag, the device identifier, the service
    identifier and the characteristic identifier as terminated strings
    equal to the fields, and does not touch the resolved address, the
    connect counter or the error word. *)
Theorem X8_set_stores_the_fields_of_a_line
    (v : ValueToRead) (tag num dev svc chr : list ascii) :
  field tag -> field num -> field dev -> field svc ->
  (length tag < 63)%nat -> (length dev < 37)%nat ->
  (length svc < 37)%nat -> (length (cstr chr) < 37)%nat ->
  let v' :=
    snd (set v (tag ++ comma :: num ++ comma :: dev ++ comma :: svc
                  ++ comma :: chr)) in
  cstr (valueTag v') = tag
  /\ cstr (deviceId v') = dev
  /\ cstr (serviceUuid v') = svc
  /\ cstr (characteristicUuid v') = cstr chr
  /\ deviceAddr v' = deviceAddr v
  /\ connects v' = connects v
  /\ errors v' = errors v.
Proof.
  intros Ft Fn Fd Fs Lt Ld Ls Lc v'. unfold v', set.
  rewrite ValueFacts.commaLocs_line by assumption. cbv zeta.
  destruct (line_after_set tag num dev svc chr) as (T & D & S & C).
  cbv zeta in T, D, S, C.
  repeat match goal with
  | |- context [?x <? 0] => destruct (Z.ltb_spec x 0) as [Hneg|_]; [lia|]
  end.
  cbn [snd valueTag deviceId serviceUuid characteristicUuid deviceAddr
       connects errors with_valueTag with_minutesBetweenReads
       with_deviceId with_serviceUuid with_characteristicUuid].
  rewrite T, D, S, C.
  pose proof (ValueFacts.field_null_free tag Ft) as Nt.
  pose proof (ValueFacts.field_null_free dev Fd) as Nd.
  pose proof (ValueFacts.field_null_free svc Fs) as Ns.
  split; [|split; [|split; [|split; [|now repeat split]]]].
  - rewrite cstr_strncpy; rewrite cstr_app_null by assumption;
      [reflexivity|lia].
  - rewrite cstr_strncpy; rewrite cstr_app_null by assumption;
      [reflexivity|lia].
  - rewrite cstr_strncpy; rewrite cstr_app_null by assumption;
      [reflexivity|lia].
  - rewrite cstr_strncpy; [reflexivity|lia].
Qed.

Lemma field_text (x : string) :
  forallb (fun c => negb (Ascii.eqb c null) && negb (Ascii.eqb c comma))
    (list_ascii_of_string x) = true ->
  field (list_ascii_of_string x).
Proof.
  intros H. unfold field. apply Forall_forall. intros c Hc.
  apply list_elem_of_In in Hc.
  pose proof (proj1 (forallb_forall _ _) H c Hc) as Hb.
  apply andb_prop in Hb as [H1 H2]. apply negb_true_iff in H1, H2.
  now apply Ascii.eqb_neq in H1, H2.
Qed.

Lemma X8_witness :
  let v := ctor (fun _ => "x"%char) in
  let tag := Demo.L "Tank" in
  let num := Demo.L "15" in
  let dev := Demo.L "11:22:33:44:55:66" in
  let svc := Demo.L "b7972d95-e930-4144-beb0-6a6e8b9a3d23" in
  let chr := Demo.L "20b5e09a-f998-47f0-aae3-4b361ebc8233" in
  let v' :=
    snd (set v (tag ++ comma :: num ++ comma :: dev ++ comma :: svc
                  ++ comma :: chr)) in
  (field tag /\ field num /\ field dev /\ field svc
   /\ (length tag < 63)%nat /\ (length dev < 37)%nat
   /\ (length svc < 37)%nat /\ (length (cstr chr) < 37)%nat)
  /\ cstr (valueTag v') = tag
  /\ cstr (deviceId v') = dev
  /\ cstr (serviceUuid v') = svc
  /\ cstr (characteristicUuid v') = cstr chr
  /\ deviceAddr v' = deviceAddr v
  /\ connects v' = connects v
  /\ errors v' = errors v.
Proof.
  cbv zeta.
  assert (H1 : field (Demo.L "Tank")) by (apply field_text; reflexivity).
  assert (H2 : field (Demo.L "15")) by (apply field_text; reflexivity).
  assert (H3 : field (Demo.L "11:22:33:44:55:66"))
    by (apply field_text; reflexivity).
  assert (H4 : field (Demo.L "b7972d95-e930-4144-beb0-6a6e8b9a3d23"))
    by (apply field_text; reflexivity).
  assert (H5 : (length (Demo.L "Tank") < 63)%nat) by (simpl; lia).
  assert (H6 : (length (Demo.L "11:22:33:44:55:66") < 37)%nat)
    by (simpl; lia).
  assert (H7 : (length (Demo.L "b7972d95-e930-4144-beb0-6a6e8b9a3d23")
                < 37)%nat) by (simpl; lia).
  assert (H8 : (length (cstr (Demo.L "20b5e09a-f998-47f0-aae3-4b361ebc8233"))
                < 37)%nat) by (simpl; lia).
  split; [repeat (split; [assumption|]); assumption|].
  exact (X8_set_stores_the_fields_of_a_line (ctor (fun _ => "x"%char))
           (Demo.L "Tank") (Demo.L "15") (Demo.L "11:22:33:44:55:66")
           (Demo.L "b7972d95-e930-4144-beb0-6a6e8b9a3d23")
           (Demo.L "20b5e09a-f998-47f0-aae3-4b361ebc8233")
           H1 H2 H3 H4 H5 H6 H7 H8).
Defined.

Lemma cstr_app_field (a b : list ascii) :
  null_free a -> cstr (a ++ b) = a ++ cstr b.
Proof.
  unfold null_free. induction 1 as [|c a Hc _ IH]; [reflexivity|].
  cbn [app cstr]. apply is_null_false in Hc. now rewrite Hc, IH.
Qed.

(** X9.  A tag of 63 characters or more is cut to 63 and is not
    terminated by [set]: the last character of [valueTag] is not
    written, so that in an entry fresh from the constructor it is what
    the allocator left there, and the string does not end within the
    array unless that happens to be ['\0']. *)
Theorem X9_long_tag_is_cut_and_left_unterminated
    (junk : nat -> ascii) (tag rest : list ascii) :
  field tag -> (63 <= length tag)%nat ->
  let v' := snd (set (ctor junk) (tag ++ comma :: rest)) in
  valueTag v' = take 63 tag ++ [junk 63%nat]
  /\ (junk 63%nat <> null -> null_free (valueTag v')).
Proof.
  intros Ft Lt v'.
  pose proof (ValueFacts.field_null_free tag Ft) as Nt.
  assert (Hv : valueTag v' = take 63 tag ++ [junk 63%nat]).
  { unfold v', set, commaLocs.
    rewrite (next_comma_some (tag ++ comma :: rest) [] tag
               (cstr rest) 0 eq_refl);
      [|rewrite cstr_app_field by assumption; reflexivity|exact Ft].
    cbv beta iota.
    destruct (next_comma _ _) as [c1 st1].
    destruct (next_comma _ st1) as [c2 st2].
    destruct (next_comma _ st2) as [c3 st3].
    destruct (Z.ltb_spec (0 + Z.of_nat (length tag)) 0) as [Hneg|_]; [lia|].
    cbv zeta.
    assert (E : valueTag
                  (with_valueTag (ctor junk)
                     (strncpy (valueTag (ctor junk))
                        (from (store (tag ++ comma :: rest)
                                 (0 + Z.of_nat (length tag)) null) 0) 63))
                = take 63 tag ++ [junk 63%nat]).
    { cbn [valueTag with_valueTag]. rewrite store_mid by lia.
      unfold from, strncpy. rewrite drop_0, cstr_app_null by assumption.
      rewrite take_app_le by lia. reflexivity. }
    destruct (c1 <? 0); [exact E|].
    destruct (c2 <? 0); [exact E|].
    destruct (c3 <? 0); exact E. }
  split; [exact Hv|]. intros Hj. rewrite Hv. unfold null_free.
  apply Forall_app. split.
  - now apply Forall_take.
  - now repeat constructor.
Qed.

Lemma X9_witness :
  let tag :=
    Demo.L
      "0123456789012345678901234567890123456789012345678901234567890123456789" in
  let v' :=
    snd (set (ctor (fun _ => "x"%char)) (tag ++ comma :: Demo.L "5,d,s,c")) in
  (field tag /\ (63 <= length tag)%nat)
  /\ valueTag v' = take 63 tag ++ ["x"%char]
  /\ ("x"%char <> null -> null_free (valueTag v')).
Proof.
  cbv zeta.
  assert (H1 : field
                 (Demo.L
                    "0123456789012345678901234567890123456789012345678901234567890123456789"))
    by (apply field_text; reflexivity).
  assert (H2 : (63 <= length
                        (Demo.L
                           "0123456789012345678901234567890123456789012345678901234567890123456789"))%nat)
    by (simpl; lia).
  split; [now split|].
  exact (X9_long_tag_is_cut_and_left_unterminated (fun _ => "x"%char)
           (Demo.L
              "0123456789012345678901234567890123456789012345678901234567890123456789")
           (Demo.L "5,d,s,c") H1 H2).
Defined.

End ValueMore.

(** ** More about the sketch *)

Module BridgeMore.
Import Bridge.

Lemma strncpy_again (dst a b : list ascii) (n : Z) :
  strncpy (strncpy dst a n) b n = strncpy dst b n.
Proof.
  unfold strncpy. f_equal. apply drop_app_length'.
  rewrite length_take, length_app, length_replicate. lia.
Qed.

(** X10.  A scan result resolves every entry whose device identifier is
    the advertised name or the advertised address, and only those: such
    an entry's resolved address becomes the advertised address (any
    address of fewer than 18 characters), whatever it was before; the
    other entries, and every other member of the resolved ones, are left
    as they were.  Reporting the same result twice changes nothing
    more. *)
Theorem X10_scan_result_resolves_matching_entries
    (devName devAddr : list ascii) (vals : list ValueToRead.ValueToRead) :
  onResult devName devAddr (onResult devName devAddr vals)
  = onResult devName devAddr vals
  /\ length (onResult devName devAddr vals) = length vals
  /\ forall (i : nat) (p p' : ValueToRead.ValueToRead),
       vals !! i = Some p ->
       onResult devName devAddr vals !! i = Some p' ->
       p' = ValueToRead.with_deviceAddr p (ValueToRead.deviceAddr p')
       /\ (cstr (ValueToRead.deviceId p) = devName
           \/ cstr (ValueToRead.deviceId p) = devAddr ->
           (length (cstr devAddr) < 18)%nat ->
           cstr (ValueToRead.deviceAddr p') = cstr devAddr)
       /\ (cstr (ValueToRead.deviceId p) <> devName ->
           cstr (ValueToRead.deviceId p) <> devAddr -> p' = p).
Proof.
  split; [|split].
  - unfold onResult. rewrite <- list_fmap_compose.
    apply list_fmap_ext. intros _ p _. cbn [compose].
    destruct (str_eqb (cstr (ValueToRead.deviceId p)) devName
              || str_eqb (cstr (ValueToRead.deviceId p)) devAddr) eqn:E.
    + cbn [ValueToRead.deviceId ValueToRead.with_deviceAddr]. rewrite E.
      unfold ValueToRead.with_deviceAddr. cbn. now rewrite strncpy_again.
    + now rewrite E.
  - unfold onResult. apply length_fmap.
  - intros i p p' Hp Hp'. unfold onResult in Hp'.
    rewrite list_lookup_fmap, Hp in Hp'.
    cbn [fmap option_fmap option_map] in Hp'.
    injection Hp' as <-. unfold str_eqb.
    repeat case_bool_decide; cbn [orb].
    all: split; [now destruct p|].
    all: split; [|intros H1 H2; congruence].
    all: intros Hm Hl; cbn [ValueToRead.deviceAddr
                            ValueToRead.with_deviceAddr].
    all: try (apply cstr_strncpy; lia).
    destruct Hm; congruence.
Qed.

Lemma X10_witness :
  let vals := vals2read Demo.start in
  let devName := Demo.L "dev" in
  let devAddr := Demo.L "aa:bb:cc:dd:ee:ff" in
  let p := snd (ValueToRead.set (ValueToRead.ctor (fun _ => "x"%char))
                  (Demo.readKey 1)) in
  (vals !! 0%nat = Some p
   /\ onResult devName devAddr vals !! 0%nat = Some Demo.entry
   /\ cstr (ValueToRead.deviceId p) = devName
   /\ (length (cstr devAddr) < 18)%nat)
  /\ onResult devName devAddr (onResult devName devAddr vals)
     = onResult devName devAddr vals
  /\ length (onResult devName devAddr vals) = length vals
  /\ Demo.entry
     = ValueToRead.with_deviceAddr p (ValueToRead.deviceAddr Demo.entry)
  /\ cstr (ValueToRead.deviceAddr Demo.entry) = cstr devAddr.
Proof.
  cbv zeta.
  set (p := snd (ValueToRead.set _ _)).
  assert (H1 : vals2read Demo.start !! 0%nat = Some p)
    by (vm_compute; reflexivity).
  assert (H2 : onResult (Demo.L "dev") (Demo.L "aa:bb:cc:dd:ee:ff")
                 (vals2read Demo.start) !! 0%nat = Some Demo.entry)
    by (vm_compute; reflexivity).
  assert (H3 : cstr (ValueToRead.deviceId p) = Demo.L "dev")
    by (vm_compute; reflexivity).
  assert (H4 : (length (cstr (Demo.L "aa:bb:cc:dd:ee:ff")) < 18)%nat)
    by (simpl; lia).
  destruct (X10_scan_result_resolves_matching_entries (Demo.L "dev")
              (Demo.L "aa:bb:cc:dd:ee:ff") (vals2read Demo.start))
    as (I & L & P).
  destruct (P 0%nat p Demo.entry H1 H2) as (E & A & _).
  split; [now repeat split|].
  split; [exact I|]. split; [exact L|]. split; [exact E|].
  exact (A (or_introl H3) H4).
Defined.

(** *** What a pass keeps *)

Lemma entry_step_refl (p : ValueToRead.ValueToRead) : entry_step p p.
Proof. unfold entry_step. repeat split; lia. Qed.

Lemma read_if_due_step (e : Env) (mc : Z) (i : nat)
    (p : ValueToRead.ValueToRead) (q : StrQueue.StrQueue) (b : list ascii) :
  entry_step p (fst (fst (fst (read_if_due e mc i p q b))))
  /\ ValueToRead.deviceAddr (fst (fst (fst (read_if_due e mc i p q b))))
     = ValueToRead.deviceAddr p.
Proof.
  unfold read_if_due. destruct (due mc p);
    [|split; [apply entry_step_refl|reflexivity]].
  destruct (ble e i) as [val|]; cbn [readValue];
    destruct (StrQueue.push q _) as [sts q1]; cbn [fst];
    (split; [|reflexivity]); unfold entry_step; cbn;
    repeat split; try lia; auto.
Qed.

Lemma read_all_step (e : Env) (mc : Z)
    (vals : list ValueToRead.ValueToRead) :
  forall (i : nat) (q : StrQueue.StrQueue) (b : list ascii),
    Forall2 (fun p p' =>
               entry_step p p'
               /\ ValueToRead.deviceAddr p' = ValueToRead.deviceAddr p)
      vals (fst (fst (fst (read_all e mc i vals q b)))).
Proof.
  induction vals as [|p vals IH]; intros i q b; [constructor|].
  cbn [read_all].
  pose proof (read_if_due_step e mc i p q b) as H1.
  destruct (read_if_due e mc i p q b) as [[[p1 q1] b1] ev1].
  specialize (IH (S i) q1 b1).
  destruct (read_all e mc (S i) vals q1 b1) as [[[rest1 q2] b2] ev2].
  constructor; assumption.
Qed.

Lemma address_step_trans (x y z : ValueToRead.ValueToRead) :
  address_step x y -> address_step y z -> address_step x z.
Proof.
  unfold address_step, entry_step.
  intros ((? & ? & ? & ? & ? & ? & ?) & ? & ?)
         ((? & ? & ? & ? & ? & ? & ?) & ? & ?).
  repeat split; try congruence; lia.
Qed.

Lemma entry_then_address_step (x y z : ValueToRead.ValueToRead) :
  entry_step x y -> address_step y z -> entry_step x z.
Proof.
  unfold address_step, entry_step.
  intros (? & ? & ? & ? & ? & ? & He)
         ((? & ? & ? & ? & ? & ? & ?) & ? & Hz).
  repeat split; try congruence; try lia.
  all: rewrite Hz; exact He.
Qed.

Lemma onResult_step (devName devAddr : list ascii)
    (vals : list ValueToRead.ValueToRead) :
  Forall2 address_step vals (onResult devName devAddr vals).
Proof.
  unfold onResult. apply Forall2_fmap_r, Forall_Forall2_diag, Forall_forall.
  intros p _. cbn [compose].
  destruct (_ || _); unfold address_step, entry_step; cbn;
    repeat split; lia.
Qed.

Lemma scan_step (found : list (list ascii * list ascii)) :
  forall vals : list ValueToRead.ValueToRead,
    Forall2 address_step vals (scan found vals).
Proof.
  unfold scan. induction found as [|d found IH]; intros vals.
  - apply Forall_Forall2_diag, Forall_forall. intros p _.
    unfold address_step. split; [apply entry_step_refl|now split].
  - cbn [fold_left].
    apply (Forall2_trans address_step address_step address_step
             vals (onResult (fst d) (snd d) vals)
             (fold_left (fun vs d0 => onResult (fst d0) (snd d0) vs) found
                (onResult (fst d) (snd d) vals))).
    + exact address_step_trans.
    + apply onResult_step.
    + apply IH.
Qed.

(** X11.  A pass of the loop keeps the table's size and order, and in
    each entry the tag, the three identifiers and the interval; it
    counts at most one more connection for the entry and never fewer,
    and the only change it makes to the error word is to set the
    connect-failed bit: no error bit is ever cleared. *)
Theorem X11_pass_keeps_settings_counts_up_and_errors_stick
    (e : Env) (st : State) :
  Forall2 entry_step (vals2read st) (vals2read (fst (loop_pass e st)))
  /\ length (vals2read (fst (loop_pass e st))) = length (vals2read st)
  /\ Forall2 (fun p p' =>
                Z.land (ValueToRead.errors p') (ValueToRead.errors p)
                = ValueToRead.errors p)
       (vals2read st) (vals2read (fst (loop_pass e st))).
Proof.
  assert (H : Forall2 entry_step (vals2read st)
                (vals2read (fst (loop_pass e st)))).
  { rewrite BridgeFacts.loop_pass_vals. cbv zeta.
    assert (Hm : Forall2 entry_step (vals2read st)
                   (vals2read (fst (minute_tasks e st)))).
    { unfold minute_tasks.
      pose proof (read_all_step e (ulong (minuteCounter st + 1))
                    (vals2read st) 0%nat (measuredData st) (buf st)) as Hr.
      destruct (read_all _ _ _ _ _ _) as [[[v q] b] evs].
      cbn [fst vals2read] in *.
      apply (Forall2_impl _ _ _ _ Hr). now intros p p' [Hs _]. }
    assert (Hi : Forall2 entry_step (vals2read st) (vals2read st)).
    { apply Forall_Forall2_diag, Forall_forall. intros p _.
      apply entry_step_refl. }
    destruct (negb (currentMin e =? lastMin st)).
    - destruct (timeForScan _); [|exact Hm].
      apply (Forall2_trans entry_step address_step entry_step _
               (vals2read (fst (minute_tasks e st))));
        [exact entry_then_address_step|exact Hm|apply scan_step].
    - destruct (timeForScan st); [|exact Hi].
      apply (Forall2_trans entry_step address_step entry_step _
               (vals2read st));
        [exact entry_then_address_step|exact Hi|apply scan_step]. }
  split; [exact H|]. split; [symmetry; now apply Forall2_length in H|].
  apply (Forall2_impl _ _ _ _ H).
  intros p p' (_ & _ & _ & _ & _ & _ & [-> | ->]).
  - apply Z.land_diag.
  - apply Z.bits_inj'. intros n _. rewrite Z.land_spec, Z.lor_spec.
    destruct (Z.testbit (ValueToRead.errors p) n);
      destruct (Z.testbit ValueToRead.BLESVR_ERR_CONNECTFAIL n);
      reflexivity.
Qed.



(** *** The forwarder as a rotation of the records *)

Lemma forwarder_empty (h : list ascii -> bool) (q : StrQueue.StrQueue)
    (b1 : list ascii) :
  StrQueue.isEmpty q = true -> forwarder h q b1 = (q, b1, []).
Proof. intros H. unfold forwarder. now rewrite H. Qed.

(** On a queue of records that the forwarder can take whole (not empty,
    no ['\0'] in them, short enough for [buf1]), its runs do to the ring
    buffer what [rotate] does to the list of the records. *)
Lemma forward_all_rotate (hubs : list (list ascii -> bool)) :
  forall (rs : list (list ascii)) (q : StrQueue.StrQueue) (b1 : list ascii),
    StrQueue.wf q -> StrQueue.contents q = records rs ->
    Forall (fun R => null_free R /\ R <> []
                     /\ Z.of_nat (length R) + 2 <= 384) rs ->
    384 <= Z.of_nat (length b1) ->
    StrQueue.wf (fst (fst (forward_all hubs q b1)))
    /\ StrQueue.contents (fst (fst (forward_all hubs q b1)))
       = records (fst (rotate hubs rs))
    /\ snd (forward_all hubs q b1) = snd (rotate hubs rs).
Proof.
  induction hubs as [|h hubs IH]; intros rs q b1 Hwf Hc Hrs Hb.
  - cbn. split; [exact Hwf|]. split; [exact Hc|reflexivity].
  - destruct rs as [|R rest].
    + cbn [rotate fst snd]. cbn [forward_all].
      rewrite (forwarder_empty h q b1
                 (QueueMore.contents_nil_empty q Hwf Hc)).
      destruct (IH [] q b1 Hwf Hc Hrs Hb) as (W & C & E).
      destruct (forward_all hubs q b1) as [[q2 b2] ev2].
      cbn [fst snd app] in *.
      assert (Hr : rotate hubs [] = ([], [])) by now destruct hubs.
      rewrite Hr in C, E. cbn [fst snd] in *.
      split; [exact W|]. split; [exact C|exact E].
    + apply Forall_cons in Hrs as [(HR & HRn & HRl) Hrs].
      rewrite QueueMore.records_cons in Hc.
      destruct (BridgeFacts.forwarder_record h q b1 R (records rest)
                  Hwf Hc HR HRn) as (W1 & L1 & E1 & C1); [lia|].
      rewrite BridgeFacts.forward_all_cons. cbn [rotate fst snd].
      destruct (IH (if h R then rest else rest ++ [R])
                  (fst (fst (forwarder h q b1)))
                  (snd (fst (forwarder h q b1))) W1)
        as (W & C & E).
      * rewrite C1. destruct (h R); [reflexivity|].
        rewrite QueueMore.records_app. f_equal. unfold records. cbn.
        now rewrite app_nil_r.
      * destruct (h R); [exact Hrs|]. apply Forall_app. split; [exact Hrs|].
        now repeat constructor.
      * lia.
      * destruct (rotate hubs (if h R then rest else rest ++ [R]))
          as [rs' evs]. cbn [fst snd] in *.
        split; [exact W|]. split; [exact C|]. now rewrite E1, E.
Qed.

(** X13.  On a queue that holds the records [rs] (none empty, none with
    a ['\0'] in it, none longer than 382 characters), runs of the
    forwarder do to the ring buffer what [rotate] does to the list: each
    run offers the oldest record to the hub, drops it when the hub takes
    it and moves it behind the others when the hub refuses it; once the
    queue is empty the runs do nothing. *)
Theorem X13_forwarder_rotates_the_records
    (hubs : list (list ascii -> bool)) (rs : list (list ascii))
    (q : StrQueue.StrQueue) (b1 : list ascii) :
  StrQueue.wf q -> StrQueue.contents q = records rs ->
  Forall (fun R => null_free R /\ R <> []
                   /\ Z.of_nat (length R) + 2 <= 384) rs ->
  384 <= Z.of_nat (length b1) ->
  StrQueue.wf (fst (fst (forward_all hubs q b1)))
  /\ StrQueue.contents (fst (fst (forward_all hubs q b1)))
     = records (fst (rotate hubs rs))
  /\ snd (forward_all hubs q b1) = snd (rotate hubs rs).
Proof. apply forward_all_rotate. Qed.

(** A queue on which to try the forwarder. *)
Lemma demo_queue_ok :
  let q := push_all [Demo.L "rec-A"; Demo.L "rec-B"; Demo.L "rec-C"]
             (StrQueue.ctor (fun _ => "x"%char) 64) in
  StrQueue.wf q
  /\ StrQueue.contents q
     = records [Demo.L "rec-A"; Demo.L "rec-B"; Demo.L "rec-C"]
  /\ Forall (fun R => null_free R /\ R <> []
                      /\ Z.of_nat (length R) + 2 <= 384)
       [Demo.L "rec-A"; Demo.L "rec-B"; Demo.L "rec-C"]
  /\ 384 <= Z.of_nat (length (replicate 384 null)).
Proof.
  cbv zeta. split; [|split; [|split]].
  - apply QueueMore.push_all_spec; [apply QueueFacts.ctor_wf; lia| |].
    + repeat constructor; discriminate.
    + vm_compute. discriminate.
  - reflexivity.
  - repeat constructor; try discriminate; simpl; lia.
  - rewrite length_replicate. lia.
Defined.

Lemma X13_witness :
  let q := push_all [Demo.L "rec-A"; Demo.L "rec-B"; Demo.L "rec-C"]
             (StrQueue.ctor (fun _ => "x"%char) 64) in
  let rs := [Demo.L "rec-A"; Demo.L "rec-B"; Demo.L "rec-C"] in
  let b1 := replicate 384 null in
  let hubs := [fun _ : list ascii => false; fun _ : list ascii => true] in
  (StrQueue.wf q /\ StrQueue.contents q = records rs
   /\ Forall (fun R => null_free R /\ R <> []
                       /\ Z.of_nat (length R) + 2 <= 384) rs
   /\ 384 <= Z.of_nat (length b1))
  /\ StrQueue.wf (fst (fst (forward_all hubs q b1)))
  /\ StrQueue.contents (fst (fst (forward_all hubs q b1)))
     = records (fst (rotate hubs rs))
  /\ snd (forward_all hubs q b1) = snd (rotate hubs rs).
Proof.
  cbv zeta. destruct demo_queue_ok as (H1 & H2 & H3 & H4).
  split; [exact (conj H1 (conj H2 (conj H3 H4)))|].
  exact (X13_forwarder_rotates_the_records
           [fun _ => false; fun _ => true]
           [Demo.L "rec-A"; Demo.L "rec-B"; Demo.L "rec-C"]
           _ (replicate 384 null) H1 H2 H3 H4).
Defined.

Lemma rotate_accept (hubs : list (list ascii -> bool))
    (rs : list (list ascii)) :
  Forall2 (fun h R => h R = true) hubs rs ->
  rotate hubs rs = ([], (fun R => EvSend R true) <$> rs).
Proof.
  induction 1 as [|h R hubs rs Hh _ IH]; [reflexivity|].
  cbn [rotate]. rewrite Hh, IH. reflexivity.
Qed.

Lemma rotate_refuse (hubs : list (list ascii -> bool))
    (rs : list (list ascii)) :
  Forall2 (fun h R => h R = false) hubs rs ->
  forall done : list (list ascii),
    rotate hubs (rs ++ done)
    = (done ++ rs, (fun R => EvSend R false) <$> rs).
Proof.
  induction 1 as [|h R hubs rs Hh _ IH]; intros done.
  - cbn. now rewrite app_nil_r.
  - cbn [app rotate]. rewrite Hh, <- app_assoc, IH, <- app_assoc.
    reflexivity.
Qed.

Lemma delivered_sent (ok : bool) (rs : list (list ascii)) :
  delivered ((fun R => EvSend R ok) <$> rs) = if ok then rs else [].
Proof.
  unfold delivered. induction rs as [|R rs IH]; [now destruct ok|].
  cbn [fmap list_fmap omap list_omap]. cbn [fmap list_fmap] in IH.
  rewrite IH. now destruct ok.
Qed.

(** X14.  On a queue whose records have from 1 to 382 characters each
    (none with a ['\0'] in it), while the hub takes every record it is
    offered, the forwarder delivers the queued records in the order they
    were queued, one for each run, and leaves the queue empty. *)
Theorem X14_forwarder_delivers_in_queue_order
    (hubs : list (list ascii -> bool)) (rs : list (list ascii))
    (q : StrQueue.StrQueue) (b1 : list ascii) :
  StrQueue.wf q -> StrQueue.contents q = records rs ->
  Forall (fun R => null_free R /\ R <> []
                   /\ Z.of_nat (length R) + 2 <= 384) rs ->
  384 <= Z.of_nat (length b1) ->
  Forall2 (fun h R => h R = true) hubs rs ->
  snd (forward_all hubs q b1) = (fun R => EvSend R true) <$> rs
  /\ delivered (snd (forward_all hubs q b1)) = rs
  /\ StrQueue.isEmpty (fst (fst (forward_all hubs q b1))) = true.
Proof.
  intros Hwf Hc Hrs Hb Hh.
  destruct (forward_all_rotate hubs rs q b1 Hwf Hc Hrs Hb) as (W & C & E).
  rewrite (rotate_accept hubs rs Hh) in C, E. cbn [fst snd] in C, E.
  split; [exact E|]. split.
  - rewrite E. apply (delivered_sent true).
  - now apply QueueMore.contents_nil_empty.
Qed.

Lemma X14_witness :
  let q := push_all [Demo.L "rec-A"; Demo.L "rec-B"; Demo.L "rec-C"]
             (StrQueue.ctor (fun _ => "x"%char) 64) in
  let rs := [Demo.L "rec-A"; Demo.L "rec-B"; Demo.L "rec-C"] in
  let b1 := replicate 384 null in
  let yes := fun _ : list ascii => true in
  (StrQueue.wf q /\ StrQueue.contents q = records rs
   /\ Forall (fun R => null_free R /\ R <> []
                       /\ Z.of_nat (length R) + 2 <= 384) rs
   /\ 384 <= Z.of_nat (length b1)
   /\ Forall2 (fun h R => h R = true) [yes; yes; yes] rs)
  /\ snd (forward_all [yes; yes; yes] q b1)
     = (fun R => EvSend R true) <$> rs
  /\ delivered (snd (forward_all [yes; yes; yes] q b1)) = rs
  /\ StrQueue.isEmpty (fst (fst (forward_all [yes; yes; yes] q b1))) = true.
Proof.
  cbv zeta. destruct demo_queue_ok as (H1 & H2 & H3 & H4).
  assert (H5 : Forall2 (fun (h : list ascii -> bool) R => h R = true)
                 [fun _ => true; fun _ => true; fun _ => true]
                 [Demo.L "rec-A"; Demo.L "rec-B"; Demo.L "rec-C"])
    by (repeat constructor).
  split; [exact (conj H1 (conj H2 (conj H3 (conj H4 H5))))|].
  exact (X14_forwarder_delivers_in_queue_order _ _ _ _ H1 H2 H3 H4 H5).
Defined.

(** X15.  On a queue whose records have from 1 to 382 characters each
    (none with a ['\0'] in it), while the hub refuses every record it is
    offered, nothing is delivered and nothing is lost: each run moves the
    oldest record behind the others, and after as many runs as there are
    records the queue holds the same records in the same order as
    before. *)
Theorem X15_refused_records_go_round_and_stay
    (hubs : list (list ascii -> bool)) (rs : list (list ascii))
    (q : StrQueue.StrQueue) (b1 : list ascii) :
  StrQueue.wf q -> StrQueue.contents q = records rs ->
  Forall (fun R => null_free R /\ R <> []
                   /\ Z.of_nat (length R) + 2 <= 384) rs ->
  384 <= Z.of_nat (length b1) ->
  Forall2 (fun h R => h R = false) hubs rs ->
  snd (forward_all hubs q b1) = (fun R => EvSend R false) <$> rs
  /\ delivered (snd (forward_all hubs q b1)) = []
  /\ StrQueue.contents (fst (fst (forward_all hubs q b1)))
     = StrQueue.contents q.
Proof.
  intros Hwf Hc Hrs Hb Hh.
  destruct (forward_all_rotate hubs rs q b1 Hwf Hc Hrs Hb) as (W & C & E).
  pose proof (rotate_refuse hubs rs Hh []) as Hr.
  rewrite app_nil_r in Hr. cbn [app] in Hr.
  rewrite Hr in C, E. cbn [fst snd] in C, E.
  split; [exact E|]. split.
  - rewrite E. apply (delivered_sent false).
  - now rewrite C, Hc.
Qed.

Lemma X15_witness :
  let q := push_all [Demo.L "rec-A"; Demo.L "rec-B"; Demo.L "rec-C"]
             (StrQueue.ctor (fun _ => "x"%char) 64) in
  let rs := [Demo.L "rec-A"; Demo.L "rec-B"; Demo.L "rec-C"] in
  let b1 := replicate 384 null in
  let no := fun _ : list ascii => false in
  (StrQueue.wf q /\ StrQueue.contents q = records rs
   /\ Forall (fun R => null_free R /\ R <> []
                       /\ Z.of_nat (length R) + 2 <= 384) rs
   /\ 384 <= Z.of_nat (length b1)
   /\ Forall2 (fun h R => h R = false) [no; no; no] rs)
  /\ snd (forward_all [no; no; no] q b1)
     = (fun R => EvSend R false) <$> rs
  /\ delivered (snd (forward_all [no; no; no] q b1)) = []
  /\ StrQueue.contents (fst (fst (forward_all [no; no; no] q b1)))
     = StrQueue.contents q.
Proof.
  cbv zeta. destruct demo_queue_ok as (H1 & H2 & H3 & H4).
  assert (H5 : Forall2 (fun (h : list ascii -> bool) R => h R = false)
                 [fun _ => false; fun _ => false; fun _ => false]
                 [Demo.L "rec-A"; Demo.L "rec-B"; Demo.L "rec-C"])
    by (repeat constructor).
  split; [exact (conj H1 (conj H2 (conj H3 (conj H4 H5))))|].
  exact (X15_refused_records_go_round_and_stay _ _ _ _ H1 H2 H3 H4 H5).
Defined.

(** *** The rescan flag *)

Lemma minute_tasks_flag (e : Env) (st : State) :
  timeForScan (fst (minute_tasks e st))
  = if ulong (minuteCounter st + 1) mod 60 =? 59 then true
    else timeForScan st.
Proof.
  unfold minute_tasks. destruct (read_all _ _ _ _ _ _) as [[[v q] b] evs].
  reflexivity.
Qed.

Lemma loop_pass_flag (e : Env) (st : State) :
  timeForScan (fst (loop_pass e st)) = false.
Proof.
  unfold loop_pass.
  destruct (if negb (currentMin e =? lastMin st) then minute_tasks e st
            else (st, [])) as [st1 evs].
  destruct (timeForScan st1) eqn:E; destruct (wifiDown e);
    cbn [measuredData buf1 timeForScan];
    destruct (forwarder _ _ _) as [[q b1] evs']; cbn [fst timeForScan];
    (reflexivity || exact E).
Qed.

(** X16.  A pass of the loop scans for devices exactly when the rescan
    flag is set as it starts, or when it is a minute tick that brings the
    counter to 59 modulo 60; and every pass ends with the flag cleared,
    so that among the states the program reaches only the one [setup]
    leaves has the flag set. *)
Theorem X16_scan_on_first_pass_and_every_sixtieth_tick
    (e : Env) (st : State) :
  timeForScan (fst (loop_pass e st)) = false
  /\ (let tick := negb (currentMin e =? lastMin st) in
      let st1 := if tick then fst (minute_tasks e st) else st in
      vals2read (fst (loop_pass e st))
      = if timeForScan st
           || (tick && (ulong (minuteCounter st + 1) mod 60 =? 59))
        then scan (advertised e) (vals2read st1)
        else vals2read st1)
  /\ (reachable st -> timeForScan st = true ->
      exists qjunk junk readKey rtcMinute,
        st = setup qjunk junk readKey rtcMinute).
Proof.
  split; [apply loop_pass_flag|]. split.
  - cbv zeta. rewrite BridgeFacts.loop_pass_vals. cbv zeta.
    destruct (negb (currentMin e =? lastMin st)); cbn [andb].
    + rewrite minute_tasks_flag.
      destruct (ulong (minuteCounter st + 1) mod 60 =? 59);
        destruct (timeForScan st); reflexivity.
    + now rewrite orb_false_r.
  - intros Hr Hf. destruct Hr as [qjunk junk readKey rtcMinute | e' st' _].
    + now exists qjunk, junk, readKey, rtcMinute.
    + rewrite loop_pass_flag in Hf. discriminate.
Qed.

Lemma X16_witness :
  (reachable Demo.start /\ timeForScan Demo.start = true)
  /\ timeForScan (fst (loop_pass Demo.pass_scan Demo.start)) = false
  /\ vals2read (fst (loop_pass Demo.pass_scan Demo.start))
     = scan (advertised Demo.pass_scan) (vals2read Demo.start)
  /\ exists qjunk junk readKey rtcMinute,
       Demo.start = setup qjunk junk readKey rtcMinute.
Proof.
  assert (H1 : reachable Demo.start) by apply reach_setup.
  assert (H2 : timeForScan Demo.start = true) by reflexivity.
  destruct (X16_scan_on_first_pass_and_every_sixtieth_tick Demo.pass_scan
              Demo.start) as (F & V & S).
  split; [now split|]. split; [exact F|]. split; [exact V|].
  exact (S H1 H2).
Defined.

(** *** The table that [setup] builds *)

Lemma load_values_spec (junk : Z -> nat -> ascii)
    (readKey : Z -> list ascii) (k : nat) :
  forall (i : Z) (vals : list ValueToRead.ValueToRead),
    load_values junk readKey k i vals
    = vals
      ++ ((fun j => snd (ValueToRead.set (ValueToRead.ctor (junk j))
                           (readKey j)))
            <$> List.filter
                  (fun j => negb (is_null (char_at (readKey j) 0)))
                  (seqZ i (Z.of_nat k))).
Proof.
  induction k as [|k IH]; intros i vals.
  - cbn. now rewrite app_nil_r.
  - cbn [load_values]. rewrite IH.
    rewrite (seqZ_cons i (Z.of_nat (S k))) by lia.
    replace (Z.pred (Z.of_nat (S k))) with (Z.of_nat k) by lia.
    replace (Z.succ i) with (i + 1) by lia.
    cbn [List.filter].
    destruct (negb (is_null (char_at (readKey i) 0))).
    + rewrite <- app_assoc. reflexivity.
    + reflexivity.
Qed.

(** X17.  [setup] makes one entry for each of the keys [VALUE1] to
    [VALUE99] that [readKey] finds with a text that is not empty, in the
    order of their numbers and at most 99 of them: the entry is what
    [set] makes of the text from a fresh entry, and it is kept whether
    [set] accepts the text or not.  Every entry has an interval within
    1..1440 and a clear error word, and the queue starts empty with room
    for 4095 characters. *)
Theorem X17_setup_builds_one_entry_for_each_value_key
    (qjunk : nat -> ascii) (junk : Z -> nat -> ascii)
    (readKey : Z -> list ascii) (rtcMinute : Z) :
  let st := setup qjunk junk readKey rtcMinute in
  vals2read st
  = ((fun j => snd (ValueToRead.set (ValueToRead.ctor (junk j))
                      (readKey j)))
       <$> List.filter (fun j => negb (is_null (char_at (readKey j) 0)))
             (seqZ 1 99))
  /\ (length (vals2read st) <= 99)%nat
  /\ Forall (fun p => 1 <= ValueToRead.minutesBetweenReads p <= 1440
                      /\ ValueToRead.errors p = 0
                      /\ ValueToRead.connects p = 0) (vals2read st)
  /\ StrQueue.contents (measuredData st) = []
  /\ StrQueue.available (measuredData st) = 4095.
Proof.
  intros st.
  assert (Hv : vals2read st
               = (fun j => snd (ValueToRead.set (ValueToRead.ctor (junk j))
                                  (readKey j)))
                   <$> List.filter
                         (fun j => negb (is_null (char_at (readKey j) 0)))
                         (seqZ 1 99)).
  { unfold st, setup. cbn [vals2read]. rewrite load_values_spec.
    reflexivity. }
  split; [exact Hv|]. split; [|split; [|split]].
  - rewrite Hv, length_fmap.
    etransitivity; [apply List.filter_length_le|].
    rewrite length_seqZ. lia.
  - rewrite Hv. apply Forall_fmap, Forall_forall. intros j _. cbn [compose].
    destruct (ValueFacts.set_keeps (ValueToRead.ctor (junk j)) (readKey j))
      as (M & E & C); [simpl; lia|].
    split; [exact M|]. now split.
  - reflexivity.
  - reflexivity.
Qed.

End BridgeMore.

(** ** The configuration file *)

Module ConfigFacts.
Import Config.

Lemma store_blit_snoc (s w : list ascii) (i : nat) (c : ascii) :
  (i + length w < length s)%nat ->
  store (blit s i w) (Z.of_nat (i + length w)) c = blit s i (w ++ [c]).
Proof.
  intros H. unfold store, blit. rewrite Nat2Z.id.
  rewrite insert_app_r_alt by (rewrite length_take; lia).
  rewrite length_take.
  replace (i + length w - i `min` length s)%nat with (length w) by lia.
  rewrite insert_app_r_alt by lia. rewrite Nat.sub_diag.
  rewrite <- app_assoc. do 2 f_equal.
  destruct (drop (i + length w) s) as [|x d] eqn:E.
  { apply (f_equal length) in E. rewrite length_drop in E. simpl in E. lia. }
  cbn [insert list_insert app]. f_equal.
  rewrite length_app. cbn [length].
  replace (i + (length w + 1))%nat with (S (i + length w)) by lia.
  rewrite <- (drop_drop s (i + length w) 1) || idtac.
  change (S (i + length w)) with (1 + (i + length w))%nat.
  rewrite Nat.add_comm, <- drop_drop, E. reflexivity.
Qed.

Lemma text_of_cons (c : ascii) (l : list ascii) :
  text_of (c :: l) = if Ascii.eqb c CR then text_of l else c :: text_of l.
Proof. unfold text_of. cbn. now destruct (Ascii.eqb c CR). Qed.

(** [readln]'s loop on a line that fits: up to its line feed, or up to
    the end of the file. *)
Lemma readln_loop_line (sc : bool) (line : list ascii) :
  forall (buf : list ascii) (len : nat) (maxlen : Z),
    Forall (text_char sc) line ->
    Z.of_nat (len + length (text_of line)) < maxlen - 1 ->
    maxlen <= Z.of_nat (length buf) ->
    (forall rest : list ascii,
        readln_loop sc (line ++ LF :: rest) buf (Z.of_nat len) maxlen
        = (false, rest, blit buf len (text_of line),
           Z.of_nat (len + length (text_of line))))
    /\ readln_loop sc line buf (Z.of_nat len) maxlen
       = (true, [], blit buf len (text_of line),
          Z.of_nat (len + length (text_of line))).
Proof.
  induction line as [|c line IH]; intros buf len maxlen Hl Hlen Hb.
  - cbn [text_of List.filter length app] in *.
    assert (E : blit buf len [] = buf).
    { unfold blit. cbn. rewrite Nat.add_0_r. apply take_drop. }
    rewrite E, Nat.add_0_r in *.
    assert (Hlt : (Z.of_nat len <? maxlen - 1) = true)
      by (apply Z.ltb_lt; lia).
    split; [intros rest|]; cbn [readln_loop]; rewrite Hlt; [|reflexivity].
    unfold negative. change (nat_of_ascii LF) with 10%nat.
    cbn [Nat.leb]. rewrite andb_false_r. reflexivity.
  - apply Forall_cons in Hl as [(Hlf & Hn & Hneg) Hl].
    rewrite text_of_cons in *.
    assert (Hlt : (Z.of_nat len <? maxlen - 1) = true).
    { apply Z.ltb_lt. destruct (Ascii.eqb c CR); cbn [length] in Hlen; lia. }
    assert (Hstep : forall tl : list ascii,
               readln_loop sc (c :: tl) buf (Z.of_nat len) maxlen
               = if Ascii.eqb c CR
                 then readln_loop sc tl buf (Z.of_nat len) maxlen
                 else readln_loop sc tl (store buf (Z.of_nat len) c)
                        (Z.of_nat (S len)) maxlen).
    { intros tl. cbn [readln_loop]. rewrite Hlt, Hneg.
      destruct (Ascii.eqb c CR); [reflexivity|].
      apply Ascii.eqb_neq in Hlf. rewrite Hlf.
      replace (Z.of_nat len + 1) with (Z.of_nat (S len)) by lia.
      reflexivity. }
    cbn [app]. destruct (Ascii.eqb c CR) eqn:Ecr.
    + destruct (IH buf len maxlen Hl Hlen Hb) as [I1 I2].
      split; [intros rest|]; rewrite Hstep; [apply I1|exact I2].
    + cbn [length] in Hlen.
      destruct (IH (store buf (Z.of_nat len) c) (S len) maxlen Hl)
        as [I1 I2]; [lia|rewrite length_store; lia|].
      rewrite blit_store_cons in I1, I2 by lia.
      replace (S len + length (text_of line))%nat
        with (len + length (c :: text_of line))%nat in I1, I2
        by (cbn [length]; lia).
      split; [intros rest|]; rewrite Hstep; [apply I1|exact I2].
Qed.

Lemma text_of_text (sc : bool) (line : list ascii) :
  Forall (text_char sc) line -> null_free (text_of line).
Proof.
  unfold null_free. induction 1 as [|c l (_ & Hn & _) _ IH]; [constructor|].
  rewrite text_of_cons. destruct (Ascii.eqb c CR); [exact IH|].
  now constructor.
Qed.

(** What [readln] leaves in [buf] once the loop has put [w] there. *)
Lemma readln_buf (buf w : list ascii) :
  (length w < length buf)%nat ->
  store (blit (store buf 0 null) 0 w) (Z.of_nat (0 + length w)) null
  = blit buf 0 (w ++ [null]).
Proof.
  intros H. destruct w as [|x w].
  - change (blit (store buf 0 null) 0 []) with (store buf 0 null).
    change (Z.of_nat (0 + length (@nil ascii))) with 0.
    cbn [app length] in *. unfold store at 1 2.
    change (Z.to_nat 0) with 0%nat. rewrite list_insert_insert_eq.
    exact (store_blit buf 0 null H).
  - rewrite QueueFacts.blit_store_0 by discriminate.
    apply store_blit_snoc. lia.
Qed.

Lemma readln_line (sc : bool) (line buf : list ascii) (maxlen : Z) :
  Forall (text_char sc) line ->
  Z.of_nat (length (text_of line)) < maxlen - 1 ->
  maxlen <= Z.of_nat (length buf) ->
  (forall rest : list ascii,
      readln sc (line ++ LF :: rest) buf maxlen
      = (true, rest, blit buf 0 (text_of line ++ [null])))
  /\ readln sc line buf maxlen
     = (false, [], blit buf 0 (text_of line ++ [null])).
Proof.
  intros Hl Hlen Hb. unfold readln.
  destruct (readln_loop_line sc line (store buf 0 null) 0 maxlen Hl)
    as [I1 I2]; [lia|rewrite length_store; lia|].
  change (Z.of_nat 0) with 0 in I1, I2.
  split; [intros rest; rewrite I1|rewrite I2]; cbn [negb];
    rewrite readln_buf by lia; reflexivity.
Qed.

(** X18.  [readln] gives the next line of the file with its carriage
    returns and its line feed taken out, as a terminated string, and
    leaves the file after the line feed; on a last line that no line
    feed ends it gives the line just the same but returns false, as it
    does at the end of the file.  (The line is one of ordinary
    characters, short enough for the buffer.) *)
Theorem X18_readln_reads_one_line
    (signed_char : bool) (line rest buf : list ascii) (maxlen : Z) :
  Forall (text_char signed_char) line ->
  Z.of_nat (length (text_of line)) < maxlen - 1 ->
  maxlen <= Z.of_nat (length buf) ->
  readln signed_char (line ++ LF :: rest) buf maxlen
  = (true, rest, text_of line ++ null :: drop (length (text_of line) + 1) buf)
  /\ cstr (snd (readln signed_char (line ++ LF :: rest) buf maxlen))
     = text_of line
  /\ fst (readln signed_char line buf maxlen) = (false, [])
  /\ cstr (snd (readln signed_char line buf maxlen)) = text_of line.
Proof.
  intros Hl Hlen Hb.
  destruct (readln_line signed_char line buf maxlen Hl Hlen Hb) as [I1 I2].
  pose proof (text_of_text signed_char line Hl) as Hnf.
  rewrite I1, I2. cbn [fst snd].
  rewrite QueueFacts.cstr_blit_record by assumption.
  rewrite QueueFacts.blit_record. now repeat split.
Qed.

Lemma text_line (sc : bool) (x : string) :
  forallb (fun c => negb (Ascii.eqb c LF) && negb (Ascii.eqb c null)
                    && negb (negative sc c))
    (list_ascii_of_string x) = true ->
  Forall (text_char sc) (list_ascii_of_string x).
Proof.
  intros H. apply Forall_forall. intros c Hc.
  apply list_elem_of_In in Hc.
  pose proof (proj1 (forallb_forall _ _) H c Hc) as Hb.
  apply andb_prop in Hb as [Hb H3]. apply andb_prop in Hb as [H1 H2].
  apply negb_true_iff in H1, H2, H3. unfold text_char.
  apply Ascii.eqb_neq in H1, H2. now repeat split.
Qed.

Lemma X18_witness :
  let line := Demo.L "WIFISSID=net" ++ [CR] in
  let rest := Demo.L "WIFIPWD=secret" in
  let buf := new_char (fun _ => "j"%char) 128 in
  (Forall (text_char true) line
   /\ Z.of_nat (length (text_of line)) < 127 - 1
   /\ 127 <= Z.of_nat (length buf))
  /\ readln true (line ++ LF :: rest) buf 127
     = (true, rest,
        text_of line ++ null :: drop (length (text_of line) + 1) buf)
  /\ cstr (snd (readln true (line ++ LF :: rest) buf 127)) = text_of line
  /\ fst (readln true line buf 127) = (false, [])
  /\ cstr (snd (readln true line buf 127)) = text_of line.
Proof.
  cbv zeta.
  assert (H1 : Forall (text_char true) (Demo.L "WIFISSID=net" ++ [CR])).
  { apply Forall_app. split; [apply text_line; reflexivity|].
    repeat constructor; discriminate. }
  assert (H2 : Z.of_nat (length (text_of (Demo.L "WIFISSID=net" ++ [CR])))
               < 127 - 1) by (vm_compute; reflexivity).
  assert (H3 : 127 <= Z.of_nat (length (new_char (fun _ => "j"%char) 128)))
    by (vm_compute; discriminate).
  split; [exact (conj H1 (conj H2 H3))|].
  exact (X18_readln_reads_one_line true (Demo.L "WIFISSID=net" ++ [CR])
           (Demo.L "WIFIPWD=secret") (new_char (fun _ => "j"%char) 128)
           127 H1 H2 H3).
Defined.

(** [readln]'s loop on characters that fill the buffer before any line
    feed. *)
Lemma readln_loop_full (sc : bool) (pre : list ascii) :
  forall (rest buf : list ascii) (len : nat) (maxlen : Z),
    Forall (fun c => text_char sc c /\ c <> CR) pre ->
    Z.of_nat (len + length pre) = maxlen - 1 ->
    maxlen <= Z.of_nat (length buf) ->
    readln_loop sc (pre ++ rest) buf (Z.of_nat len) maxlen
    = (false, rest, blit buf len pre, maxlen - 1).
Proof.
  induction pre as [|c pre IH]; intros rest buf len maxlen Hp Hlen Hb.
  - cbn [app length] in *. rewrite Nat.add_0_r in Hlen.
    assert (E : blit buf len [] = buf).
    { unfold blit. cbn. rewrite Nat.add_0_r. apply take_drop. }
    assert (Hge : (Z.of_nat len <? maxlen - 1) = false)
      by (apply Z.ltb_ge; lia).
    rewrite E. destruct rest; cbn [readln_loop]; rewrite Hge, Hlen;
      reflexivity.
  - apply Forall_cons in Hp as [((Hlf & Hn & Hneg) & Hcr) Hp].
    cbn [app length] in *. cbn [readln_loop].
    assert (Hlt : (Z.of_nat len <? maxlen - 1) = true)
      by (apply Z.ltb_lt; lia).
    rewrite Hlt, Hneg. apply Ascii.eqb_neq in Hcr, Hlf. rewrite Hcr, Hlf.
    replace (Z.of_nat len + 1) with (Z.of_nat (S len)) by lia.
    rewrite IH; [|exact Hp|lia|rewrite length_store; lia].
    rewrite blit_store_cons by lia. reflexivity.
Qed.

(** X19.  A line longer than the buffer is not read whole: when the next
    [maxlen - 1] characters of the file hold no line feed (and no
    carriage return), [readln] stops after them, gives them as the line
    and returns true, and the rest of the line is left in the file to be
    read as if it were the next line. *)
Theorem X19_readln_cuts_a_long_line
    (signed_char : bool) (pre rest buf : list ascii) (maxlen : Z) :
  Forall (fun c => text_char signed_char c /\ c <> CR) pre ->
  Z.of_nat (length pre) = maxlen - 1 ->
  maxlen <= Z.of_nat (length buf) ->
  readln signed_char (pre ++ rest) buf maxlen
  = (true, rest, pre ++ null :: drop (length pre + 1) buf)
  /\ cstr (snd (readln signed_char (pre ++ rest) buf maxlen)) = pre.
Proof.
  intros Hp Hlen Hb. unfold readln.
  pose proof (readln_loop_full signed_char pre rest (store buf 0 null) 0
                maxlen Hp) as E.
  change (Z.of_nat 0) with 0 in E.
  rewrite E; [|lia|rewrite length_store; lia].
  cbn [negb fst snd].
  replace (maxlen - 1) with (Z.of_nat (0 + length pre)) by lia.
  rewrite readln_buf by lia.
  assert (Hnf : null_free pre).
  { unfold null_free. apply (Forall_impl _ _ _ Hp).
    now intros c ((_ & Hn & _) & _). }
  rewrite QueueFacts.cstr_blit_record by assumption.
  now rewrite QueueFacts.blit_record.
Qed.

Lemma X19_witness :
  let pre := Demo.L "0123456" in
  let rest := Demo.L "89" ++ [LF] in
  let buf := new_char (fun _ => "j"%char) 8 in
  (Forall (fun c => text_char false c /\ c <> CR) pre
   /\ Z.of_nat (length pre) = 8 - 1
   /\ 8 <= Z.of_nat (length buf))
  /\ readln false (pre ++ rest) buf 8
     = (true, rest, pre ++ null :: drop (length pre + 1) buf)
  /\ cstr (snd (readln false (pre ++ rest) buf 8)) = pre.
Proof.
  cbv zeta.
  assert (H1 : Forall (fun c => text_char false c /\ c <> CR)
                 (Demo.L "0123456")).
  { repeat constructor; discriminate. }
  assert (H2 : Z.of_nat (length (Demo.L "0123456")) = 8 - 1)
    by reflexivity.
  assert (H3 : 8 <= Z.of_nat (length (new_char (fun _ => "j"%char) 8)))
    by (vm_compute; discriminate).
  split; [exact (conj H1 (conj H2 H3))|].
  exact (X19_readln_cuts_a_long_line false (Demo.L "0123456")
           (Demo.L "89" ++ [LF]) (new_char (fun _ => "j"%char) 8) 8
           H1 H2 H3).
Defined.

(** *** readKey *)

Lemma ascii_diff (c d : ascii) :
  c <> d -> Z.of_nat (nat_of_ascii c) - Z.of_nat (nat_of_ascii d) <> 0.
Proof.
  intros H E. apply H.
  rewrite <- (ascii_nat_embedding c), <- (ascii_nat_embedding d).
  f_equal. lia.
Qed.

(** [strncmp] over the length of [key] tells whether the string starts
    with [key]. *)
Lemma strncmp_prefix (key : list ascii) :
  null_free key ->
  forall a : list ascii,
    strncmp a key (length key) = 0 <-> key `prefix_of` cstr a.
Proof.
  unfold null_free. induction 1 as [|k key Hk _ IH]; intros a.
  - cbn. split; [intros _; apply prefix_nil|reflexivity].
  - cbn [length strncmp]. change (char_at (k :: key) 0) with k.
    change (tail (k :: key)) with key.
    destruct a as [|x a].
    + change (char_at [] 0) with null.
      assert (E : Ascii.eqb null k = false)
        by (apply Ascii.eqb_neq; congruence).
      rewrite E. cbn [negb cstr]. split.
      * intros D. exfalso. revert D. apply ascii_diff. congruence.
      * intros D. now apply prefix_nil_not in D.
    + change (char_at (x :: a) 0) with x. change (tail (x :: a)) with a.
      cbn [cstr]. destruct (Ascii.eqb_spec x k) as [->|Hx]; cbn [negb].
      * apply is_null_false in Hk. rewrite Hk, IH. split.
        -- apply prefix_cons.
        -- apply prefix_cons_inv_2.
      * split.
        -- intros D. exfalso. revert D. now apply ascii_diff.
        -- intros D. exfalso. destruct (is_null x).
           ++ now apply prefix_nil_not in D.
           ++ apply prefix_cons_inv_1 in D. congruence.
Qed.

Lemma lines_cons (l : list ascii) (ls : list (list ascii))
    (rest : list ascii) :
  lines (l :: ls) ++ rest = l ++ LF :: (lines ls ++ rest).
Proof. unfold lines. cbn. now rewrite <- !app_assoc. Qed.

Lemma length_lines (ls : list (list ascii)) :
  (length ls <= length (lines ls))%nat.
Proof.
  induction ls as [|l ls IH]; [cbn; lia|].
  pose proof (lines_cons l ls []) as E. rewrite !app_nil_r in E.
  rewrite E, length_app. cbn [length]. lia.
Qed.

(** One round of [readKey]'s loop on a line that its buffer holds. *)
Lemma readKey_round (sc : bool) (line rest buf key outbuf : list ascii)
    (maxlen : Z) (fuel : nat) :
  null_free key -> plain_line sc line -> length buf = 128%nat ->
  (key `prefix_of` text_of line ->
   readKey_loop (S fuel) sc (line ++ LF :: rest) buf key outbuf
     (strlen key) maxlen
   = strncpy outbuf
       (drop (length key) (blit buf 0 (text_of line ++ [null]))) maxlen)
  /\ (~ key `prefix_of` text_of line ->
      readKey_loop (S fuel) sc (line ++ LF :: rest) buf key outbuf
        (strlen key) maxlen
      = readKey_loop fuel sc rest (blit buf 0 (text_of line ++ [null]))
          key outbuf (strlen key) maxlen).
Proof.
  intros Hk [Hl Hlen] Hb. cbn [readKey_loop].
  rewrite (proj1 (readln_line sc line buf 127 Hl ltac:(lia) ltac:(lia))).
  unfold strlen. rewrite (cstr_id key Hk), Nat2Z.id.
  pose proof (strncmp_prefix key Hk (blit buf 0 (text_of line ++ [null])))
    as P.
  rewrite QueueFacts.cstr_blit_record in P
    by exact (text_of_text sc line Hl).
  destruct (Z.eqb_spec
              (strncmp (blit buf 0 (text_of line ++ [null])) key
                 (length key)) 0) as [E|E]; split; intros D;
    try reflexivity.
  - now apply P in E.
  - now apply P in D.
Qed.

(** The rounds of [readKey]'s loop on lines that do not start with the
    key. *)
Lemma readKey_skip (sc : bool) (key outbuf : list ascii) (maxlen : Z)
    (before : list (list ascii)) :
  null_free key ->
  Forall (fun l => plain_line sc l /\ ~ key `prefix_of` text_of l) before ->
  forall (fuel : nat) (finp buf : list ascii),
    length buf = 128%nat ->
    exists buf' : list ascii,
      length buf' = 128%nat
      /\ readKey_loop (length before + fuel) sc (lines before ++ finp) buf
           key outbuf (strlen key) maxlen
         = readKey_loop fuel sc finp buf' key outbuf (strlen key) maxlen.
Proof.
  intros Hk. induction 1 as [|l before [Hl Hno] _ IH]; intros fuel finp buf Hb.
  - exists buf. now split.
  - rewrite lines_cons. cbn [length Nat.add].
    rewrite (proj2 (readKey_round sc l (lines before ++ finp) buf key
                      outbuf maxlen (length before + fuel) Hk Hl Hb) Hno).
    apply IH. destruct Hl as [Hl Hlen]. rewrite length_blit; [exact Hb|].
    rewrite length_app. cbn [length]. lia.
Qed.

Lemma length_new_char (junk : nat -> ascii) (n : nat) :
  length (new_char junk (Z.of_nat n)) = n.
Proof. unfold new_char. now rewrite length_fmap, length_seq, Nat2Z.id. Qed.

(** X20.  [readKey] gives the value of the first line of the file that
    starts with the key: what follows the key on that line, without
    carriage returns, as a terminated string.  (The lines up to that one
    are lines of ordinary characters, of at most 125 characters each, the
    value is shorter than [maxlen], and [outbuf] has room for [maxlen]
    characters.) *)
Theorem X20_readKey_gives_the_value_of_the_first_line_with_the_key
    (signed_char : bool) (junk : nat -> ascii)
    (before : list (list ascii)) (line rest key value outbuf : list ascii)
    (maxlen : Z) :
  null_free key ->
  Forall (fun l => plain_line signed_char l /\ ~ key `prefix_of` text_of l)
    before ->
  plain_line signed_char line ->
  text_of line = key ++ value ->
  Z.of_nat (length value) < maxlen <= Z.of_nat (length outbuf) ->
  cstr (readKey signed_char (Some (lines before ++ line ++ LF :: rest))
          junk key outbuf maxlen) = value.
Proof.
  intros Hk Hbefore Hline Htext Hmax. unfold readKey.
  pose proof (length_lines before) as Hlen.
  replace (S (length (lines before ++ line ++ LF :: rest)))
    with (length before
          + S (length (lines before) - length before
               + length (line ++ LF :: rest)))%nat
    by (rewrite !length_app; lia).
  destruct (readKey_skip signed_char key (store outbuf 0 null) maxlen before
              Hk Hbefore
              (S (length (lines before) - length before
                  + length (line ++ LF :: rest)))
              (line ++ LF :: rest) (new_char junk 128)
              (length_new_char junk 128)) as (buf' & Hb' & E).
  rewrite E.
  rewrite (proj1 (readKey_round signed_char line rest buf' key
                    (store outbuf 0 null) maxlen _ Hk Hline Hb'))
    by (exists value; exact Htext).
  assert (Hv : null_free value).
  { destruct Hline as [Hl _]. apply text_of_text in Hl.
    rewrite Htext in Hl. unfold null_free in *.
    now apply Forall_app in Hl. }
  assert (Hsrc : cstr (drop (length key)
                         (blit buf' 0 (text_of line ++ [null]))) = value).
  { rewrite QueueFacts.blit_record, Htext, <- app_assoc, drop_app_length.
    now apply cstr_app_null. }
  rewrite cstr_strncpy; rewrite Hsrc; [reflexivity|lia].
Qed.

Lemma X20_witness :
  let before := [Demo.L "WIFISSID=net" ++ [CR]; Demo.L "# comment"] in
  let line := Demo.L "WIFIPWD=secret" ++ [CR] in
  let key := Demo.L "WIFIPWD=" in
  let value := Demo.L "secret" in
  let outbuf := new_char (fun _ => "j"%char) 64 in
  (null_free key
   /\ Forall (fun l => plain_line true l /\ ~ key `prefix_of` text_of l)
        before
   /\ plain_line true line
   /\ text_of line = key ++ value
   /\ Z.of_nat (length value) < 63 <= Z.of_nat (length outbuf))
  /\ cstr (readKey true
             (Some (lines before ++ line ++ LF :: Demo.L "IOTHUBIP=10.0.0.2"))
             (fun _ => "k"%char) key outbuf 63) = value.
Proof.
  cbv zeta.
  assert (Hp : forall s : string,
             forallb (fun c => negb (Ascii.eqb c LF)
                               && negb (Ascii.eqb c null)
                               && negb (negative true c))
               (list_ascii_of_string s) = true ->
             Z.of_nat (length (text_of (Demo.L s ++ [CR]))) < 126 ->
             plain_line true (Demo.L s ++ [CR])).
  { intros s Hs Hn. split; [|exact Hn]. apply Forall_app.
    split; [now apply text_line|]. repeat constructor; discriminate. }
  assert (H1 : null_free (Demo.L "WIFIPWD="))
    by (repeat constructor; discriminate).
  assert (H2 : Forall (fun l => plain_line true l
                               /\ ~ Demo.L "WIFIPWD=" `prefix_of` text_of l)
                 [Demo.L "WIFISSID=net" ++ [CR]; Demo.L "# comment"]).
  { apply Forall_cons. split.
    - split; [apply Hp; [reflexivity|vm_compute; reflexivity]|].
      intros [k Ek]. vm_compute in Ek. discriminate.
    - apply Forall_cons. split; [|constructor].
      split; [split; [now apply text_line|vm_compute; reflexivity]|].
      intros [k Ek]. vm_compute in Ek. discriminate. }
  assert (H3 : plain_line true (Demo.L "WIFIPWD=secret" ++ [CR])).
  { apply Hp; [reflexivity|vm_compute; reflexivity]. }
  assert (H4 : text_of (Demo.L "WIFIPWD=secret" ++ [CR])
               = Demo.L "WIFIPWD=" ++ Demo.L "secret") by reflexivity.
  assert (H5 : Z.of_nat (length (Demo.L "secret")) < 63
               <= Z.of_nat (length (new_char (fun _ => "j"%char) 64)))
    by (vm_compute; split; [reflexivity|discriminate]).
  split; [exact (conj H1 (conj H2 (conj H3 (conj H4 H5))))|].
  exact (X20_readKey_gives_the_value_of_the_first_line_with_the_key
           true (fun _ => "k"%char)
           [Demo.L "WIFISSID=net" ++ [CR]; Demo.L "# comment"]
           (Demo.L "WIFIPWD=secret" ++ [CR]) (Demo.L "IOTHUBIP=10.0.0.2")
           (Demo.L "WIFIPWD=") (Demo.L "secret")
           (new_char (fun _ => "j"%char) 64) 63 H1 H2 H3 H4 H5).
Defined.

(** X21.  [readKey] leaves the empty string in [outbuf] when there is no
    configuration file, and, in a file whose lines are lines of ordinary
    characters of at most 125 characters each, when no line that a line
    feed ends starts with the key: a key on a last line without its line
    feed is not found, as [readln] returns false for that line. *)
Theorem X21_readKey_gives_the_empty_string_when_no_ended_line_has_the_key
    (signed_char : bool) (junk : nat -> ascii)
    (before : list (list ascii)) (last key outbuf : list ascii)
    (maxlen : Z) :
  null_free key ->
  (0 < length outbuf)%nat ->
  Forall (fun l => plain_line signed_char l /\ ~ key `prefix_of` text_of l)
    before ->
  plain_line signed_char last ->
  readKey signed_char None junk key outbuf maxlen = store outbuf 0 null
  /\ readKey signed_char (Some (lines before ++ last)) junk key outbuf
       maxlen = store outbuf 0 null
  /\ cstr (store outbuf 0 null) = [].
Proof.
  intros Hk Hout Hbefore [Hl Hlen]. split; [reflexivity|]. split.
  - unfold readKey. pose proof (length_lines before) as Hlines.
    replace (S (length (lines before ++ last)))
      with (length before
            + S (length (lines before) - length before + length last))%nat
      by (rewrite !length_app; lia).
    destruct (readKey_skip signed_char key (store outbuf 0 null) maxlen
                before Hk Hbefore
                (S (length (lines before) - length before + length last))
                last (new_char junk 128) (length_new_char junk 128))
      as (buf' & Hb' & E).
    rewrite E. cbn [readKey_loop].
    rewrite (proj2 (readln_line signed_char last buf' 127 Hl
                      ltac:(lia) ltac:(lia))).
    reflexivity.
  - destruct outbuf as [|c outbuf]; [cbn in Hout; lia|]. reflexivity.
Qed.

Lemma X21_witness :
  let before := [Demo.L "WIFISSID=net"] in
  let last := Demo.L "WIFIPWD=secret" in
  let key := Demo.L "WIFIPWD=" in
  let outbuf := new_char (fun _ => "j"%char) 64 in
  (null_free key
   /\ (0 < length outbuf)%nat
   /\ Forall (fun l => plain_line false l /\ ~ key `prefix_of` text_of l)
        before
   /\ plain_line false last)
  /\ readKey false None (fun _ => "k"%char) key outbuf 63
     = store outbuf 0 null
  /\ readKey false (Some (lines before ++ last)) (fun _ => "k"%char) key
       outbuf 63 = store outbuf 0 null
  /\ cstr (store outbuf 0 null) = [].
Proof.
  cbv zeta.
  assert (H1 : null_free (Demo.L "WIFIPWD="))
    by (repeat constructor; discriminate).
  assert (H2 : (0 < length (new_char (fun _ => "j"%char) 64))%nat)
    by (vm_compute; lia).
  assert (H3 : Forall (fun l => plain_line false l
                               /\ ~ Demo.L "WIFIPWD=" `prefix_of` text_of l)
                 [Demo.L "WIFISSID=net"]).
  { apply Forall_cons. split; [|constructor].
    split; [split; [now apply text_line|vm_compute; reflexivity]|].
    intros [k Ek]. vm_compute in Ek. discriminate. }
  assert (H4 : plain_line false (Demo.L "WIFIPWD=secret")).
  { split; [now apply text_line|vm_compute; reflexivity]. }
  split; [exact (conj H1 (conj H2 (conj H3 H4)))|].
  exact (X21_readKey_gives_the_empty_string_when_no_ended_line_has_the_key
           false (fun _ => "k"%char) [Demo.L "WIFISSID=net"]
           (Demo.L "WIFIPWD=secret") (Demo.L "WIFIPWD=")
           (new_char (fun _ => "j"%char) 64) 63 H1 H2 H3 H4).
Defined.

(** [readln] reads on in the file, and by one character at least when it
    neither meets the end of the file nor starts on a full buffer. *)
Lemma readln_loop_rest (sc : bool) (finp : list ascii) :
  forall (buf : list ascii) (len maxlen : Z) (eof : bool)
         (rest buf' : list ascii) (len' : Z),
    readln_loop sc finp buf len maxlen = (eof, rest, buf', len') ->
    (length rest <= length finp)%nat
    /\ (eof = false -> len < maxlen - 1 ->
        (length rest < length finp)%nat).
Proof.
  induction finp as [|c finp IH]; intros buf len maxlen eof rest buf' len' H;
    cbn [readln_loop] in H; destruct (len <? maxlen - 1) eqn:E.
  - inversion H; subst. split; [lia|discriminate].
  - inversion H; subst. apply Z.ltb_ge in E. split; [lia|]. intros _ ?. lia.
  - destruct (negative sc c).
    { inversion H; subst. cbn [length]. split; [lia|discriminate]. }
    destruct (Ascii.eqb c CR).
    { apply IH in H as [H _]. cbn [length]. split; lia. }
    destruct (Ascii.eqb c LF).
    { inversion H; subst. cbn [length]. split; lia. }
    apply IH in H as [H _]. cbn [length]. split; lia.
  - inversion H; subst. apply Z.ltb_ge in E. split; [lia|]. intros _ ?. lia.
Qed.

Lemma readln_rest (sc : bool) (finp buf rest buf' : list ascii) :
  readln sc finp buf 127 = (true, rest, buf') ->
  (length rest < length finp)%nat.
Proof.
  unfold readln. intros H.
  destruct (readln_loop sc finp (store buf 0 null) 0 127)
    as [[[eof r] b] l] eqn:E.
  inversion H; subst. apply readln_loop_rest in E as [_ E].
  apply E; [now destruct eof|lia].
Qed.

(** Within one round more than the file has characters the loop is left,
    and with what [readKey_loop] gives. *)
Lemma readKey_ends_loop (sc : bool) (key outbuf : list ascii) (n maxlen : Z) :
  forall (fuel fuel' : nat) (finp buf : list ascii),
    (length finp < fuel)%nat -> (length finp < fuel')%nat ->
    readKey_ends fuel sc finp buf key outbuf n maxlen
    = Some (readKey_loop fuel' sc finp buf key outbuf n maxlen).
Proof.
  induction fuel as [|fuel IH]; intros fuel' finp buf H H'; [lia|].
  destruct fuel' as [|fuel']; [lia|]. cbn [readKey_ends readKey_loop].
  destruct (readln sc finp buf 127) as [[more finp'] buf'] eqn:E.
  destruct more; [|reflexivity].
  destruct (strncmp buf' key (Z.to_nat n) =? 0); [reflexivity|].
  apply readln_rest in E. apply IH; lia.
Qed.

(** X22.  The loop of [readKey] ends, whatever the file holds: a call of
    [readln] that returns true has read a character at least, so that
    the loop is left, by its [break] or by [readln] returning false,
    within as many rounds as the file has characters, and one more; and
    it is left with what [readKey] gives. *)
Theorem X22_readKey_ends_within_the_length_of_the_file
    (signed_char : bool) (junk : nat -> ascii)
    (finp key outbuf : list ascii) (maxlen : Z) (fuel : nat) :
  (length finp < fuel)%nat ->
  readKey_ends fuel signed_char finp (new_char junk 128) key
    (store outbuf 0 null) (strlen key) maxlen
  = Some (readKey signed_char (Some finp) junk key outbuf maxlen)
  /\ forall buf rest buf' : list ascii,
       readln signed_char finp buf 127 = (true, rest, buf') ->
       (length rest < length finp)%nat.
Proof.
  intros H. split.
  - unfold readKey. apply readKey_ends_loop; lia.
  - intros buf rest buf'. apply readln_rest.
Qed.

Lemma X22_witness :
  let finp := Demo.L "A=1" ++ [LF; ascii_of_nat 200; null; LF] ++ Demo.L "B=2"
  in
  (length finp < 12)%nat
  /\ readKey_ends 12 true finp (new_char (fun _ => "k"%char) 128)
       (Demo.L "B=") (store (Demo.L "junk") 0 null) (strlen (Demo.L "B=")) 4
     = Some (readKey true (Some finp) (fun _ => "k"%char) (Demo.L "B=")
               (Demo.L "junk") 4)
  /\ forall buf rest buf' : list ascii,
       readln true finp buf 127 = (true, rest, buf') ->
       (length rest < length finp)%nat.
Proof.
  cbv zeta.
  assert (H : (length (Demo.L "A=1" ++ [LF; ascii_of_nat 200; null; LF]
                       ++ Demo.L "B=2") < 12)%nat)
    by (vm_compute; lia).
  split; [exact H|].
  exact (X22_readKey_ends_within_the_length_of_the_file true
           (fun _ => "k"%char)
           (Demo.L "A=1" ++ [LF; ascii_of_nat 200; null; LF] ++ Demo.L "B=2")
           (Demo.L "B=") (Demo.L "junk") 4 12 H).
Defined.

End ConfigFacts.

(** ** The WiFi link *)

Module WifiFacts.
Import Wifi.

(** The loop when the link comes up at the [k]-th look from here. *)
Lemma wait_loop_up (status : nat -> bool) (k : nat) :
  forall (fuel poll : nat) (c : Z),
    (forall j : nat, (j < k)%nat -> status (poll + j)%nat = false) ->
    status (poll + k)%nat = true ->
    0 <= c -> c + Z.of_nat k < maxWaitTimeToConnect ->
    (k < fuel)%nat ->
    wait_loop fuel status poll c = (c + Z.of_nat k, S (poll + k)).
Proof.
  unfold maxWaitTimeToConnect.
  induction k as [|k IH]; intros fuel poll c Hdown Hup Hc Hk Hfuel;
    (destruct fuel as [|fuel]; [lia|]); cbn [wait_loop].
  - rewrite Nat.add_0_r in *. rewrite Hup. f_equal. lia.
  - pose proof (Hdown 0%nat ltac:(lia)) as H0. rewrite Nat.add_0_r in H0.
    rewrite H0. unfold maxWaitTimeToConnect.
    destruct (Z.geb_spec (c + 1) 50) as [?|_]; [lia|].
    rewrite IH; [f_equal; lia| |
                 replace (S poll + k)%nat with (poll + S k)%nat by lia;
                 exact Hup|lia|lia|lia].
    intros j Hj. replace (S poll + j)%nat with (poll + S j)%nat by lia.
    apply Hdown. lia.
Qed.

(** The loop when the link stays down for the [n] looks that the counter
    leaves. *)
Lemma wait_loop_down (status : nat -> bool) (n : nat) :
  forall (fuel poll : nat) (c : Z),
    (forall j : nat, (j < n)%nat -> status (poll + j)%nat = false) ->
    c + Z.of_nat n = maxWaitTimeToConnect ->
    (0 < n <= fuel)%nat ->
    wait_loop fuel status poll c = (maxWaitTimeToConnect, (poll + n)%nat).
Proof.
  unfold maxWaitTimeToConnect.
  induction n as [|n IH]; intros fuel poll c Hdown Hc Hfuel; [lia|].
  destruct fuel as [|fuel]; [lia|]. cbn [wait_loop].
  pose proof (Hdown 0%nat ltac:(lia)) as H0. rewrite Nat.add_0_r in H0.
  rewrite H0. unfold maxWaitTimeToConnect.
  destruct (Z.geb_spec (c + 1) 50) as [Hge|Hlt].
  - f_equal; lia.
  - replace (poll + S n)%nat with (S poll + n)%nat by lia.
    apply IH; [|lia|lia].
    intros j Hj. replace (S poll + j)%nat with (poll + S j)%nat by lia.
    apply Hdown. lia.
Qed.

(** X23.  [connectToWiFi] succeeds when the link is up at one of the
    first 50 looks at it: with the link first up at look [k] (counted
    from 0) it returns true with [wifiWaitCounter] at [k], after [k + 1]
    looks; any number of rounds from 50 on gives the loop the same
    end. *)
Theorem X23_connect_succeeds_within_fifty_looks
    (status : nat -> bool) (k : nat) :
  (k < 50)%nat ->
  (forall j : nat, (j < k)%nat -> status j = false) ->
  status k = true ->
  connectToWiFi status = (true, Z.of_nat k, S k)
  /\ forall fuel : nat,
       (50 <= fuel)%nat -> wait_loop fuel status 0 0 = (Z.of_nat k, S k).
Proof.
  intros Hk Hdown Hup.
  assert (E : forall fuel : nat,
             (50 <= fuel)%nat ->
             wait_loop fuel status 0 0 = (Z.of_nat k, S k)).
  { intros fuel Hfuel.
    now rewrite (wait_loop_up status k fuel 0 0)
      by (unfold maxWaitTimeToConnect; cbn [Nat.add]; auto with lia). }
  split; [|exact E]. unfold connectToWiFi.
  rewrite E by (unfold maxWaitTimeToConnect; lia).
  unfold maxWaitTimeToConnect.
  destruct (Z.geb_spec (Z.of_nat k) 50) as [?|_]; [lia|reflexivity].
Qed.

Lemma X23_witness :
  let status := fun j : nat => Nat.leb 7 j in
  ((7 < 50)%nat
   /\ (forall j : nat, (j < 7)%nat -> status j = false)
   /\ status 7%nat = true)
  /\ connectToWiFi status = (true, 7, 8%nat)
  /\ forall fuel : nat,
       (50 <= fuel)%nat -> wait_loop fuel status 0 0 = (7, 8%nat).
Proof.
  cbv zeta.
  assert (H1 : (7 < 50)%nat) by lia.
  assert (H2 : forall j : nat, (j < 7)%nat -> Nat.leb 7 j = false)
    by (intros j Hj; apply Nat.leb_gt; exact Hj).
  assert (H3 : Nat.leb 7 7 = true) by reflexivity.
  split; [exact (conj H1 (conj H2 H3))|].
  exact (X23_connect_succeeds_within_fifty_looks
           (fun j : nat => Nat.leb 7 j) 7 H1 H2 H3).
Defined.

(** X24.  [connectToWiFi] gives up after 50 looks at a link that is
    down: it returns false with [wifiWaitCounter] at 50, and does not
    look at the link again, so that a link that comes up just then is
    not seen. *)
Theorem X24_connect_gives_up_after_fifty_looks (status : nat -> bool) :
  (forall j : nat, (j < 50)%nat -> status j = false) ->
  connectToWiFi status = (false, 50, 50%nat)
  /\ forall fuel : nat,
       (50 <= fuel)%nat -> wait_loop fuel status 0 0 = (50, 50%nat).
Proof.
  intros Hdown.
  assert (E : forall fuel : nat,
             (50 <= fuel)%nat -> wait_loop fuel status 0 0 = (50, 50%nat)).
  { intros fuel Hfuel.
    now rewrite (wait_loop_down status 50 fuel 0 0)
      by (unfold maxWaitTimeToConnect; cbn [Nat.add]; auto with lia). }
  split; [|exact E]. unfold connectToWiFi.
  rewrite E by (unfold maxWaitTimeToConnect; lia). reflexivity.
Qed.

Lemma X24_witness :
  let status := fun j : nat => Nat.leb 50 j in
  (forall j : nat, (j < 50)%nat -> status j = false)
  /\ connectToWiFi status = (false, 50, 50%nat)
  /\ forall fuel : nat,
       (50 <= fuel)%nat -> wait_loop fuel status 0 0 = (50, 50%nat).
Proof.
  cbv zeta.
  assert (H : forall j : nat, (j < 50)%nat -> Nat.leb 50 j = false)
    by (intros j Hj; apply Nat.leb_gt; exact Hj).
  split; [exact H|].
  exact (X24_connect_gives_up_after_fifty_looks
           (fun j : nat => Nat.leb 50 j) H).
Defined.

End WifiFacts.

(** ** The hub *)

Module HubFacts.
Import Hub.












End HubFacts.
